(** * PeeGees content pipeline: heading ids, heading extraction, table of
    contents, lesson navigation, cached loaders and the Markdown renderer.

    The development embeds [src/lib/content.ts], the effect of
    [src/routes/Lesson.tsx] that drives the lesson loader, the load of
    [ContentProvider] that drives the manifest loader, and the
    configuration of the unified pipeline in [MarkdownRenderer].

    JavaScript strings are sequences of UTF-16 code units.  Here a string is
    a Rocq [string]; each [ascii] stands for one code unit below 256 (the
    Latin-1 range), which is the range on which the character classes of the
    regular expressions of [content.ts] and [toLowerCase] are written out.
    The regular expression of [extractHeadings] is written a second time on
    code units as numbers ([Utf16Scan]), with its classes on the whole
    range. *)

From stdpp Require Import gmap strings list pretty sorting.
From Stdlib Require Import ZArith NArith Lia Bool Ascii.
From Stdlib Require Strings.String.
Import String.StringSyntax.

Local Open Scope string_scope.
Local Open Scope list_scope.
Local Open Scope nat_scope.

#[local] Set Warnings "-register-all".

(** ** Code units and character classes *)

Module JsString.

Definition chars (s : string) : list ascii := String.list_ascii_of_string s.
Definition str (l : list ascii) : string := String.string_of_list_ascii l.

Definition code (c : ascii) : N := N_of_ascii c.

Definition in_range (lo hi : N) (c : ascii) : bool :=
  ((lo <=? code c) && (code c <=? hi))%N.

(** [a-z] and [0-9] *)
Definition is_lower_az (c : ascii) : bool := in_range 97 122 c.
Definition is_digit (c : ascii) : bool := in_range 48 57 c.

(** [-] and [#] *)
Definition is_hyphen (c : ascii) : bool := (code c =? 45)%N.
Definition is_hash (c : ascii) : bool := (code c =? 35)%N.

(** [\s] on code units below 256: TAB, LF, VT, FF, CR, SPACE and NBSP. *)
Definition is_space (c : ascii) : bool :=
  in_range 9 13 c || (code c =? 32)%N || (code c =? 160)%N.

(** Line terminators below 256: LF and CR.  They are what [.] refuses and
    what [^] and [$] look at under the [m] flag. *)
Definition is_line_terminator (c : ascii) : bool :=
  (code c =? 10)%N || (code c =? 13)%N.

(** [String.prototype.toLowerCase] on one code unit below 256: A-Z and the
    Latin-1 capitals U+00C0..U+00DE (without the multiplication sign
    U+00D7) move up by 32. *)
Definition lower_char (c : ascii) : ascii :=
  if in_range 65 90 c
     || (in_range 192 222 c && negb (code c =? 215)%N)
  then ascii_of_N (code c + 32)
  else c.

Definition toLowerCase (s : list ascii) : list ascii := map lower_char s.

Fixpoint drop_while (p : ascii -> bool) (s : list ascii) : list ascii :=
  match s with
  | [] => []
  | c :: s' => if p c then drop_while p s' else s
  end.

Fixpoint take_while (p : ascii -> bool) (s : list ascii) : list ascii :=
  match s with
  | [] => []
  | c :: s' => if p c then c :: take_while p s' else []
  end.

(** [String.prototype.trim]: white space and line terminators go from both
    ends; below 256 that is the class [\s]. *)
Definition trim (s : list ascii) : list ascii :=
  rev (drop_while is_space (rev (drop_while is_space s))).

(** [s.replace(/[^...]/g, '')] for a negated class: the code units of the
    class stay, the others go. *)
Definition remove_outside (keep : ascii -> bool) (s : list ascii) : list ascii :=
  filter (fun c => Is_true (keep c)) s.

(** [s.replace(/p+/g, r)]: every maximal run of code units of the class [p]
    becomes the single code unit [r].  [in_run] tells that the previous code
    unit belonged to the run that has already been replaced. *)
Fixpoint replace_runs (p : ascii -> bool) (r : ascii) (in_run : bool)
         (s : list ascii) : list ascii :=
  match s with
  | [] => []
  | c :: s' =>
      if p c
      then (if in_run then replace_runs p r true s'
            else r :: replace_runs p r true s')
      else c :: replace_runs p r false s'
  end.

(** [s.replace(/^-|-$/g, '')] has no [m] flag: the first alternative can
    only match at index 0 and the second only at the last index, so at most
    one hyphen goes at each end. *)
Definition drop_leading_hyphen (s : list ascii) : list ascii :=
  match s with
  | c :: s' => if is_hyphen c then s' else s
  | [] => []
  end.

Fixpoint drop_trailing_hyphen (s : list ascii) : list ascii :=
  match s with
  | [] => []
  | [c] => if is_hyphen c then [] else [c]
  | c :: s' => c :: drop_trailing_hyphen s'
  end.

Definition replace_edge_hyphens (s : list ascii) : list ascii :=
  drop_trailing_hyphen (drop_leading_hyphen s).

(** No two neighbours of [s] are both in the class [p]. *)
Fixpoint no_adjacent (p : ascii -> bool) (s : list ascii) : Prop :=
  match s with
  | c1 :: s' =>
      match s' with
      | c2 :: _ => ~ (p c1 = true /\ p c2 = true)
      | [] => True
      end /\ no_adjacent p s'
  | [] => True
  end.

Definition starts_with (p : ascii -> bool) (s : list ascii) : Prop :=
  match s with
  | c :: _ => p c = true
  | [] => False
  end.

End JsString.

(** ** Heading ids: [generateHeadingId] *)

Module Slug.
Import JsString.

(** The class [a-z0-9\s-] of the first [replace]. *)
Definition slug_char (c : ascii) : bool :=
  is_lower_az c || is_digit c || is_space c || is_hyphen c.

Definition hyphen : ascii := "-"%char.

(** [generateHeadingId], one line per method call of the source. *)
Definition generateHeadingId_chars (text : list ascii) : list ascii :=
  let s1 := toLowerCase text in
  let s2 := remove_outside slug_char s1 in          (* /[^a-z0-9\s-]/g -> '' *)
  let s3 := replace_runs is_space hyphen false s2 in (* /\s+/g -> '-' *)
  let s4 := replace_runs is_hyphen hyphen false s3 in (* /-+/g -> '-' *)
  replace_edge_hyphens s4.                           (* /^-|-$/g -> '' *)

Definition generateHeadingId (text : string) : string :=
  str (generateHeadingId_chars (chars text)).

(** The canonical slug function in the words of the specification:
    lowercase, strip characters outside [a-z0-9\s-], collapse whitespace
    runs to single hyphens, trim leading and trailing hyphens. *)
Definition trim_hyphens (s : list ascii) : list ascii :=
  rev (drop_while is_hyphen (rev (drop_while is_hyphen s))).

Definition canonical_slug_chars (text : list ascii) : list ascii :=
  trim_hyphens
    (replace_runs is_space hyphen false
       (remove_outside slug_char (toLowerCase text))).

Definition canonical_slug (text : string) : string :=
  str (canonical_slug_chars (chars text)).

(** The same with hyphen runs collapsed before the trim. *)
Definition canonical_slug_collapsed_chars (text : list ascii) : list ascii :=
  trim_hyphens
    (replace_runs is_hyphen hyphen false
       (replace_runs is_space hyphen false
          (remove_outside slug_char (toLowerCase text)))).

Definition canonical_slug_collapsed (text : string) : string :=
  str (canonical_slug_collapsed_chars (chars text)).

End Slug.

(** ** Heading extraction: the regular expression of [extractHeadings] *)

Module HeadingScan.
Import JsString.

(** [(.+)$] at the current position.  [.] takes every code unit that is not
    a line terminator and [+] is greedy, so the group is the longest such
    run; it must not be empty.  The position after it is the end of the
    input or a line terminator, where [$] holds under the [m] flag. *)
Definition match_text (s : list ascii) : option (list ascii) :=
  match take_while (fun c => negb (is_line_terminator c)) s with
  | [] => None
  | t => Some t
  end.

(** [\s+(.+)$]: the greedy [\s+] first holds the whole run of white space
    (line terminators included) and gives code units back one at a time;
    [k] is the number it holds.  The result is that number and the text. *)
Fixpoint match_spaces_text (k : nat) (s : list ascii) : option (nat * list ascii) :=
  match k with
  | 0 => None
  | S k' =>
      match match_text (drop k s) with
      | Some t => Some (k, t)
      | None => match_spaces_text k' s
      end
  end.

(** [(#{2,4})\s+(.+)$]: the greedy [#{2,4}] first holds [n] hashes, at most
    four, and backtracks down to two.  The result is the number of hashes,
    the number of white-space code units and the text. *)
Fixpoint match_hashes (n : nat) (s : list ascii) : option (nat * nat * list ascii) :=
  match n with
  | 0 => None
  | 1 => None
  | S n' =>
      let rest := drop n s in
      match match_spaces_text (length (take_while is_space rest)) rest with
      | Some (k, t) => Some (n, k, t)
      | None => match_hashes n' s
      end
  end.

Definition match_heading (s : list ascii) : option (nat * nat * list ascii) :=
  match_hashes (Nat.min 4 (length (take_while is_hash s))) s.

(** The loop [while ((match = headingRegex.exec(markdown)) !== null)] with
    the [g] flag.  [s] is the input from the current index on, [skip] the
    number of code units up to [lastIndex] (they belong to the previous
    match) and [line_start] tells whether [^] holds at the current index:
    at index 0 or after a line terminator.  Each match gives
    [(match[1].length, match[2])]. *)
Fixpoint exec_all (skip : nat) (line_start : bool) (s : list ascii)
  : list (nat * list ascii) :=
  match s with
  | [] => []
  | c :: s' =>
      match skip with
      | S k => exec_all k (is_line_terminator c) s'
      | 0 =>
          if line_start then
            match match_heading s with
            | Some (level, k, t) =>
                (level, t)
                  :: exec_all (level + k + length t - 1) (is_line_terminator c) s'
            | None => exec_all 0 (is_line_terminator c) s'
            end
          else exec_all 0 (is_line_terminator c) s'
      end
  end.

End HeadingScan.

(** ** The table of contents: [extractHeadings] and [buildHeadingTree] *)

Module Toc.
Import JsString.

(** A [TOCHeading] object.  [children] holds references to other heading
    objects; it is [None] while the property is absent. *)
Record TOCHeading := mkHeading {
  id : string;
  depth : nat;
  text : string;
  children : option (list nat)
}.

(** The object pushed by the loop of [extractHeadings]. *)
Definition heading_of_match (m : nat * list ascii) : TOCHeading :=
  let text := trim (snd m) in
  {| id := Slug.generateHeadingId (str text);
     depth := fst m;
     text := str text;
     children := None |}.

Definition matched_headings (markdown : string) : list TOCHeading :=
  map heading_of_match (HeadingScan.exec_all 0 true (chars markdown)).

(** The state of [buildHeadingTree].  The heading objects are shared between
    the input array, [root], [stack] and the [children] arrays, so they live
    in the store [objects] and are named by their index in the input array.
    [stack] has its top at the head. *)
Record BuildState := mkBuild {
  objects : list TOCHeading;
  root : list nat;
  stack : list nat
}.

(** [while (stack.length > 0 && stack[stack.length - 1].depth >= heading.depth)
    stack.pop()] *)
Fixpoint pop_stack (objs : list TOCHeading) (d : nat) (stk : list nat) : list nat :=
  match stk with
  | [] => []
  | top :: below =>
      match objs !! top with
      | Some o => if d <=? depth o then pop_stack objs d below else stk
      | None => stk
      end
  end.

(** [if (!parent.children) parent.children = []; parent.children.push(heading)] *)
Definition push_child (child : nat) (parent : TOCHeading) : TOCHeading :=
  {| id := id parent;
     depth := depth parent;
     text := text parent;
     children := Some (default [] (children parent) ++ [child]) |}.

(** One iteration of [for (const heading of headings)]; [i] is the index of
    [heading]. *)
Definition build_step (st : BuildState) (i : nat) : BuildState :=
  match objects st !! i with
  | None => st
  | Some heading =>
      let stk := pop_stack (objects st) (depth heading) (stack st) in
      match stk with
      | [] =>
          {| objects := objects st; root := root st ++ [i]; stack := [i] |}
      | parent :: _ =>
          {| objects := alter (push_child i) parent (objects st);
             root := root st;
             stack := i :: stk |}
      end
  end.

Definition build_run (headings : list TOCHeading) : BuildState :=
  foldl build_step
        {| objects := headings; root := []; stack := [] |}
        (seq 0 (length headings)).

(** A heading with its children read out of the store; an absent
    [children] property reads as no child. *)
Inductive HeadingNode :=
  Node (nid : string) (ndepth : nat) (ntext : string) (nchildren : list HeadingNode).

Fixpoint read_node (fuel : nat) (objs : list TOCHeading) (r : nat) : option HeadingNode :=
  match fuel with
  | 0 => None
  | S fuel' =>
      o ← objs !! r;
      cs ← mapM (read_node fuel' objs) (default [] (children o));
      Some (Node (id o) (depth o) (text o) cs)
  end.

(** [buildHeadingTree]: the returned array [root], read out of the store. *)
Definition buildHeadingTree (headings : list TOCHeading) : option (list HeadingNode) :=
  let st := build_run headings in
  mapM (read_node (length (objects st)) (objects st)) (root st).

Definition extractHeadings (markdown : string) : option (list HeadingNode) :=
  buildHeadingTree (matched_headings markdown).

(** The tree builder in the words of the specification, on values: a stack
    of ancestors, each with its depth and its position in the forest (the
    child indices from a root down to it). *)
Definition leaf (h : TOCHeading) : HeadingNode := Node (id h) (depth h) (text h) [].

(** The heading [h] with the children [cs]. *)
Definition node (h : TOCHeading) (cs : list HeadingNode) : HeadingNode :=
  Node (id h) (depth h) (text h) cs.

Definition with_children (f : list HeadingNode -> list HeadingNode) (n : HeadingNode)
  : HeadingNode :=
  match n with Node i d t cs => Node i d t (f cs) end.

(** [n] becomes the last child of the node at position [p]; at the empty
    position it becomes the last root. *)
Fixpoint add_last_child (p : list nat) (n : HeadingNode) (forest : list HeadingNode)
  : list HeadingNode :=
  match p with
  | [] => forest ++ [n]
  | k :: p' => alter (with_children (add_last_child p' n)) k forest
  end.

Fixpoint count_children (p : list nat) (forest : list HeadingNode) : nat :=
  match p with
  | [] => length forest
  | k :: p' =>
      match forest !! k with
      | Some (Node _ _ _ cs) => count_children p' cs
      | None => 0
      end
  end.

Fixpoint pop_while_deeper (d : nat) (stk : list (nat * list nat)) : list (nat * list nat) :=
  match stk with
  | [] => []
  | (dtop, p) :: below => if d <=? dtop then pop_while_deeper d below else stk
  end.

Definition spec_step (st : list HeadingNode * list (nat * list nat)) (h : TOCHeading)
  : list HeadingNode * list (nat * list nat) :=
  let '(forest, stk) := st in
  match pop_while_deeper (depth h) stk with
  | [] => (forest ++ [leaf h], [(depth h, [length forest])])
  | (dtop, p) :: below =>
      (add_last_child p (leaf h) forest,
       (depth h, p ++ [count_children p forest]) :: (dtop, p) :: below)
  end.

Definition buildTree_spec (headings : list TOCHeading) : list HeadingNode :=
  fst (foldl spec_step ([], []) headings).

End Toc.

(** ** The store of [buildHeadingTree] as a forest of references *)

Module TocStore.
Import Toc.

(** The forest of references that the store holds under [root]. *)
Inductive rtree := RNode (r : nat) (cs : list rtree).

Definition rref (t : rtree) : nat := match t with RNode r _ => r end.
Definition rchildren (t : rtree) : list rtree := match t with RNode _ cs => cs end.

Fixpoint refs (t : rtree) : list nat :=
  match t with RNode r cs => r :: mjoin (refs <$> cs) end.

Definition refsF (rf : list rtree) : list nat := mjoin (refs <$> rf).

Definition rwith_children (f : list rtree -> list rtree) (t : rtree) : rtree :=
  match t with RNode r cs => RNode r (f cs) end.

Fixpoint radd (p : list nat) (n : rtree) (rf : list rtree) : list rtree :=
  match p with
  | [] => rf ++ [n]
  | k :: p' => alter (rwith_children (radd p' n)) k rf
  end.

(** The node at a position. *)
Fixpoint sub (p : list nat) (rf : list rtree) : option rtree :=
  match p with
  | [] => None
  | k :: p' =>
      match rf !! k with
      | None => None
      | Some t => match p' with [] => Some t | _ => sub p' (rchildren t) end
      end
  end.

#[export] Instance heading_inhabited : Inhabited TOCHeading :=
  populate {| id := EmptyString; depth := 0; text := EmptyString; children := None |}.

Fixpoint value (hs : list TOCHeading) (t : rtree) : HeadingNode :=
  match t with
  | RNode r cs =>
      let h := hs !!! r in Node (id h) (depth h) (text h) (value hs <$> cs)
  end.

(** A heading object keeps its [id], [depth] and [text]. *)
Definition same_fields (o h : TOCHeading) : Prop :=
  id o = id h /\ depth o = depth h /\ text o = text h.

(** The [children] arrays of the store spell out the tree [t]. *)
Inductive Shape (objs : list TOCHeading) : rtree -> Prop :=
| shape_node r o cs :
    objs !! r = Some o ->
    default [] (children o) = rref <$> cs ->
    Forall (Shape objs) cs ->
    Shape objs (RNode r cs).

(** The entry [e] of the stack of the specification names the node that
    the reference [r] of the stack of the code names. *)
Definition on_stack (hs : list TOCHeading) (rf : list rtree) (r : nat)
           (e : nat * list nat) : Prop :=
  fst e = depth (hs !!! r) /\ exists t, sub (snd e) rf = Some t /\ rref t = r.

(** The invariant of the loop of [buildHeadingTree].  After [i] headings the
    store spells out a forest [rf] of references without sharing; its values
    are the forest of the specification, and the two stacks name the same
    nodes. *)
Record Inv (hs : list TOCHeading) (i : nat) (st : BuildState)
       (sp : list HeadingNode * list (nat * list nat)) (rf : list rtree) : Prop :=
  mkInv {
    inv_bound : i <= length hs;
    inv_fields : Forall2 same_fields (objects st) hs;
    inv_later : forall j o, i <= j -> objects st !! j = Some o -> children o = None;
    inv_root : root st = rref <$> rf;
    inv_shape : Forall (Shape (objects st)) rf;
    inv_nodup : NoDup (refsF rf);
    inv_lt : Forall (fun x => x < i) (refsF rf);
    inv_forest : fst sp = value hs <$> rf;
    inv_stack : Forall2 (on_stack hs rf) (stack st) (snd sp)
  }.

(** A heading as [extractHeadings] pushes it: without [children]. *)
Definition flat_heading (h : TOCHeading) : Prop := children h = None.

End TocStore.

(** ** Content types ([types/content.ts]) and thrown values *)

Module Content.

Record Course := mkCourse {
  course_title : string;
  tagline : string;
  course_description : string;
  coverImage : string
}.

Record Lesson := mkLesson {
  order : Z;
  slug : string;
  title : string;
  description : string;
  mdPath : string;
  ogImage : option string;
  estReadMinutes : option Z;
  tags : option (list string)
}.

Record ContentManifest := mkManifest {
  course : Course;
  lessons : list Lesson
}.

Record NavLink := mkNavLink { nav_slug : string; nav_title : string }.

Record LessonNavigation := mkNavigation {
  previous : option NavLink;
  next : option NavLink
}.

(** A value of [response.json()]: the cast to [ContentManifest] in the
    source is not checked at run time.  Numbers are the integers that a
    manifest holds; an object is the list of its properties. *)
Inductive Json :=
| JNull
| JBool (b : bool)
| JNumber (z : Z)
| JString (s : string)
| JArray (elements : list Json)
| JObject (properties : list (string * Json)).

Fixpoint assoc (k : string) (ps : list (string * Json)) : option Json :=
  match ps with
  | [] => None
  | (k', v) :: ps' => if String.eqb k k' then Some v else assoc k ps'
  end.

Definition property (k : string) (j : Json) : option Json :=
  match j with
  | JObject ps => assoc k ps
  | _ => None
  end.

(** The JSON text of a manifest that has the declared types. *)
Definition optional (k : string) (v : option Json) : list (string * Json) :=
  match v with
  | Some j => [(k, j)]
  | None => []
  end.

Definition lesson_json (l : Lesson) : Json :=
  JObject ([("order", JNumber (order l)); ("slug", JString (slug l));
            ("title", JString (title l)); ("description", JString (description l));
            ("mdPath", JString (mdPath l))]
             ++ optional "ogImage" (JString <$> ogImage l)
             ++ optional "estReadMinutes" (JNumber <$> estReadMinutes l)
             ++ optional "tags" ((fun ts => JArray (JString <$> ts)) <$> tags l)).

Definition course_json (c : Course) : Json :=
  JObject [("title", JString (course_title c)); ("tagline", JString (tagline c));
           ("description", JString (course_description c));
           ("coverImage", JString (coverImage c))].

Definition manifest_json (m : ContentManifest) : Json :=
  JObject [("course", course_json (course m));
           ("lessons", JArray (lesson_json <$> lessons m))].

(** An [Error] object (a [DOMException] or a [TypeError] is one too). *)
Record Error := mkError { name : string; message : string }.

(** What a [throw] or a rejected promise carries: an [Error], or a value
    that is not an [Error] (the string given to [controller.abort]). *)
Inductive Thrown :=
| ThrownError (e : Error)
| ThrownValue (v : string).

Inductive Result (A : Type) :=
| Ok (a : A)
| Throw (t : Thrown).
Arguments Ok {A} a.
Arguments Throw {A} t.

End Content.

(** ** Lesson navigation: [getLessonNavigation] *)

Module Navigation.
Import Content.
Local Open Scope Z_scope.

(** [Array.prototype.findIndex]: the first index whose element satisfies
    [p], or [-1]. *)
Fixpoint findIndex_from {A : Type} (p : A -> bool) (i : Z) (l : list A) : Z :=
  match l with
  | [] => -1
  | x :: l' => if p x then i else findIndex_from p (i + 1) l'
  end.

Definition findIndex {A : Type} (p : A -> bool) (l : list A) : Z :=
  findIndex_from p 0 l.

(** [array[i]]: [undefined] outside the array. *)
Definition at_index {A : Type} (l : list A) (i : Z) : option A :=
  if i <? 0 then None else l !! Z.to_nat i.

(** [{ slug: lessons[i].slug, title: lessons[i].title }]; reading a property
    of [undefined] throws a [TypeError]. *)
Definition link_at (ls : list Lesson) (i : Z) : Result NavLink :=
  match at_index ls i with
  | Some l => Ok {| nav_slug := slug l; nav_title := title l |}
  | None =>
      Throw (ThrownError
               {| name := "TypeError";
                  message := "Cannot read properties of undefined" |})
  end.

Definition getLessonNavigation (manifest : ContentManifest) (currentSlug : string)
  : Result LessonNavigation :=
  let currentIndex :=
    findIndex (fun lesson => String.eqb (slug lesson) currentSlug) (lessons manifest) in
  if currentIndex =? -1 then Ok {| previous := None; next := None |}
  else
    let previous :=
      if currentIndex >? 0
      then match link_at (lessons manifest) (currentIndex - 1) with
           | Ok l => Ok (Some l)
           | Throw t => Throw t
           end
      else Ok None in
    let next :=
      if currentIndex <? Z.of_nat (length (lessons manifest)) - 1
      then match link_at (lessons manifest) (currentIndex + 1) with
           | Ok l => Ok (Some l)
           | Throw t => Throw t
           end
      else Ok None in
    match previous, next with
    | Ok p, Ok n => Ok {| previous := p; next := n |}
    | Throw t, _ => Throw t
    | _, Throw t => Throw t
    end.

(** The link to a lesson. *)
Definition link (l : Lesson) : NavLink := {| nav_slug := slug l; nav_title := title l |}.

(** [l] is the first lesson of [m] with the slug [s], at index [k]. *)
Definition first_with_slug (m : ContentManifest) (s : string) (k : nat) (l : Lesson) : Prop :=
  lessons m !! k = Some l
  /\ slug l = s
  /\ forall j l', (j < k)%nat -> lessons m !! j = Some l' -> slug l' <> s.

End Navigation.

(** ** The cache in [sessionStorage] *)

Module Storage.
Import Content.
Local Open Scope Z_scope.

Definition MANIFEST_CACHE_KEY : string := "content-manifest".
Definition LESSON_CACHE_PREFIX : string := "lesson-content-".
Definition CACHE_EXPIRY : Z := 1000 * 60 * 30.

(** The object [JSON.parse(cached)] of the loaders, with the four
    properties they read; a property is [None] when it is absent
    ([undefined]).  The manifest loader writes [data] and [timestamp], the
    lesson loader [content], [timestamp] and [headings]. *)
Record CacheObject := mkCacheObject {
  data : option Json;
  content : option string;
  headings : option (list Toc.HeadingNode);
  timestamp : option Z
}.

(** A stored string.  [JsonText o] is [JSON.stringify o], which
    [JSON.parse] turns back into an object with the properties of [o];
    [OtherText text] is a string that [JSON.parse] rejects. *)
Inductive StoredItem :=
| JsonText (o : CacheObject)
| OtherText (text : string).

(** [sessionStorage].  When the browser denies access to the storage,
    [getItem] throws; when the quota is exhausted, [setItem] throws. *)
Record SessionStorage := mkStorage {
  items : gmap string StoredItem;
  getItem_error : option Error;
  setItem_error : option Error
}.

Definition getItem (key : string) (s : SessionStorage) : Result (option StoredItem) :=
  match getItem_error s with
  | Some e => Throw (ThrownError e)
  | None => Ok (items s !! key)
  end.

Definition setItem (key : string) (v : StoredItem) (s : SessionStorage)
  : Result SessionStorage :=
  match setItem_error s with
  | Some e => Throw (ThrownError e)
  | None =>
      Ok {| items := <[key := v]> (items s);
            getItem_error := getItem_error s;
            setItem_error := setItem_error s |}
  end.

Inductive CacheRead :=
| CacheHit (o : CacheObject)
| CacheMiss
| CacheThrows (t : Thrown).

(** [parsedCache.timestamp && Date.now() - parsedCache.timestamp < CACHE_EXPIRY]:
    an absent timestamp and the timestamp 0 are falsy. *)
Definition fresh (now : Z) (o : CacheObject) : bool :=
  match timestamp o with
  | None => false
  | Some ts => negb (ts =? 0) && (now - ts <? CACHE_EXPIRY)
  end.

(** [if (cached) { const parsedCache = JSON.parse(cached); if (fresh) return ... }]:
    [null] and the empty string are falsy, a string that is not JSON makes
    [JSON.parse] throw a [SyntaxError]. *)
Definition read_cache (now : Z) (cached : option StoredItem) : CacheRead :=
  match cached with
  | None => CacheMiss
  | Some (OtherText EmptyString) => CacheMiss
  | Some (OtherText _) =>
      CacheThrows (ThrownError {| name := "SyntaxError";
                                  message := "Unexpected token in JSON" |})
  | Some (JsonText o) => if fresh now o then CacheHit o else CacheMiss
  end.

End Storage.

(** ** The loaders: [fetchContentManifest] and [fetchLessonContent] *)

Module Loader.
Import Content Storage.
Local Open Scope Z_scope.

Record LessonContent := mkLessonContent {
  markdown : option string;
  lesson_headings : option (list Toc.HeadingNode)
}.

(** What the loaders act on: the storage, and two logs kept for the
    statements: the URLs given to [fetch] and the keys given to a [setItem]
    that returned. *)
Record World := mkWorld {
  storage : SessionStorage;
  requests : list string;
  writes : list string
}.

Record Response := mkResponse { ok : bool; status : N; statusText : string }.

(** How an awaited promise settles. *)
Inductive Settle (A : Type) :=
| Fulfilled (a : A)
| Failed (t : Thrown).
Arguments Fulfilled {A} a.
Arguments Failed {A} t.

Inductive Outcome (A : Type) :=
| Resolved (a : A)
| Rejected (t : Thrown).
Arguments Resolved {A} a.
Arguments Rejected {A} t.

(** An [async] function runs until its next [await]: a call is suspended at
    [await fetch(...)], suspended at [await response.json()] (or [text()]),
    or settled. *)
Inductive Await := AwaitFetch | AwaitBody.

Inductive CallState (A : Type) :=
| Suspended (p : Await)
| Settled (o : Outcome A).
Arguments Suspended {A} p.
Arguments Settled {A} o.

(** The reason of [controller.abort()] and of the timeout of
    [createAbortController], [controller.abort('Request timeout')].  A
    pending [fetch] or body read rejects with the reason of its signal. *)
Definition abort_reason : Thrown :=
  ThrownError {| name := "AbortError";
                 message := "signal is aborted without reason" |}.
Definition timeout_reason : Thrown := ThrownValue "Request timeout".

(** The [catch] clause of both loaders: an [Error] named [AbortError] is
    thrown again, everything else is wrapped in a new [Error]. *)
Definition catch_clause (what : string) (t : Thrown) : Thrown :=
  match t with
  | ThrownError e =>
      if String.eqb (name e) "AbortError" then t
      else ThrownError {| name := "Error"; message := what ++ ": " ++ message e |}
  | ThrownValue _ =>
      ThrownError {| name := "Error"; message := what ++ ": Unknown error" |}
  end.

Arguments catch_clause : simpl never.

Definition log_request (url : string) (w : World) : World :=
  {| storage := storage w; requests := requests w ++ [url]; writes := writes w |}.

Definition store (key : string) (s : SessionStorage) (w : World) : World :=
  {| storage := s; requests := requests w; writes := writes w ++ [key] |}.

(** *** [fetchContentManifest] *)

Definition manifest_what : string := "Failed to load content manifest".

(** Up to [await fetch('/content-manifest.json', { signal })].  [signal] is
    [Some reason] when the signal is already aborted: [fetch] then rejects
    at once and sends nothing. *)
Definition fetchContentManifest_start (signal : option Thrown) (now : Z) (w : World)
  : World * CallState (option Json) :=
  match getItem MANIFEST_CACHE_KEY (storage w) with
  | Throw t => (w, Settled (Rejected (catch_clause manifest_what t)))
  | Ok cached =>
      match read_cache now cached with
      | CacheThrows t => (w, Settled (Rejected (catch_clause manifest_what t)))
      | CacheHit parsedCache => (w, Settled (Resolved (data parsedCache)))
      | CacheMiss =>
          match signal with
          | Some reason => (w, Settled (Rejected (catch_clause manifest_what reason)))
          | None => (log_request "/content-manifest.json" w, Suspended AwaitFetch)
          end
      end
  end.

(** From the settling of [fetch] to [await response.json()]. *)
Definition fetchContentManifest_on_fetch (r : Settle Response) (w : World)
  : World * CallState (option Json) :=
  match r with
  | Failed t => (w, Settled (Rejected (catch_clause manifest_what t)))
  | Fulfilled response =>
      if ok response then (w, Suspended AwaitBody)
      else
        let e := {| name := "Error";
                    message := "Failed to fetch manifest: "
                                 ++ pretty (status response) ++ " "
                                 ++ statusText response |} in
        (w, Settled (Rejected (catch_clause manifest_what (ThrownError e))))
  end.

(** From the settling of [response.json()] to the end. *)
Definition fetchContentManifest_on_body (b : Settle Json) (now : Z) (w : World)
  : World * CallState (option Json) :=
  match b with
  | Failed t => (w, Settled (Rejected (catch_clause manifest_what t)))
  | Fulfilled manifest =>
      let entry := {| data := Some manifest; content := None;
                      headings := None; timestamp := Some now |} in
      match setItem MANIFEST_CACHE_KEY (JsonText entry) (storage w) with
      | Throw t => (w, Settled (Rejected (catch_clause manifest_what t)))
      | Ok s => (store MANIFEST_CACHE_KEY s w, Settled (Resolved (Some manifest)))
      end
  end.

(** *** [fetchLessonContent] *)

Definition dquote : string := String (ascii_of_nat 34) EmptyString.

Definition lesson_what (lesson : Lesson) : string :=
  "Failed to load lesson " ++ dquote ++ title lesson ++ dquote.

Definition cacheKey (lesson : Lesson) : string := LESSON_CACHE_PREFIX ++ slug lesson.

Definition fetchLessonContent_start (lesson : Lesson) (signal : option Thrown)
           (now : Z) (w : World) : World * CallState LessonContent :=
  match getItem (cacheKey lesson) (storage w) with
  | Throw t => (w, Settled (Rejected (catch_clause (lesson_what lesson) t)))
  | Ok cached =>
      match read_cache now cached with
      | CacheThrows t => (w, Settled (Rejected (catch_clause (lesson_what lesson) t)))
      | CacheHit parsedCache =>
          (w, Settled (Resolved {| markdown := content parsedCache;
                                   lesson_headings := headings parsedCache |}))
      | CacheMiss =>
          match signal with
          | Some reason =>
              (w, Settled (Rejected (catch_clause (lesson_what lesson) reason)))
          | None => (log_request (mdPath lesson) w, Suspended AwaitFetch)
          end
      end
  end.

Definition fetchLessonContent_on_fetch (lesson : Lesson) (r : Settle Response) (w : World)
  : World * CallState LessonContent :=
  match r with
  | Failed t => (w, Settled (Rejected (catch_clause (lesson_what lesson) t)))
  | Fulfilled response =>
      if ok response then (w, Suspended AwaitBody)
      else
        let e := {| name := "Error";
                    message := "Failed to fetch lesson content: "
                                 ++ pretty (status response) ++ " "
                                 ++ statusText response |} in
        (w, Settled (Rejected (catch_clause (lesson_what lesson) (ThrownError e))))
  end.

(** The read-out of the heading store cannot fail
    ([TocFacts.extractHeadings_total] below); a failure would be an exception
    of [extractHeadings] and is routed to the [catch] clause. *)
Definition fetchLessonContent_on_body (lesson : Lesson) (b : Settle string) (now : Z)
           (w : World) : World * CallState LessonContent :=
  match b with
  | Failed t => (w, Settled (Rejected (catch_clause (lesson_what lesson) t)))
  | Fulfilled md =>
      match Toc.extractHeadings md with
      | None =>
          let e := {| name := "RangeError"; message := "extractHeadings" |} in
          (w, Settled (Rejected (catch_clause (lesson_what lesson) (ThrownError e))))
      | Some hs =>
          let cacheEntry := {| data := None; content := Some md;
                               headings := Some hs; timestamp := Some now |} in
          match setItem (cacheKey lesson) (JsonText cacheEntry) (storage w) with
          | Throw t => (w, Settled (Rejected (catch_clause (lesson_what lesson) t)))
          | Ok s =>
              (store (cacheKey lesson) s w,
               Settled (Resolved {| markdown := Some md; lesson_headings := Some hs |}))
          end
      end
  end.

(** *** A call run to its end

    The network answers a call with the settling of [fetch] and, when it is
    read, of the body; [t0] is [Date.now()] at the cache check and [t1] at
    the cache write. *)
Record Network (A : Type) := mkNetwork {
  fetch_settles : Settle Response;
  body_settles : Settle A
}.
Arguments fetch_settles {A} n.
Arguments body_settles {A} n.

Definition fetchContentManifest (net : Network Json) (t0 t1 : Z) (w : World)
  : World * CallState (option Json) :=
  match fetchContentManifest_start None t0 w with
  | (w1, Suspended _) =>
      match fetchContentManifest_on_fetch (fetch_settles net) w1 with
      | (w2, Suspended _) => fetchContentManifest_on_body (body_settles net) t1 w2
      | done => done
      end
  | done => done
  end.

Definition fetchLessonContent (lesson : Lesson) (net : Network string) (t0 t1 : Z)
           (w : World) : World * CallState LessonContent :=
  match fetchLessonContent_start lesson None t0 w with
  | (w1, Suspended _) =>
      match fetchLessonContent_on_fetch lesson (fetch_settles net) w1 with
      | (w2, Suspended _) => fetchLessonContent_on_body lesson (body_settles net) t1 w2
      | done => done
      end
  | done => done
  end.

(** The world with one stored item removed. *)
Definition without_item (key : string) (w : World) : World :=
  {| storage := {| items := delete key (items (storage w));
                   getItem_error := getItem_error (storage w);
                   setItem_error := setItem_error (storage w) |};
     requests := requests w;
     writes := writes w |}.

End Loader.

(** ** The shape of a manifest payload, in the words of the specification *)

Module ManifestShape.
Import Content.

(** The shape that the specification requires of the payload: a [course]
    object with the string fields [title], [tagline], [description] and
    [coverImage], and [lessons], a sequence whose entries each have a [slug]
    and an [order], no slug and no order occurring twice. *)
Definition is_string (v : option Json) : bool :=
  match v with
  | Some (JString _) => true
  | _ => false
  end.

Definition course_ok (payload : Json) : bool :=
  match property "course" payload with
  | Some (JObject c) =>
      is_string (assoc "title" c) && is_string (assoc "tagline" c)
      && is_string (assoc "description" c) && is_string (assoc "coverImage" c)
  | _ => false
  end.

Definition slug_of (entry : Json) : option string :=
  match property "slug" entry with
  | Some (JString s) => Some s
  | _ => None
  end.

Definition order_of (entry : Json) : option Z :=
  match property "order" entry with
  | Some (JNumber z) => Some z
  | _ => None
  end.

Definition lessons_ok (payload : Json) : bool :=
  match property "lessons" payload with
  | Some (JArray entries) =>
      match mapM slug_of entries, mapM order_of entries with
      | Some slugs, Some orders =>
          bool_decide (NoDup slugs) && bool_decide (NoDup orders)
      | _, _ => false
      end
  | _ => false
  end.

Definition valid_shape (payload : Json) : bool := course_ok payload && lessons_ok payload.

End ManifestShape.

(** ** The effect of the [Lesson] route that calls the lesson loader *)

Module LessonRoute.
Import Content Loader.

Record RouteState := mkRoute {
  lessonContent : option LessonContent;
  contentLoading : bool;
  contentError : option string
}.

(** [loadContent] up to its [await]:
    [setContentLoading(true); setContentError(null)]. *)
Definition loadContent_begin (ui : RouteState) : RouteState :=
  {| lessonContent := lessonContent ui; contentLoading := true; contentError := None |}.

(** [loadContent] after its [await]: [setLessonContent(content)] on a
    result; in the [catch] clause
    [if (err instanceof Error && err.name !== 'AbortError')
       setContentError(err.message || 'Failed to load lesson content')];
    [finally] [setContentLoading(false)]. *)
Definition loadContent_settled (o : Outcome LessonContent) (ui : RouteState) : RouteState :=
  match o with
  | Resolved c =>
      {| lessonContent := Some c; contentLoading := false; contentError := contentError ui |}
  | Rejected (ThrownError e) =>
      if String.eqb (name e) "AbortError"
      then {| lessonContent := lessonContent ui; contentLoading := false;
              contentError := contentError ui |}
      else {| lessonContent := lessonContent ui; contentLoading := false;
              contentError :=
                Some (match message e with
                      | EmptyString => "Failed to load lesson content"
                      | m => m
                      end) |}
  | Rejected (ThrownValue _) =>
      {| lessonContent := lessonContent ui; contentLoading := false;
         contentError := contentError ui |}
  end.

(** One call of [fetchLessonContent] made by [loadContent], each with the
    signal of a controller of its own.  [cache_writes] counts the [setItem]
    calls of this call that returned. *)
Record Call := mkCall {
  call_lesson : Lesson;
  call_state : CallState LessonContent;
  cache_writes : nat
}.

Record System := mkSystem {
  world : World;
  calls : list Call;
  ui : RouteState
}.

(** What happens on the event loop: [loadContent()] is called; the [fetch]
    of call [i] settles; the body read of call [i] settles; the controller
    of call [i] is aborted with a reason. *)
Inductive Event :=
| CallLoader (lesson : Lesson) (now : Z)
| FetchSettles (i : nat) (r : Settle Response)
| BodySettles (i : nat) (b : Settle string) (now : Z)
| Abort (i : nat) (reason : Thrown).

Definition notify (st : CallState LessonContent) (ui : RouteState) : RouteState :=
  match st with
  | Settled o => loadContent_settled o ui
  | Suspended _ => ui
  end.

(** Call [i] moves from [c] to the state [st] in the world [w]. *)
Definition resume (sys : System) (i : nat) (c : Call)
           (r : World * CallState LessonContent) : System :=
  let '(w, st) := r in
  {| world := w;
     calls := <[i := {| call_lesson := call_lesson c; call_state := st;
                        cache_writes := cache_writes c
                          + (length (writes w) - length (writes (world sys))) |}]>
                (calls sys);
     ui := notify st (ui sys) |}.

Definition step (sys : System) (e : Event) : System :=
  match e with
  | CallLoader lesson now =>
      let '(w, st) :=
        fetchLessonContent_start lesson None now (world sys) in
      {| world := w;
         calls := calls sys ++ [{| call_lesson := lesson; call_state := st;
                                   cache_writes := 0 |}];
         ui := notify st (loadContent_begin (ui sys)) |}
  | FetchSettles i r =>
      match calls sys !! i with
      | Some c =>
          match call_state c with
          | Suspended AwaitFetch =>
              resume sys i c (fetchLessonContent_on_fetch (call_lesson c) r (world sys))
          | _ => sys
          end
      | None => sys
      end
  | BodySettles i b now =>
      match calls sys !! i with
      | Some c =>
          match call_state c with
          | Suspended AwaitBody =>
              resume sys i c (fetchLessonContent_on_body (call_lesson c) b now (world sys))
          | _ => sys
          end
      | None => sys
      end
  | Abort i reason =>
      match calls sys !! i with
      | Some c =>
          match call_state c with
          | Suspended AwaitFetch =>
              resume sys i c
                (fetchLessonContent_on_fetch (call_lesson c) (Failed reason) (world sys))
          | Suspended AwaitBody =>
              resume sys i c
                (fetchLessonContent_on_body (call_lesson c) (Failed reason) 0 (world sys))
          | Settled _ => sys
          end
      | None => sys
      end
  end.

Definition run (sys : System) (es : list Event) : System := foldl step sys es.

Definition init (w : World) : System :=
  {| world := w; calls := [];
     ui := {| lessonContent := None; contentLoading := false; contentError := None |} |}.

(** The effect runs again for a new [lesson] object: the cleanup of the
    previous run, [controller.abort()], comes first, then [loadContent()]. *)
Definition rerun_effect (sys : System) (lesson : Lesson) (now : Z) : System :=
  step (step sys (Abort (length (calls sys) - 1) abort_reason)) (CallLoader lesson now).

Definition is_resolved (c : Call) : bool :=
  match call_state c with
  | Settled (Resolved _) => true
  | _ => false
  end.

Definition resolved_count (sys : System) : nat :=
  length (filter (fun c => Is_true (is_resolved c)) (calls sys)).

(** A call that has not settled has written nothing. *)
Definition pending_unwritten (sys : System) : Prop :=
  forall i c p, calls sys !! i = Some c -> call_state c = Suspended p -> cache_writes c = 0.

End LessonRoute.

(** ** The stages of [MarkdownRenderer] that decide on raw HTML *)

Module Render.
Import JsString.

(** The part of the Markdown tree and of the HTML tree that raw HTML goes
    through: remark-parse gives an [html] node for HTML written in the
    Markdown source, remark-rehype turns it into a [raw] node when
    [allowDangerousHtml] is set and drops it otherwise, rehype-stringify
    writes a [raw] node as it is when [allowDangerousHtml] is set and
    escapes it as text otherwise.  rehype-slug, rehype-autolink-headings
    and rehype-pretty-code change heading and code elements only and leave
    these nodes alone. *)
Inductive Mdast :=
| MdText (value : string)
| MdHtml (value : string)
| MdParagraph (children : list Mdast).

Inductive Hast :=
| HText (value : string)
| HRaw (value : string)
| HElement (tagName : string) (children : list Hast).

Record Options := mkOptions { allowDangerousHtml : bool }.

(** The options in the source:
    [.use(remarkRehype, { allowDangerousHtml: true })] and
    [.use(rehypeStringify, { allowDangerousHtml: true })]. *)
Definition remarkRehype_options : Options := {| allowDangerousHtml := true |}.
Definition rehypeStringify_options : Options := {| allowDangerousHtml := true |}.

Fixpoint remarkRehype (o : Options) (n : Mdast) : list Hast :=
  match n with
  | MdText v => [HText v]
  | MdHtml v => if allowDangerousHtml o then [HRaw v] else []
  | MdParagraph cs => [HElement "p" (concat (map (remarkRehype o) cs))]
  end.

Definition escape_char (c : ascii) : list ascii :=
  if (code c =? 38)%N then chars "&amp;"
  else if (code c =? 60)%N then chars "&lt;"
  else [c].

Definition escape (v : string) : string := str (concat (map escape_char (chars v))).

Fixpoint rehypeStringify (o : Options) (n : Hast) : string :=
  match n with
  | HText v => escape v
  | HRaw v => if allowDangerousHtml o then v else escape v
  | HElement tag cs =>
      ("<" ++ tag ++ ">"
        ++ foldr (fun c acc => rehypeStringify o c ++ acc) EmptyString cs
        ++ "</" ++ tag ++ ">")%string
  end.

(** [String(file)] for a parsed document. *)
Definition processed_html (doc : list Mdast) : string :=
  foldr (fun n acc => (rehypeStringify rehypeStringify_options n ++ acc)%string) EmptyString
        (concat (map (remarkRehype remarkRehype_options) doc)).

(** The same document when rehype-stringify is not given the option: a
    [raw] node is then written as escaped text. *)
Definition escaped_html (doc : list Mdast) : string :=
  foldr (fun n acc => (rehypeStringify {| allowDangerousHtml := false |} n ++ acc)%string)
        EmptyString
        (concat (map (remarkRehype remarkRehype_options) doc)).

End Render.

(** ** Values used in the examples *)

Module Examples.
Import Content Loader.

Definition nl : string := String (ascii_of_nat 10) EmptyString.

Definition flat (d : nat) (t : string) : Toc.TOCHeading :=
  {| Toc.id := Slug.generateHeadingId t; Toc.depth := d; Toc.text := t;
     Toc.children := None |}.

Definition fenced_source : string :=
  "```" ++ nl ++ "## not a heading" ++ nl ++ "```".

Definition script_source : string := "<script>alert(1)</script>".

Definition intro : Lesson :=
  mkLesson 1 "intro" "Intro" "First lesson" "/content/lessons/intro.md" None None None.
Definition intro_again : Lesson :=
  mkLesson 1 "intro" "Intro again" "Same slug and order" "/content/lessons/intro-2.md"
           None None None.
Definition types : Lesson :=
  mkLesson 2 "types" "Data Types" "Second lesson" "/content/lessons/types.md"
           None None None.
Definition indexes : Lesson :=
  mkLesson 3 "indexes" "Indexing" "Third lesson" "/content/lessons/indexes.md"
           None None None.

Definition course0 : Course := mkCourse "PeeGees" "PostgreSQL" "A course" "/cover.png".
Definition manifest3 : ContentManifest := mkManifest course0 [intro; types; indexes].
Definition duplicate_manifest : ContentManifest := mkManifest course0 [intro; intro_again].

Definition empty_world : World := mkWorld (Storage.mkStorage ∅ None None) [] [].

Definition security_error : Error := mkError "SecurityError" "The operation is insecure.".
Definition quota_error : Error := mkError "QuotaExceededError" "The quota has been exceeded.".
Definition unreadable_world : World :=
  mkWorld (Storage.mkStorage ∅ (Some security_error) (Some security_error)) [] [].
Definition unwritable_world : World :=
  mkWorld (Storage.mkStorage ∅ None (Some quota_error)) [] [].

Definition ok_response : Response := mkResponse true 200 "OK".
Definition manifest_network (payload : Json) : Network Json :=
  mkNetwork _ (Fulfilled ok_response) (Fulfilled payload).

(** Three payloads: a manifest of the required shape, one whose two lessons
    share their slug and their order, and the empty object. *)
Definition manifest3_payload : Json := manifest_json manifest3.
Definition duplicate_payload : Json := manifest_json duplicate_manifest.
Definition empty_payload : Json := JObject [].
Definition lesson_network (md : string) : Network string :=
  mkNetwork _ (Fulfilled ok_response) (Fulfilled md).

(** A lesson entry written at time [ts]. *)
Definition lesson_entry (md : string) (ts : Z) : Storage.CacheObject :=
  Storage.mkCacheObject None (Some md) (Some []) (Some ts).
Definition cached_world (ts : Z) : World :=
  mkWorld (Storage.mkStorage
             {[ Loader.cacheKey intro := Storage.JsonText (lesson_entry "cached text" ts) ]}
             None None) [] [].

Definition abcde : list Toc.TOCHeading :=
  [flat 2 "A"; flat 3 "B"; flat 3 "C"; flat 2 "D"; flat 4 "E"].

(** [fetchLessonContent] is called twice for the same lesson before the
    first call has settled, no controller is aborted, and the network
    answers both requests. *)
Definition two_calls : list LessonRoute.Event :=
  [LessonRoute.CallLoader intro 1000; LessonRoute.CallLoader intro 1001].
Definition two_answers : list LessonRoute.Event :=
  [LessonRoute.FetchSettles 0 (Fulfilled ok_response);
   LessonRoute.FetchSettles 1 (Fulfilled ok_response);
   LessonRoute.BodySettles 0 (Fulfilled "## A") 1002;
   LessonRoute.BodySettles 1 (Fulfilled "## A") 1003].

End Examples.

(** ** The shape of a heading id *)

Module SlugShape.
Import JsString Slug.

(** The code units of an id: [a-z0-9-]. *)
Definition id_char (c : ascii) : bool := is_lower_az c || is_digit c || is_hyphen c.

(** [s] does not start with a code unit of the class [p]. *)
Definition starts_outside (p : ascii -> bool) (s : list ascii) : Prop :=
  match s with
  | c :: _ => p c = false
  | [] => True
  end.

(** Trimming a class from both ends, as [trim] and [trim_hyphens] do. *)
Definition strip_class (p : ascii -> bool) (s : list ascii) : list ascii :=
  rev (drop_while p (rev (drop_while p s))).

(** The lowercase letters and the digits. *)
Definition core (c : ascii) : bool := is_lower_az c || is_digit c.

(** The letters and digits of [s], in order. *)
Definition cores (s : list ascii) : list ascii := filter (fun c => Is_true (core c)) s.

(** A property of one code unit, checked on each of the 256. *)
Ltac by_cases_on c :=
  destruct c as [[] [] [] [] [] [] [] []]; try reflexivity; try discriminate.

End SlugShape.


(** ** The shape of a table of contents *)

Module TocShape.
Import Toc.

(** The heading object of a node, without its children. *)
Definition heading_of (n : HeadingNode) : TOCHeading :=
  match n with Node i d t _ => mkHeading i d t None end.

Definition node_depth (n : HeadingNode) : nat :=
  match n with Node _ d _ _ => d end.

(** The headings of a tree in document order: a node, then its children
    from first to last, which is the order in which [TOC] renders them. *)
Fixpoint flatten_node (n : HeadingNode) : list TOCHeading :=
  match n with
  | Node i d t cs => mkHeading i d t None :: mjoin (flatten_node <$> cs)
  end.

Definition flatten (forest : list HeadingNode) : list TOCHeading :=
  mjoin (flatten_node <$> forest).

(** Every child is strictly deeper than its parent. *)
Inductive Nested : HeadingNode -> Prop :=
| nested_node i d t cs :
    Forall (fun c => d < node_depth c) cs ->
    Forall Nested cs ->
    Nested (Node i d t cs).

(** The headings that are not deeper than any heading before them; [seen]
    holds the depths of the headings before [hs]. *)
Fixpoint not_deeper_than_earlier (seen : list nat) (hs : list TOCHeading)
  : list TOCHeading :=
  match hs with
  | [] => []
  | h :: hs' =>
      if forallb (fun d => depth h <=? d) seen
      then h :: not_deeper_than_earlier (depth h :: seen) hs'
      else not_deeper_than_earlier (depth h :: seen) hs'
  end.

(** The depth of the node at a position of a forest. *)
Fixpoint depth_at (p : list nat) (forest : list HeadingNode) : option nat :=
  match p with
  | [] => None
  | k :: p' =>
      match forest !! k with
      | None => None
      | Some (Node _ d _ cs) =>
          match p' with
          | [] => Some d
          | _ => depth_at p' cs
          end
      end
  end.

(** The position [p] runs along the last child at every level. *)
Fixpoint rightmost (p : list nat) (forest : list HeadingNode) : Prop :=
  match p with
  | [] => True
  | k :: p' =>
      exists init i d t cs,
        forest = init ++ [Node i d t cs] /\ k = length init /\ rightmost p' cs
  end.

(** The positions of a stack of ancestors: each runs along the last
    children, and each entry lies on the way to the entries above it. *)
Fixpoint spine (forest : list HeadingNode) (stk : list (nat * list nat)) : Prop :=
  match stk with
  | [] => True
  | e :: below =>
      rightmost (snd e) forest /\ snd e <> []
      /\ Forall (fun b => snd b `prefix_of` snd e) below
      /\ spine forest below
  end.

(** A heading without its [children] property. *)
Definition strip_children (h : TOCHeading) : TOCHeading := mkHeading (id h) (depth h) (text h) None.

(** Each entry of the stack records the depth of the node at its position. *)
Definition depths_ok (forest : list HeadingNode) (stk : list (nat * list nat)) : Prop :=
  Forall (fun e => depth_at (snd e) forest = Some (fst e)) stk.

(** The depths on the stack have been seen, and the bottom of the stack is
    not deeper than any heading seen. *)
Definition roots_inv (seen : list nat) (stk : list (nat * list nat)) : Prop :=
  Forall (fun e => fst e ∈ seen /\ snd e <> []) stk
  /\ (seen <> [] -> exists b, last stk = Some b /\ Forall (fun d => fst b <= d) seen).

End TocShape.

(** ** The matches of the regular expression of [extractHeadings] *)

Module Lines.
Import JsString HeadingScan.

(** The class of [.]. *)
Definition not_terminator (c : ascii) : bool := negb (is_line_terminator c).

(** A match of the regular expression of [extractHeadings]. *)
Definition well_matched (m : nat * list ascii) : Prop :=
  2 <= fst m <= 4 /\ snd m <> []
  /\ Forall (fun c => is_line_terminator c = false) (snd m).

End Lines.

(** ** The lesson catalogue: [findLessonBySlug], [searchLessons],
    [filterLessonsByTags] and [getAllTags] *)

Module Catalog.
Import Content JsString.

(** [manifest.lessons.find(lesson => lesson.slug === slug)] *)
Definition findLessonBySlug (manifest : ContentManifest) (slug0 : string) : option Lesson :=
  List.find (fun lesson => String.eqb (slug lesson) slug0) (lessons manifest).

(** [s.startsWith(t)] at position 0. *)
Fixpoint startsWith (s t : list ascii) {struct t} : bool :=
  match t, s with
  | [], _ => true
  | _ :: _, [] => false
  | c :: t', d :: s' => Ascii.eqb d c && startsWith s' t'
  end.

(** [s.includes(t)]: [t] occurs in [s] at some position. *)
Fixpoint includes (s t : list ascii) : bool :=
  startsWith s t
  || match s with
     | [] => false
     | _ :: s' => includes s' t
     end.

Definition lower (s : string) : list ascii := toLowerCase (chars s).

(** The callback of [filter] in [searchLessons]; [lesson.tags?.some(...)]
    is [undefined], which is falsy, for a lesson without tags. *)
Definition matches_search (searchTerm : list ascii) (lesson : Lesson) : bool :=
  includes (lower (title lesson)) searchTerm
  || includes (lower (description lesson)) searchTerm
  || match tags lesson with
     | Some ts => existsb (fun tag => includes (lower tag) searchTerm) ts
     | None => false
     end.

Definition searchLessons (lessons : list Lesson) (query : string) : list Lesson :=
  match trim (chars query) with
  | [] => lessons
  | _ =>
      let searchTerm := lower query in
      filter (fun lesson => Is_true (matches_search searchTerm lesson)) lessons
  end.

(** [selectedTags.includes(tag)] *)
Definition array_includes (l : list string) (x : string) : bool :=
  existsb (String.eqb x) l.

Definition has_selected_tag (selectedTags : list string) (lesson : Lesson) : bool :=
  match tags lesson with
  | Some ts => existsb (array_includes selectedTags) ts
  | None => false
  end.

Definition filterLessonsByTags (lessons : list Lesson) (selectedTags : list string)
  : list Lesson :=
  match selectedTags with
  | [] => lessons
  | _ => filter (fun lesson => Is_true (has_selected_tag selectedTags lesson)) lessons
  end.

(** A [Set] of strings keeps its elements in insertion order; [add] does
    nothing for an element that is present. *)
Definition set_add (s : list string) (x : string) : list string :=
  if array_includes s x then s else s ++ [x].

(** [lesson.tags?.forEach(tag => tags.add(tag))] *)
Definition collect_step (acc : list string) (lesson : Lesson) : list string :=
  match tags lesson with
  | Some ts => foldl set_add acc ts
  | None => acc
  end.

(** [lessons.forEach(lesson => ...)] on the empty set. *)
Definition collect_tags (lessons : list Lesson) : list string :=
  foldl collect_step [] lessons.

(** The order of [Array.prototype.sort] without a comparator: strings are
    compared code unit by code unit, a proper prefix coming first. *)
Definition code_unit_le (a b : string) : Prop := Is_true (String.leb a b).

#[export] Instance code_unit_le_dec : RelDecision code_unit_le.
Proof. intros a b. unfold code_unit_le. apply _. Defined.

(** [Array.from(tags).sort()].  The elements are distinct strings and the
    order is total, so the sorted array is the same whichever algorithm the
    engine uses. *)
Definition getAllTags (lessons : list Lesson) : list string :=
  merge_sort code_unit_le (collect_tags lessons).

Definition code_unit_lt (a b : string) : Prop := code_unit_le a b /\ a <> b.

(** The tags that the lessons carry. *)
Definition carries (lessons : list Lesson) (tag : string) : Prop :=
  exists lesson ts, lesson ∈ lessons /\ tags lesson = Some ts /\ tag ∈ ts.

(** A query that [trim] leaves empty. *)
Definition blank (query : string) : Prop := trim (chars query) = [].

(** A lesson with at least one tag. *)
Definition tagged (lesson : Lesson) : bool :=
  match tags lesson with
  | Some (_ :: _) => true
  | _ => false
  end.

End Catalog.

(** ** Clearing the cache: [clearContentCache] *)

Module CacheControl.
Import Content Storage Loader.

(** [key === MANIFEST_CACHE_KEY || key.startsWith(LESSON_CACHE_PREFIX)] *)
Definition is_cache_key (key : string) : bool :=
  String.eqb key MANIFEST_CACHE_KEY || String.prefix LESSON_CACHE_PREFIX key.

Definition removeItem (key : string) (s : SessionStorage) : SessionStorage :=
  {| items := delete key (items s);
     getItem_error := getItem_error s;
     setItem_error := setItem_error s |}.

(** [Object.keys(sessionStorage)] *)
Definition keys (s : SessionStorage) : list string := (map_to_list (items s)).*1.

Definition clear_key (s : SessionStorage) (key : string) : SessionStorage :=
  if is_cache_key key then removeItem key s else s.

(** [clearContentCache] has no [try]: when the browser denies access to the
    storage, reading its keys throws as [getItem] does. *)
Definition clearContentCache (s : SessionStorage) : Result SessionStorage :=
  match getItem_error s with
  | Some e => Throw (ThrownError e)
  | None => Ok (foldl clear_key s (keys s))
  end.

Definition with_storage (s : SessionStorage) (w : World) : World :=
  {| storage := s; requests := requests w; writes := writes w |}.

(** What a loader rejects with: the [AbortError] it was aborted with, or an
    [Error] whose message starts with the loader's own text. *)
Definition loader_error (what : string) (t : Thrown) : Prop :=
  exists e,
    t = ThrownError e
    /\ (name e = "AbortError"
        \/ (name e = "Error" /\ String.prefix (what ++ ": ") (message e) = true)).

End CacheControl.

(** ** Accounting of the cache writes of the lesson route *)

Module RouteAccount.
Import Content Loader LessonRoute.

(** A call that resolved has written the cache at most once; a call that is
    pending or was rejected has written nothing. *)
Definition accounted (c : Call) : Prop :=
  match call_state c with
  | Settled (Resolved _) => cache_writes c <= 1
  | _ => cache_writes c = 0
  end.

Definition total_writes (sys : System) : nat := sum_list (cache_writes <$> calls sys).

(** The world grows by at most one write, and the state it comes with
    accounts for it. *)
Definition one_write (w : World) (r : World * CallState LessonContent) : Prop :=
  (writes (fst r) = writes w
   /\ match snd r with
      | Settled (Resolved _) => False
      | _ => True
      end)
  \/ (exists key, writes (fst r) = writes w ++ [key]
      /\ exists v, snd r = Settled (Resolved v)).

End RouteAccount.

(** ** The messages of the lesson route and the manifest provider *)

Module Shown.
Import Content Loader LessonRoute.

(** The error that the lesson page shows, if any, is the error of one of
    the calls: it starts with the text of the loader for that lesson. *)
Definition error_of_a_call (sys : System) : Prop :=
  match contentError (ui sys) with
  | None => True
  | Some msg =>
      exists i c,
        calls sys !! i = Some c
        /\ String.prefix (lesson_what (call_lesson c) ++ ": ") msg = true
  end.

End Shown.

(** ** The manifest provider: [ContentProvider] *)

Module ContentProvider.
Import Content Loader.

(** The state of the provider; [manifest] is [None] while it is [null]. *)
Record ProviderState := mkProvider {
  manifest : option (option Json);
  loading : bool;
  error : option string
}.

Definition initial : ProviderState :=
  {| manifest := None; loading := true; error := None |}.

(** [loadContent] and [refetch] up to their [await]:
    [setLoading(true); setError(null)]. *)
Definition load_begin (st : ProviderState) : ProviderState :=
  {| manifest := manifest st; loading := true; error := None |}.

(** After the [await]: [setManifest(manifestData)] on a result; in the
    [catch] clause
    [if (err instanceof Error && err.name !== 'AbortError')
       setError(err.message || 'Failed to load content')];
    [finally] [setLoading(false)]. *)
Definition load_settled (o : Outcome (option Json)) (st : ProviderState) : ProviderState :=
  match o with
  | Resolved m => {| manifest := Some m; loading := false; error := error st |}
  | Rejected (ThrownError e) =>
      if String.eqb (name e) "AbortError"
      then {| manifest := manifest st; loading := false; error := error st |}
      else {| manifest := manifest st; loading := false;
              error := Some (match message e with
                             | EmptyString => "Failed to load content"
                             | m => m
                             end) |}
  | Rejected (ThrownValue _) =>
      {| manifest := manifest st; loading := false; error := error st |}
  end.

(** [loadContent] or [refetch] run to its end against a network. *)
Definition load (net : Network Json) (t0 t1 : Z) (w : World) (st : ProviderState)
  : World * ProviderState :=
  match fetchContentManifest net t0 t1 w with
  | (w1, Settled o) => (w1, load_settled o (load_begin st))
  | (w1, Suspended _) => (w1, load_begin st)
  end.

End ContentProvider.

(** ** The regular expression of [extractHeadings] on UTF-16 code units

    The expression [/^(#{2,4})\s+(.+)$/gm] has no [u] flag: it reads the
    text code unit by code unit.  Here a code unit is a number, so that the
    classes [\s] and [.] and the assertions [^] and [$] are written out on
    the whole range, beyond the code units below 256 of [HeadingScan]. *)

Module Utf16Scan.

(** [#] *)
Definition is_hash (c : N) : bool := (c =? 35)%N.

(** Line terminators: LF, CR, LINE SEPARATOR and PARAGRAPH SEPARATOR.  They
    are what [.] refuses and what [^] and [$] look at under the [m] flag. *)
Definition is_line_terminator (c : N) : bool :=
  (c =? 10)%N || (c =? 13)%N || (c =? 8232)%N || (c =? 8233)%N.

(** [\s]: TAB, LF, VT, FF, CR, SPACE, NBSP, U+1680, U+2000..U+200A, U+2028,
    U+2029, U+202F, U+205F, U+3000 and U+FEFF. *)
Definition is_space (c : N) : bool :=
  ((9 <=? c) && (c <=? 13))%N || (c =? 32)%N || (c =? 160)%N || (c =? 5760)%N
  || ((8192 <=? c) && (c <=? 8202))%N || (c =? 8232)%N || (c =? 8233)%N
  || (c =? 8239)%N || (c =? 8287)%N || (c =? 12288)%N || (c =? 65279)%N.

Fixpoint take_while (p : N -> bool) (s : list N) : list N :=
  match s with
  | [] => []
  | c :: s' => if p c then c :: take_while p s' else []
  end.

(** The class of [.]. *)
Definition not_terminator (c : N) : bool := negb (is_line_terminator c).

(** [(.+)$] at the current position: the longest run of code units that are
    not line terminators; it must not be empty.  The position after it is
    the end of the input or a line terminator, where [$] holds. *)
Definition match_text (s : list N) : option (list N) :=
  match take_while not_terminator s with
  | [] => None
  | t => Some t
  end.

(** [\s+(.+)$]: the greedy [\s+] first holds the whole run of white space
    and gives code units back one at a time; [k] is the number it holds. *)
Fixpoint match_spaces_text (k : nat) (s : list N) : option (nat * list N) :=
  match k with
  | 0 => None
  | S k' =>
      match match_text (drop k s) with
      | Some t => Some (k, t)
      | None => match_spaces_text k' s
      end
  end.

(** [(#{2,4})\s+(.+)$]: the greedy [#{2,4}] first holds [n] hashes, at most
    four, and backtracks down to two. *)
Fixpoint match_hashes (n : nat) (s : list N) : option (nat * nat * list N) :=
  match n with
  | 0 => None
  | 1 => None
  | S n' =>
      let rest := drop n s in
      match match_spaces_text (length (take_while is_space rest)) rest with
      | Some (k, t) => Some (n, k, t)
      | None => match_hashes n' s
      end
  end.

Definition match_heading (s : list N) : option (nat * nat * list N) :=
  match_hashes (Nat.min 4 (length (take_while is_hash s))) s.

(** The loop [while ((match = headingRegex.exec(markdown)) !== null)]:
    [s] is the input from the current index on, [skip] the number of code
    units up to [lastIndex] and [line_start] tells whether [^] holds at the
    current index.  Each match gives [(match[1].length, match[2])]. *)
Fixpoint exec_all (skip : nat) (line_start : bool) (s : list N)
  : list (nat * list N) :=
  match s with
  | [] => []
  | c :: s' =>
      match skip with
      | S k => exec_all k (is_line_terminator c) s'
      | 0 =>
          if line_start then
            match match_heading s with
            | Some (level, k, t) =>
                (level, t)
                  :: exec_all (level + k + length t - 1) (is_line_terminator c) s'
            | None => exec_all 0 (is_line_terminator c) s'
            end
          else exec_all 0 (is_line_terminator c) s'
      end
  end.

(** *** Texts made of lines *)

Definition LF : N := 10%N.

(** The lines joined by LF. *)
Fixpoint join_lines (lines : list (list N)) : list N :=
  match lines with
  | [] => []
  | [l] => l
  | l :: ls => l ++ LF :: join_lines ls
  end.

Definition no_terminator (line : list N) : Prop :=
  Forall (fun c => is_line_terminator c = false) line.

(** A heading line read on its own: [h] hashes at the start, two to four
    of them, then [k] code units of white space, at least one, then the
    text. *)
Definition line_heading (line : list N) : option (nat * list N) :=
  let h := length (take_while is_hash line) in
  let rest := drop h line in
  let k := length (take_while is_space rest) in
  if (2 <=? h) && (h <=? 4) && (1 <=? k) then Some (h, drop k rest) else None.

(** A line of two to four hashes with nothing but white space after them. *)
Definition hashes_only (line : list N) : bool :=
  let h := length (take_while is_hash line) in
  let rest := drop h line in
  let k := length (take_while is_space rest) in
  (2 <=? h) && (h <=? 4)
  && match drop k rest with [] => true | _ => false end.

(** The end of the input or a line terminator comes next. *)
Definition ends_line (suf : list N) : Prop :=
  match suf with
  | c :: _ => is_line_terminator c = true
  | [] => True
  end.

(** What the loop finds after the end of a line. *)
Definition exec_rest (suf : list N) : list (nat * list N) :=
  match suf with
  | [] => []
  | _ :: tail => exec_all 0 true tail
  end.

(** The code units of a text of [JsString], and a match of [HeadingScan]
    read as code units. *)
Definition units (s : list ascii) : list N := JsString.code <$> s.

Definition units_of_match (m : nat * list ascii) : nat * list N := (m.1, units m.2).

End Utf16Scan.

(** ** More values used in the examples *)

Module Samples.
Import Content Storage Loader LessonRoute Examples.

Definition tagged_lessons : list Lesson :=
  [mkLesson 1 "intro" "Intro" "First lesson" "/content/lessons/intro.md"
            None None (Some ["sql"; "basics"]);
   mkLesson 2 "types" "Data Types" "Second lesson" "/content/lessons/types.md"
            None None (Some ["types"; "sql"]);
   mkLesson 3 "indexes" "Indexing" "Third lesson" "/content/lessons/indexes.md"
            None None None].

(** A text with a fenced line, a heading with trailing white space, a line
    without white space after its hashes, an empty line and a heading with
    an ideographic space U+3000 after its hashes and an em dash U+2014 in
    its text. *)
Definition sample_lines : list (list N) :=
  (Utf16Scan.units ∘ JsString.chars
     <$> ["```"; "## not a heading"; "```"; "#### Deep  "; "##x"; EmptyString])
  ++ [[35; 35; 35; 12288; 65; 8212; 66]%N].

(** The entry of the lesson [intro] holds a string that is not JSON. *)
Definition unparsable_world : World :=
  mkWorld (mkStorage {[ cacheKey intro := OtherText "{oops" ]} None None) [] [].

(** The lesson route after its effect has run once on an empty cache. *)
Definition pending_system : System := step (init empty_world) (CallLoader intro 1000).

Definition pending_call : Call :=
  {| call_lesson := intro; call_state := Suspended AwaitFetch; cache_writes := 0 |}.

(** The route once the lesson [intro] has been fetched and is shown. *)
Definition shown_system : System :=
  run (init empty_world)
      [CallLoader intro 1000; FetchSettles 0 (Fulfilled ok_response);
       BodySettles 0 (Fulfilled "## A") 1001].

Definition not_found : Response := mkResponse false 404 "Not Found".

Definition network_error : Error := mkError "TypeError" "Failed to fetch".

End Samples.

(** * Facts about heading ids *)

Module SlugFacts.
Import JsString Slug.


Lemma replace_runs_shape p r s :
  p r = true ->
  forall b,
    no_adjacent p (replace_runs p r b s)
    /\ (b = true -> ~ starts_with p (replace_runs p r b s)).
Proof.
  intros Hr. induction s as [|c s IH]; intros b; simpl.
  - split; [exact I | intros _ []].
  - destruct (p c) eqn:Hc.
    + destruct b.
      * destruct (IH true) as [H1 H2]. split; [exact H1 | intros _; apply H2; reflexivity].
      * destruct (IH true) as [H1 H2]. split; [| intros H; discriminate H].
        simpl. split; [| exact H1].
        destruct (replace_runs p r true s) as [|c2 t] eqn:E; [exact I |].
        intros [_ Hc2]. apply H2; [reflexivity | exact Hc2].
    + destruct (IH false) as [H1 _]. split.
      * simpl. split; [| exact H1].
        destruct (replace_runs p r false s); [exact I |].
        intros [Hp _]. congruence.
      * intros _. simpl. congruence.
Qed.

Lemma no_adjacent_tail p c s : no_adjacent p (c :: s) -> no_adjacent p s.
Proof. simpl. tauto. Qed.

Lemma no_adjacent_app_single p s c :
  no_adjacent p (s ++ [c]) -> no_adjacent p s.
Proof.
  induction s as [|a s IH]; simpl; [tauto |].
  intros [H1 H2]. split; [| apply IH, H2].
  destruct s as [|b s]; [exact I | exact H1].
Qed.

Lemma no_adjacent_snoc p s c :
  no_adjacent p s ->
  (forall a t, s = t ++ [a] -> ~ (p a = true /\ p c = true)) ->
  no_adjacent p (s ++ [c]).
Proof.
  induction s as [|a s IH]; simpl; [tauto |].
  intros [H1 H2] Hlast. split.
  - destruct s as [|b s]; simpl.
    + apply (Hlast a []). reflexivity.
    + exact H1.
  - apply IH; [exact H2 |].
    intros a' t Ht. apply (Hlast a' (a :: t)). rewrite Ht. reflexivity.
Qed.

Lemma no_adjacent_rev p s : no_adjacent p s -> no_adjacent p (rev s).
Proof.
  induction s as [|a s IH]; simpl; [tauto |].
  intros [H1 H2]. apply no_adjacent_snoc; [apply IH, H2 |].
  intros b t Ht. destruct s as [|c s]; [destruct t; discriminate Ht |].
  assert (c = b) as ->.
  { simpl in Ht. apply (f_equal (@rev ascii)) in Ht.
    rewrite rev_app_distr in Ht. simpl in Ht.
    rewrite rev_app_distr, rev_involutive in Ht. simpl in Ht. congruence. }
  tauto.
Qed.

Lemma drop_leading_is_drop_while s :
  no_adjacent is_hyphen s -> drop_leading_hyphen s = drop_while is_hyphen s.
Proof.
  destruct s as [|c s]; simpl; [reflexivity |].
  intros [H1 _]. destruct (is_hyphen c) eqn:Hc; [| reflexivity].
  destruct s as [|c2 s]; simpl; [reflexivity |].
  destruct (is_hyphen c2) eqn:Hc2; [| reflexivity].
  exfalso. apply H1. split; reflexivity.
Qed.

Lemma drop_trailing_snoc s c :
  drop_trailing_hyphen (s ++ [c]) = if is_hyphen c then s else s ++ [c].
Proof.
  induction s as [|a s IH]; simpl; [destruct (is_hyphen c); reflexivity |].
  rewrite IH. destruct s; simpl; destruct (is_hyphen c); reflexivity.
Qed.

Lemma drop_trailing_rev s :
  drop_trailing_hyphen s = rev (drop_leading_hyphen (rev s)).
Proof.
  rewrite <- (rev_involutive s) at 1.
  destruct (rev s) as [|c t]; simpl; [reflexivity |].
  rewrite drop_trailing_snoc. destruct (is_hyphen c); simpl; reflexivity.
Qed.

Lemma no_adjacent_drop_leading s :
  no_adjacent is_hyphen s -> no_adjacent is_hyphen (drop_leading_hyphen s).
Proof.
  destruct s as [|c s]; [simpl; tauto |].
  intros H. pose proof (no_adjacent_tail _ _ _ H) as Ht.
  unfold drop_leading_hyphen. destruct (is_hyphen c) in |- *; [exact Ht | exact H].
Qed.

(** After the hyphen runs are collapsed, taking one hyphen from each end
    takes them all. *)
Lemma replace_edge_is_trim s :
  no_adjacent is_hyphen s -> replace_edge_hyphens s = trim_hyphens s.
Proof.
  intros H. unfold replace_edge_hyphens, trim_hyphens.
  rewrite drop_trailing_rev.
  rewrite drop_leading_is_drop_while
    by (apply no_adjacent_rev, no_adjacent_drop_leading, H).
  rewrite (drop_leading_is_drop_while s H). reflexivity.
Qed.

Lemma generateHeadingId_no_adjacent_hyphens t :
  no_adjacent is_hyphen
    (replace_runs is_hyphen hyphen false
       (replace_runs is_space hyphen false
          (remove_outside slug_char (toLowerCase t)))).
Proof. apply replace_runs_shape. reflexivity. Qed.

End SlugFacts.

(** C6 (as amended).  [generateHeadingId] is the canonical slug function with
    one more step: lowercase, strip the characters outside [a-z0-9\s-],
    collapse white-space runs to single hyphens, collapse hyphen runs to
    single hyphens, trim leading and trailing hyphens. *)
Theorem generateHeadingId_is_collapsed_slug (t : string) :
  Slug.generateHeadingId t = Slug.canonical_slug_collapsed t.
Proof.
  unfold Slug.generateHeadingId, Slug.canonical_slug_collapsed,
    Slug.generateHeadingId_chars, Slug.canonical_slug_collapsed_chars.
  f_equal. apply SlugFacts.replace_edge_is_trim.
  apply SlugFacts.generateHeadingId_no_adjacent_hyphens.
Qed.

(** C6 (counterexample).  On the text "a - b" the function of the
    specification keeps three hyphens, [generateHeadingId] keeps one. *)
Lemma generateHeadingId_differs_from_canonical_slug :
  Slug.canonical_slug "a - b" = "a---b"
  /\ Slug.generateHeadingId "a - b" = "a-b"
  /\ Slug.generateHeadingId "a - b" <> Slug.canonical_slug "a - b".
Proof. vm_compute. repeat split. discriminate. Qed.

(** C5.  The ids of [generateHeadingId] never hold two hyphens in a row, and
    the id of the heading "Backup & Recovery Strategies" of lesson 10 has a
    single hyphen where the ampersand stood. *)
Theorem generateHeadingId_single_hyphens :
  (forall t, JsString.no_adjacent JsString.is_hyphen
               (JsString.chars (Slug.generateHeadingId t)))
  /\ Slug.generateHeadingId "Backup & Recovery Strategies" = "backup-recovery-strategies".
Proof.
  split; [| vm_compute; reflexivity].
  intros t. unfold Slug.generateHeadingId, JsString.chars, JsString.str.
  rewrite String.list_ascii_of_string_of_list_ascii.
  unfold Slug.generateHeadingId_chars, JsString.replace_edge_hyphens.
  rewrite SlugFacts.drop_trailing_rev.
  apply SlugFacts.no_adjacent_rev, SlugFacts.no_adjacent_drop_leading,
    SlugFacts.no_adjacent_rev, SlugFacts.no_adjacent_drop_leading,
    SlugFacts.generateHeadingId_no_adjacent_hyphens.
Qed.

(** * Facts about the tree builder *)

Module TocFacts.
Import Toc TocStore.


Lemma rtree_forall_ind (P : rtree -> Prop) :
  (forall r cs, Forall P cs -> P (RNode r cs)) -> forall t, P t.
Proof.
  intros step. fix IH 1. intros [r cs]. apply step.
  induction cs as [|c cs IHcs]; constructor; [apply IH | exact IHcs].
Qed.

Section Forest.
Variable hs : list TOCHeading.
Variable n : rtree.

Lemma value_radd p rf :
  value hs <$> radd p n rf = add_last_child p (value hs n) (value hs <$> rf).
Proof.
  revert rf. induction p as [|k p IH]; intros rf; simpl.
  - by rewrite fmap_app.
  - apply list_fmap_alter. apply Forall_forall. intros [r cs] _. simpl.
    f_equal. apply IH.
Qed.

Lemma count_children_value p rf r cs :
  sub p rf = Some (RNode r cs) ->
  count_children p (value hs <$> rf) = length cs.
Proof.
  revert rf. induction p as [|k p IH]; intros rf H; [discriminate |].
  simpl in *. rewrite list_lookup_fmap.
  destruct (rf !! k) as [[r0 cs0]|]; [| discriminate]. simpl.
  destruct p as [|j p].
  - injection H as -> ->. simpl. by rewrite length_fmap.
  - apply IH. exact H.
Qed.

Lemma sub_radd_other q : forall p rf t,
  sub q rf = Some t ->
  exists t', sub q (radd p n rf) = Some t' /\ rref t' = rref t.
Proof.
  induction q as [|k q IH]; intros p rf t H; [discriminate |].
  simpl in H. destruct (rf !! k) as [t0|] eqn:Hk; [| discriminate].
  destruct p as [|j p]; simpl.
  - rewrite lookup_app_l by (apply lookup_lt_is_Some; eauto).
    rewrite Hk. destruct q; eauto.
  - rewrite list_lookup_alter. destruct (decide (j = k)) as [->|Hne].
    + rewrite Hk. simpl. destruct t0 as [r0 cs0]. simpl in *.
      destruct q as [|k' q].
      * injection H as <-. eauto.
      * apply IH. exact H.
    + rewrite Hk. destruct q; eauto.
Qed.

Lemma sub_radd_new p : forall rf r cs,
  sub p rf = Some (RNode r cs) ->
  sub (p ++ [length cs]) (radd p n rf) = Some n.
Proof.
  induction p as [|k p IH]; intros rf r cs H; [discriminate |].
  simpl in H. destruct (rf !! k) as [[r0 cs0]|] eqn:Hk; [| discriminate].
  simpl. rewrite list_lookup_alter_eq, Hk. simpl in *.
  destruct p as [|j p]; simpl.
  - injection H as -> ->. rewrite lookup_app_r by lia.
    by rewrite Nat.sub_diag.
  - apply (IH cs0 r cs H).
Qed.

Lemma sub_in_refs p : forall rf t, sub p rf = Some t -> rref t ∈ refsF rf.
Proof.
  induction p as [|k p IH]; intros rf t H; [discriminate |].
  simpl in H. destruct (rf !! k) as [[r0 cs0]|] eqn:Hk; [| discriminate].
  assert (forall x, x ∈ refs (RNode r0 cs0) -> x ∈ refsF rf) as Hin.
  { intros x Hx. unfold refsF. apply list_elem_of_join.
    exists (refs (RNode r0 cs0)). split; [exact Hx |].
    apply list_elem_of_fmap. exists (RNode r0 cs0). split; [done |].
    eapply list_elem_of_lookup_2; eauto. }
  destruct p as [|j p].
  - injection H as <-. apply Hin. simpl. left.
  - apply Hin. simpl. right. apply (IH cs0 t H).
Qed.

Lemma refsF_alter F extra : forall rf k t,
  rf !! k = Some t ->
  refs (F t) ≡ₚ extra ++ refs t ->
  refsF (alter F k rf) ≡ₚ extra ++ refsF rf.
Proof.
  unfold refsF.
  induction rf as [|a rf IH]; intros k t Hk HF; [destruct k; discriminate |].
  destruct k as [|k]; simpl in *.
  - injection Hk as ->. rewrite HF. by rewrite <- app_assoc.
  - rewrite (IH k t Hk HF). apply Permutation_app_swap_app.
Qed.

Lemma refsF_radd p : forall rf t0,
  sub p rf = Some t0 -> refsF (radd p n rf) ≡ₚ refs n ++ refsF rf.
Proof.
  induction p as [|k p IH]; intros rf t0 H; [discriminate |].
  simpl in H. destruct (rf !! k) as [[r0 cs0]|] eqn:Hk; [| discriminate].
  simpl. eapply refsF_alter; [exact Hk |]. simpl.
  change (mjoin (refs <$> ?l)) with (refsF l).
  destruct p as [|j p].
  - simpl. unfold refsF. rewrite fmap_app, join_app. simpl.
    rewrite app_nil_r.
    rewrite (Permutation_app_comm (mjoin (refs <$> cs0)) (refs n)).
    apply Permutation_middle.
  - simpl in H. rewrite (IH cs0 t0 H). apply Permutation_middle.
Qed.

End Forest.

(** *** The store against the forest of references *)

Lemma in_refsF rf k t x : rf !! k = Some t -> x ∈ refs t -> x ∈ refsF rf.
Proof.
  intros Hk Hx. unfold refsF. apply list_elem_of_join. exists (refs t).
  split; [exact Hx |]. apply list_elem_of_fmap. exists t. split; [done |].
  eapply list_elem_of_lookup_2; eauto.
Qed.

Lemma refs_length_le rf k t : rf !! k = Some t -> length (refs t) <= length (refsF rf).
Proof.
  revert k. unfold refsF. induction rf as [|a rf IH]; intros [|k] Hk; simpl in *;
    try discriminate; rewrite length_app.
  - injection Hk as ->. apply Nat.le_add_r.
  - eapply Nat.le_trans; [exact (IH k Hk) | apply Nat.le_add_l].
Qed.

Lemma nodup_tree rf k t : NoDup (refsF rf) -> rf !! k = Some t -> NoDup (refs t).
Proof.
  revert k. unfold refsF. induction rf as [|a rf IH]; intros [|k] Hnd Hk; simpl in *;
    try discriminate; apply NoDup_app in Hnd as (H1 & H2 & H3).
  - injection Hk as ->. exact H1.
  - eauto.
Qed.

Lemma nodup_disjoint rf j k t t0 x :
  NoDup (refsF rf) -> rf !! j = Some t -> rf !! k = Some t0 -> j <> k ->
  x ∈ refs t -> x ∈ refs t0 -> False.
Proof.
  revert j k. induction rf as [|a rf IH]; intros j k Hnd Hj Hk Hne Hx Hx0;
    [destruct j; discriminate |].
  unfold refsF in Hnd. simpl in Hnd. apply NoDup_app in Hnd as (H1 & H2 & H3).
  destruct j as [|j], k as [|k]; simpl in *; try congruence.
  - injection Hj as ->. apply (H2 x Hx). eapply in_refsF; eauto.
  - injection Hk as ->. apply (H2 x Hx0). eapply in_refsF; eauto.
  - eapply (IH j k); eauto.
Qed.

Lemma shape_alter_other objs f r : forall t,
  Shape objs t -> r ∉ refs t -> Shape (alter f r objs) t.
Proof.
  induction t as [r0 cs IH] using rtree_forall_ind. intros HS Hr.
  inversion HS as [r1 o cs1 Hlook Hch Hcs]; subst.
  econstructor; [| exact Hch |].
  - rewrite list_lookup_alter_ne; [exact Hlook |].
    intros ->. apply Hr. simpl. left.
  - apply Forall_forall. intros c Hc.
    rewrite Forall_forall in IH, Hcs. apply IH; [exact Hc | apply Hcs, Hc |].
    intros Hin. apply Hr. simpl. right.
    apply list_elem_of_join. exists (refs c). split; [exact Hin |].
    apply list_elem_of_fmap. eauto.
Qed.

Lemma rref_radd_cons k p n rf : rref <$> radd (k :: p) n rf = rref <$> rf.
Proof.
  simpl. apply list_eq. intros j. rewrite !list_lookup_fmap, list_lookup_alter.
  destruct (decide (k = j)) as [->|]; [| reflexivity].
  destruct (rf !! j) as [[r cs]|]; reflexivity.
Qed.

Lemma shape_radd objs i oi :
  objs !! i = Some oi -> children oi = None ->
  forall p rf r cs,
    sub p rf = Some (RNode r cs) ->
    Forall (Shape objs) rf ->
    NoDup (refsF rf) ->
    i ∉ refsF rf ->
    Forall (Shape (alter (push_child i) r objs)) (radd p (RNode i []) rf).
Proof.
  intros Hi Hnone. induction p as [|k p IH]; intros rf r cs Hsub HF Hnd Hfresh;
    [discriminate |].
  pose proof (sub_in_refs _ _ _ Hsub) as Hr_in. simpl in Hr_in.
  simpl in Hsub. destruct (rf !! k) as [[r0 cs0]|] eqn:Hk; [| discriminate].
  pose proof (Forall_lookup_1 _ _ _ _ HF Hk) as HS0.
  pose proof (nodup_tree _ _ _ Hnd Hk) as Hnd0. simpl in Hnd0.
  apply NoDup_cons in Hnd0 as [Hr0 Hnd0].
  assert (i ∉ refs (RNode r0 cs0)) as Hi0.
  { intros Hin. apply Hfresh. eapply in_refsF; eauto. }
  assert (r ∈ refs (RNode r0 cs0)) as Hr_tree.
  { destruct p as [|j p].
    - injection Hsub as -> ->. simpl. left.
    - simpl. right. apply (sub_in_refs _ _ _ Hsub). }
  simpl. apply Forall_lookup. intros j t Hj.
  rewrite list_lookup_alter in Hj. destruct (decide (k = j)) as [<-|Hne].
  - rewrite Hk in Hj. simpl in Hj. injection Hj as <-.
    inversion HS0 as [r1 o cs1 Hlook Hch Hcs]; subst.
    destruct p as [|j p].
    + injection Hsub as -> ->. simpl.
      econstructor.
      * rewrite list_lookup_alter_eq, Hlook. reflexivity.
      * simpl. rewrite Hch, fmap_app. reflexivity.
      * apply Forall_app. split.
        -- apply Forall_forall. intros c Hc. rewrite Forall_forall in Hcs.
           apply shape_alter_other; [apply Hcs, Hc |].
           intros Hin. apply Hr0. apply list_elem_of_join. exists (refs c).
           split; [exact Hin |]. apply list_elem_of_fmap. eauto.
        -- constructor; [| constructor].
           econstructor; [| | constructor].
           ++ rewrite list_lookup_alter_ne; [exact Hi |].
              intros ->. apply Hi0. simpl. left.
           ++ rewrite Hnone. reflexivity.
    + assert (r ∈ refsF cs0) as Hr_cs by apply (sub_in_refs _ _ _ Hsub).
      simpl. econstructor.
      * rewrite list_lookup_alter_ne; [exact Hlook |].
        intros ->. apply Hr0. exact Hr_cs.
      * rewrite Hch. symmetry. apply rref_radd_cons.
      * apply (IH cs0 r cs Hsub Hcs Hnd0).
        intros Hin. apply Hi0. simpl. right. exact Hin.
  - pose proof (Forall_lookup_1 _ _ _ _ HF Hj) as HSt.
    apply shape_alter_other; [exact HSt |].
    intros Hin. eapply (nodup_disjoint rf j k); eauto.
Qed.

Lemma same_fields_lookup objs hs r o :
  Forall2 same_fields objs hs -> objs !! r = Some o -> same_fields o (hs !!! r).
Proof.
  intros HF Hr. destruct (Forall2_lookup_l _ _ _ _ _ HF Hr) as (h & Hh & Hsame).
  by rewrite (list_lookup_total_correct _ _ _ Hh).
Qed.

(** With fuel for every node, the read-out follows the shape. *)
Lemma read_node_shape objs hs :
  Forall2 same_fields objs hs ->
  forall t, Shape objs t ->
  forall fuel, length (refs t) <= fuel ->
  read_node fuel objs (rref t) = Some (value hs t).
Proof.
  intros Hsame. induction t as [r cs IH] using rtree_forall_ind.
  intros HS fuel Hfuel. inversion HS as [r1 o cs1 Hlook Hch Hcs]; subst.
  destruct fuel as [|fuel]; [simpl in Hfuel; lia |].
  simpl. rewrite Hlook. simpl. rewrite Hch.
  assert (mapM (read_node fuel objs) (rref <$> cs) = Some (value hs <$> cs)) as ->.
  { apply mapM_Some_2. apply Forall2_fmap. apply Forall_Forall2_diag.
    apply Forall_lookup. intros k c Hc.
    apply (Forall_lookup_1 _ _ _ _ IH Hc); [apply (Forall_lookup_1 _ _ _ _ Hcs Hc) |].
    pose proof (refs_length_le _ _ _ Hc). simpl in Hfuel. unfold refsF in *. lia. }
  simpl. destruct (same_fields_lookup _ _ _ _ Hsame Hlook) as (-> & -> & ->).
  reflexivity.
Qed.

(** *** The two stacks move together *)


Lemma pop_together objs hs rf d stk pstk :
  Forall2 same_fields objs hs ->
  Forall (fun r => r < length objs) stk ->
  Forall2 (on_stack hs rf) stk pstk ->
  Forall2 (on_stack hs rf) (pop_stack objs d stk) (pop_while_deeper d pstk).
Proof.
  intros Hsame Hlt HF. induction HF as [|r [dtop p] stk pstk [Hd Hsub] HF IH]; simpl.
  - constructor.
  - apply Forall_cons in Hlt as [Hr Hlt].
    destruct (lookup_lt_is_Some_2 objs r Hr) as [o Ho]. rewrite Ho.
    destruct (same_fields_lookup _ _ _ _ Hsame Ho) as (_ & Hdepth & _).
    simpl in Hd. rewrite Hdepth, <- Hd.
    destruct (d <=? dtop); [apply IH, Hlt |].
    constructor; [split; assumption | exact HF].
Qed.


Lemma value_leaf hs i h : hs !! i = Some h -> value hs (RNode i []) = leaf h.
Proof. intros H. simpl. by rewrite (list_lookup_total_correct _ _ _ H). Qed.

Lemma stack_in_range hs rf i stk pstk :
  Forall (fun x => x < i) (refsF rf) ->
  Forall2 (on_stack hs rf) stk pstk ->
  Forall (fun r => r < i) stk.
Proof.
  intros Hlt HF. induction HF as [|r e stk pstk [_ (t & Hsub & Ht)] HF IH];
    constructor; [| exact IH].
  rewrite Forall_forall in Hlt. apply Hlt. subst r. eapply sub_in_refs; eauto.
Qed.

Lemma build_step_inv hs i st sp rf h :
  Inv hs i st sp rf -> hs !! i = Some h ->
  exists rf', Inv hs (S i) (build_step st i) (spec_step sp h) rf'.
Proof.
  intros [Hb Hf Hl Hr Hs Hn Hlt Hfo Hst] Hh.
  destruct (Forall2_lookup_r _ _ _ _ _ Hf Hh) as (o & Ho & (Hid & Hdep & Htxt)).
  pose proof (lookup_lt_Some _ _ _ Hh) as Hi.
  pose proof (Forall2_length _ _ _ Hf) as Hlen.
  destruct sp as [forest pstk]. simpl in Hfo, Hst.
  assert (Forall (fun r => r < length (objects st)) (stack st)) as Hrange.
  { eapply Forall_impl; [eapply stack_in_range; eauto |]. simpl. intros; lia. }
  pose proof (pop_together _ _ _ (depth o) _ _ Hf Hrange Hst) as Hpop.
  unfold build_step, spec_step. rewrite Ho, <- Hdep.
  assert (i ∉ refsF rf) as Hfresh.
  { intros Hin. rewrite Forall_forall in Hlt. specialize (Hlt _ Hin). lia. }
  destruct Hpop as [|r [dtop p] stk' pstk' [Hd (t & Hsub & Ht)] Hrest].
  - exists (rf ++ [RNode i []]). constructor; simpl.
    + lia.
    + exact Hf.
    + intros j o' Hj. apply Hl. lia.
    + rewrite Hr, fmap_app. reflexivity.
    + apply Forall_app. split; [exact Hs |].
      constructor; [| constructor].
      econstructor; [exact Ho | | constructor].
      rewrite (Hl i o (le_n _) Ho). reflexivity.
    + unfold refsF. rewrite fmap_app, join_app. simpl.
      apply NoDup_app. split; [exact Hn |]. split; [| apply NoDup_singleton].
      intros x Hx Hx'. apply list_elem_of_singleton in Hx'. subst x. exact (Hfresh Hx).
    + unfold refsF. rewrite fmap_app, join_app. simpl.
      apply Forall_app. split.
      * eapply Forall_impl; [exact Hlt |]. simpl. intros; lia.
      * constructor; [lia | constructor].
    + rewrite Hfo, fmap_app. simpl.
      rewrite (list_lookup_total_correct _ _ _ Hh). reflexivity.
    + constructor; [| constructor]. split; simpl.
      * rewrite (list_lookup_total_correct _ _ _ Hh). exact Hdep.
      * exists (RNode i []). split; [| reflexivity].
        rewrite Hfo, length_fmap. rewrite lookup_app_r by lia.
        by rewrite Nat.sub_diag.
  - destruct t as [r' cs]. simpl in Ht, Hd, Hsub. subst r'.
    assert (r ∈ refsF rf) as Hr_in by apply (sub_in_refs _ _ _ Hsub).
    assert (r < i) as Hr_lt.
    { rewrite Forall_forall in Hlt. apply Hlt, Hr_in. }
    assert (exists k q, p = k :: q) as (k & q & Hp).
    { destruct p; [discriminate | eauto]. }
    exists (radd p (RNode i []) rf). constructor; simpl.
    + lia.
    + apply Forall2_alter_l; [exact Hf |].
      intros x y _ _ (? & ? & ?). repeat split; assumption.
    + intros j o' Hj Hlook. rewrite list_lookup_alter_ne in Hlook by lia.
      apply (Hl j o'); [lia | exact Hlook].
    + rewrite Hr, Hp. symmetry. apply rref_radd_cons.
    + eapply shape_radd; eauto.
    + rewrite (refsF_radd _ _ _ _ Hsub). simpl.
      apply NoDup_cons. split; assumption.
    + rewrite (refsF_radd _ _ _ _ Hsub). simpl.
      constructor; [lia |]. eapply Forall_impl; [exact Hlt |]. simpl. intros; lia.
    + rewrite value_radd, Hfo, (value_leaf _ _ _ Hh). reflexivity.
    + constructor.
      * split; simpl.
        -- rewrite (list_lookup_total_correct _ _ _ Hh). exact Hdep.
        -- exists (RNode i []). split; [| reflexivity].
           rewrite Hfo, (count_children_value _ _ _ _ _ Hsub).
           apply (sub_radd_new _ _ _ _ _ Hsub).
      * constructor.
        -- split; [exact Hd |]. simpl.
           destruct (sub_radd_other (RNode i []) p p rf _ Hsub) as (t' & Ht' & Href).
           exists t'. split; [exact Ht' | exact Href].
        -- eapply Forall2_impl; [exact Hrest |].
           intros r0 e [Hd0 (t0 & Hsub0 & Ht0)]. split; [exact Hd0 |].
           destruct (sub_radd_other (RNode i []) (snd e) p rf _ Hsub0)
             as (t' & Ht' & Href).
           exists t'. split; [exact Ht' | congruence].
Qed.

Lemma build_loop_inv hs : forall rest i st sp rf,
  Inv hs i st sp rf ->
  drop i hs = rest ->
  exists rf',
    Inv hs (length hs) (foldl build_step st (seq i (length rest)))
        (foldl spec_step sp rest) rf'.
Proof.
  induction rest as [|h rest IH]; intros i st sp rf HI Hdrop.
  - simpl. exists rf.
    assert (i = length hs) as <-; [| exact HI].
    destruct HI as [Hb _ _ _ _ _ _ _ _].
    apply (f_equal length) in Hdrop. rewrite length_drop in Hdrop. simpl in Hdrop. lia.
  - assert (hs !! i = Some h) as Hh.
    { rewrite <- (Nat.add_0_r i), <- lookup_drop, Hdrop. reflexivity. }
    destruct (build_step_inv _ _ _ _ _ _ HI Hh) as (rf1 & HI1).
    simpl. apply (IH (S i) _ _ rf1 HI1).
    rewrite (drop_S _ _ _ Hh) in Hdrop. congruence.
Qed.


Lemma init_inv hs :
  Forall flat_heading hs ->
  Inv hs 0 {| objects := hs; root := []; stack := [] |} ([], []) [].
Proof.
  intros Hflat. constructor; simpl; try done.
  - lia.
  - apply Forall_Forall2_diag. apply Forall_forall. intros; repeat split.
  - intros j o _ Ho. apply (Forall_lookup_1 _ _ _ _ Hflat Ho).
  - constructor.
Qed.

(** [buildHeadingTree] on headings without children returns the forest of
    the specification: the read-out never fails. *)
Lemma buildHeadingTree_refines hs :
  Forall flat_heading hs -> buildHeadingTree hs = Some (buildTree_spec hs).
Proof.
  intros Hflat.
  destruct (build_loop_inv hs hs 0 _ _ _ (init_inv hs Hflat) eq_refl) as (rf & HI).
  unfold buildHeadingTree, buildTree_spec, build_run.
  destruct HI as [Hb Hf Hl Hr Hs Hn Hlt Hfo Hst].
  rewrite Hr, Hfo. apply mapM_Some_2. apply Forall2_fmap. apply Forall_Forall2_diag.
  apply Forall_lookup. intros k t Hk.
  apply (read_node_shape _ _ Hf); [apply (Forall_lookup_1 _ _ _ _ Hs Hk) |].
  etrans; [apply (refs_length_le _ _ _ Hk) |].
  rewrite (Forall2_length _ _ _ Hf).
  rewrite <- (length_seq (length hs) 0).
  apply submseteq_length, NoDup_submseteq; [exact Hn |].
  intros x Hx. apply elem_of_seq. rewrite Forall_forall in Hlt.
  specialize (Hlt x Hx). lia.
Qed.

Lemma matched_headings_flat markdown : Forall flat_heading (matched_headings markdown).
Proof.
  unfold matched_headings. apply Forall_forall. intros h Hh.
  apply list_elem_of_In, in_map_iff in Hh as (m & <- & _). reflexivity.
Qed.

Lemma extractHeadings_total markdown :
  extractHeadings markdown = Some (buildTree_spec (matched_headings markdown)).
Proof. apply buildHeadingTree_refines, matched_headings_flat. Qed.

End TocFacts.

(** * Facts about the loaders *)

Module LoaderFacts.
Import Content Storage Loader.
Local Open Scope Z_scope.

Lemma catch_clause_abort what : catch_clause what abort_reason = abort_reason.
Proof. reflexivity. Qed.

Lemma catch_clause_wraps what e :
  name e <> "AbortError" ->
  catch_clause what (ThrownError e)
  = ThrownError {| name := "Error"; message := what ++ ": " ++ message e |}.
Proof.
  intros Hne. unfold catch_clause.
  destruct (String.eqb_spec (name e) "AbortError") as [Heq|_]; [contradiction |].
  reflexivity.
Qed.

Lemma CACHE_EXPIRY_value : CACHE_EXPIRY = 1800000.
Proof. reflexivity. Qed.

Lemma fresh_iff now o ts :
  timestamp o = Some ts ->
  fresh now o = true <-> ts <> 0 /\ now - ts < CACHE_EXPIRY.
Proof.
  intros Hts. unfold fresh. rewrite Hts.
  rewrite andb_true_iff, negb_true_iff, Z.eqb_neq, Z.ltb_lt. reflexivity.
Qed.


End LoaderFacts.

Section LoaderTheorems.
Import Content Storage Loader LoaderFacts.
Local Open Scope Z_scope.

(** C4 (as amended).  On a manifest cache miss, with a success response
    whose body parses, [fetchContentManifest] does not validate the
    payload: whatever the manifest, it is stored under ['content-manifest']
    with the current time and returned. *)
Theorem fetchContentManifest_caches_unvalidated
        (w : World) (net : Network Json) (response : Response)
        (manifest : Json) (t0 t1 : Z) :
  getItem_error (storage w) = None ->
  setItem_error (storage w) = None ->
  read_cache t0 (items (storage w) !! MANIFEST_CACHE_KEY) = CacheMiss ->
  fetch_settles net = Fulfilled response ->
  ok response = true ->
  body_settles net = Fulfilled manifest ->
  fetchContentManifest net t0 t1 w
  = ({| storage :=
          {| items :=
               <[MANIFEST_CACHE_KEY :=
                   JsonText {| data := Some manifest; content := None;
                               headings := None; timestamp := Some t1 |}]>
                 (items (storage w));
             getItem_error := None;
             setItem_error := None |};
        requests := requests w ++ ["/content-manifest.json"];
        writes := writes w ++ [MANIFEST_CACHE_KEY] |},
     Settled (Resolved (Some manifest))).
Proof.
  intros Hget Hset Hmiss Hfetch Hok Hbody.
  unfold fetchContentManifest, fetchContentManifest_start, getItem.
  rewrite Hget, Hmiss. simpl.
  unfold fetchContentManifest_on_fetch. rewrite Hfetch, Hok.
  unfold fetchContentManifest_on_body, setItem. rewrite Hbody. simpl.
  rewrite Hset, Hget. reflexivity.
Qed.

(** C7.  A [sessionStorage] that cannot be read or written fails the
    callers of the loaders; there is no other store to fall back on.  When
    [sessionStorage.getItem] throws, [fetchContentManifest] and
    [fetchLessonContent] reject with the storage error wrapped by their
    [catch] clause, ask nothing of the network and leave everything as it
    was; when only [sessionStorage.setItem] throws, a call that has fetched
    its resource from a network that answers rejects with the wrapped error
    too, although it holds the data. *)
Theorem loaders_reject_when_storage_throws
        (w : World) (e : Error) (lesson : Lesson)
        (netm : Network Json) (netl : Network string) (t0 t1 : Z) :
  name e <> "AbortError" ->
  (getItem_error (storage w) = Some e ->
   fetchContentManifest netm t0 t1 w
   = (w, Settled (Rejected (ThrownError
           {| name := "Error"; message := manifest_what ++ ": " ++ message e |})))
   /\ fetchLessonContent lesson netl t0 t1 w
      = (w, Settled (Rejected (ThrownError
              {| name := "Error";
                 message := lesson_what lesson ++ ": " ++ message e |}))))
  /\ (getItem_error (storage w) = None ->
      setItem_error (storage w) = Some e ->
      forall response manifest md,
        ok response = true ->
        fetch_settles netm = Fulfilled response ->
        body_settles netm = Fulfilled manifest ->
        fetch_settles netl = Fulfilled response ->
        body_settles netl = Fulfilled md ->
        read_cache t0 (items (storage w) !! MANIFEST_CACHE_KEY) = CacheMiss ->
        read_cache t0 (items (storage w) !! cacheKey lesson) = CacheMiss ->
        snd (fetchContentManifest netm t0 t1 w)
        = Settled (Rejected (ThrownError
             {| name := "Error"; message := manifest_what ++ ": " ++ message e |}))
        /\ snd (fetchLessonContent lesson netl t0 t1 w)
           = Settled (Rejected (ThrownError
                {| name := "Error";
                   message := lesson_what lesson ++ ": " ++ message e |}))).
Proof.
  intros Hname. split.
  - intros Hget. split.
    + unfold fetchContentManifest, fetchContentManifest_start, getItem.
      rewrite Hget. rewrite catch_clause_wraps by exact Hname. reflexivity.
    + unfold fetchLessonContent, fetchLessonContent_start, getItem.
      rewrite Hget. rewrite catch_clause_wraps by exact Hname. reflexivity.
  - intros Hget Hset response manifest md Hok Hfm Hbm Hfl Hbl Hmm Hml. split.
    + unfold fetchContentManifest, fetchContentManifest_start, getItem.
      rewrite Hget, Hmm. simpl.
      unfold fetchContentManifest_on_fetch. rewrite Hfm, Hok.
      unfold fetchContentManifest_on_body, setItem. rewrite Hbm. simpl.
      rewrite Hset. simpl. rewrite catch_clause_wraps by exact Hname. reflexivity.
    + unfold fetchLessonContent, fetchLessonContent_start, getItem.
      rewrite Hget, Hml. simpl.
      unfold fetchLessonContent_on_fetch. rewrite Hfl, Hok.
      unfold fetchLessonContent_on_body, setItem. rewrite Hbl.
      rewrite TocFacts.extractHeadings_total. simpl.
      rewrite Hset. simpl. rewrite catch_clause_wraps by exact Hname. reflexivity.
Qed.

(** C8 (as amended).  For a cache entry whose timestamp is not 0, with the
    expiry fixed at 30 minutes (1800000 ms): a call made while
    [now - timestamp < 1800000] returns what is stored, asks nothing of the
    network and changes nothing; a call made later goes to the network, and
    its outcome and its requests are those of a call that finds no entry.
    The entry is only looked at by the call that reads it. *)
Theorem cache_entry_valid_for_thirty_minutes
        (w : World) (lesson : Lesson) (o : CacheObject) (ts now t1 : Z)
        (netl : Network string) (netm : Network Json) :
  getItem_error (storage w) = None ->
  timestamp o = Some ts ->
  ts <> 0 ->
  CACHE_EXPIRY = 1000 * 60 * 30
  /\ (items (storage w) !! cacheKey lesson = Some (JsonText o) ->
      (now - ts < 1800000 ->
       fetchLessonContent lesson netl now t1 w
       = (w, Settled (Resolved {| markdown := content o;
                                  lesson_headings := headings o |})))
      /\ (1800000 <= now - ts ->
          fetchLessonContent_start lesson None now w
          = (log_request (mdPath lesson) w, Suspended AwaitFetch)
          /\ snd (fetchLessonContent lesson netl now t1 w)
             = snd (fetchLessonContent lesson netl now t1
                      (without_item (cacheKey lesson) w))
          /\ requests (fst (fetchLessonContent lesson netl now t1 w))
             = requests w ++ [mdPath lesson]))
  /\ (items (storage w) !! MANIFEST_CACHE_KEY = Some (JsonText o) ->
      (now - ts < 1800000 ->
       fetchContentManifest netm now t1 w = (w, Settled (Resolved (data o))))
      /\ (1800000 <= now - ts ->
          fetchContentManifest_start None now w
          = (log_request "/content-manifest.json" w, Suspended AwaitFetch)
          /\ snd (fetchContentManifest netm now t1 w)
             = snd (fetchContentManifest netm now t1
                      (without_item MANIFEST_CACHE_KEY w))
          /\ requests (fst (fetchContentManifest netm now t1 w))
             = requests w ++ ["/content-manifest.json"])).
Proof.
  intros Hget Hts Hnz. split; [reflexivity |].
  assert (forall b, (now - ts <? CACHE_EXPIRY) = b -> fresh now o = b) as Hfresh.
  { intros b Hb. unfold fresh. rewrite Hts, Hb.
    apply Z.eqb_neq in Hnz. rewrite Hnz. reflexivity. }
  split.
  - intros Hitem. split.
    + intros Hlt.
      unfold fetchLessonContent, fetchLessonContent_start, getItem.
      rewrite Hget, Hitem. simpl.
      rewrite (Hfresh true) by (apply Z.ltb_lt; rewrite CACHE_EXPIRY_value; lia).
      reflexivity.
    + intros Hge.
      assert (fresh now o = false) as Hstale
          by (apply Hfresh, Z.ltb_ge; rewrite CACHE_EXPIRY_value; lia).
      assert (fetchLessonContent_start lesson None now w
              = (log_request (mdPath lesson) w, Suspended AwaitFetch)) as Hstart.
      { unfold fetchLessonContent_start, getItem.
        rewrite Hget, Hitem. simpl. rewrite Hstale. reflexivity. }
      split; [exact Hstart |].
      unfold fetchLessonContent. rewrite Hstart.
      unfold fetchLessonContent_start, getItem, without_item. simpl.
      rewrite Hget, lookup_delete_eq. simpl.
      unfold fetchLessonContent_on_fetch.
      destruct (fetch_settles netl) as [response|t]; [| split; reflexivity].
      destruct (ok response); [| split; reflexivity].
      unfold fetchLessonContent_on_body.
      destruct (body_settles netl) as [md|t]; [| split; reflexivity].
      destruct (Toc.extractHeadings md); [| split; reflexivity].
      unfold setItem. simpl.
      destruct (setItem_error (storage w)); split; reflexivity.
  - intros Hitem. split.
    + intros Hlt.
      unfold fetchContentManifest, fetchContentManifest_start, getItem.
      rewrite Hget, Hitem. simpl.
      rewrite (Hfresh true) by (apply Z.ltb_lt; rewrite CACHE_EXPIRY_value; lia).
      reflexivity.
    + intros Hge.
      assert (fresh now o = false) as Hstale
          by (apply Hfresh, Z.ltb_ge; rewrite CACHE_EXPIRY_value; lia).
      assert (fetchContentManifest_start None now w
              = (log_request "/content-manifest.json" w, Suspended AwaitFetch))
        as Hstart.
      { unfold fetchContentManifest_start, getItem.
        rewrite Hget, Hitem. simpl. rewrite Hstale. reflexivity. }
      split; [exact Hstart |].
      unfold fetchContentManifest. rewrite Hstart.
      unfold fetchContentManifest_start, getItem, without_item. simpl.
      rewrite Hget, lookup_delete_eq. simpl.
      unfold fetchContentManifest_on_fetch.
      destruct (fetch_settles netm) as [response|t]; [| split; reflexivity].
      destruct (ok response); [| split; reflexivity].
      unfold fetchContentManifest_on_body.
      destruct (body_settles netm) as [m|t]; [| split; reflexivity].
      unfold setItem. simpl.
      destruct (setItem_error (storage w)); split; reflexivity.
Qed.

End LoaderTheorems.

(** * Facts about lesson navigation *)

Module NavigationFacts.
Import Content Navigation.
Local Open Scope Z_scope.


Lemma findIndex_from_none {A : Type} (p : A -> bool) (l : list A) (i : Z) :
  (forall x, x ∈ l -> p x = false) -> findIndex_from p i l = -1.
Proof.
  revert i. induction l as [|x l IH]; intros i H; simpl; [reflexivity |].
  rewrite (H x) by left. apply IH. intros y Hy. apply H. by right.
Qed.

Lemma findIndex_from_first {A : Type} (p : A -> bool) (l : list A) (i : Z) (k : nat) (x : A) :
  l !! k = Some x -> p x = true ->
  (forall j y, (j < k)%nat -> l !! j = Some y -> p y = false) ->
  findIndex_from p i l = i + Z.of_nat k.
Proof.
  revert i k. induction l as [|a l IH]; intros i k Hk Hp Hbefore; [destruct k; discriminate |].
  destruct k as [|k]; simpl in *.
  - injection Hk as ->. rewrite Hp. lia.
  - rewrite (Hbefore 0%nat a) by (lia || reflexivity).
    rewrite (IH (i + 1) k Hk Hp); [lia |].
    intros j y Hj Hy. apply (Hbefore (S j) y); [lia | exact Hy].
Qed.

Lemma at_index_nat {A : Type} (l : list A) (k : nat) : at_index l (Z.of_nat k) = l !! k.
Proof.
  unfold at_index. destruct (Z.ltb_spec (Z.of_nat k) 0); [lia |].
  by rewrite Nat2Z.id.
Qed.

End NavigationFacts.

(** C10.  When no lesson of the manifest has the slug, [getLessonNavigation]
    returns [previous] and [next] undefined.  Otherwise, with [k] the index
    of the (first) lesson with that slug, [previous] is undefined exactly when
    [k] is the first index and is else the slug and title of the lesson at
    [k - 1]; [next] is undefined exactly when [k] is the last index and is
    else the slug and title of the lesson at [k + 1].  No call throws. *)
Theorem getLessonNavigation_adjacent (m : Content.ContentManifest) (s : string) :
  ((forall l, l ∈ Content.lessons m -> Content.slug l <> s) ->
   Navigation.getLessonNavigation m s
   = Content.Ok {| Content.previous := None; Content.next := None |})
  /\ (forall k l,
         Navigation.first_with_slug m s k l ->
         exists nav,
           Navigation.getLessonNavigation m s = Content.Ok nav
           /\ (Content.previous nav = None <-> k = 0)
           /\ (Content.next nav = None <-> S k = length (Content.lessons m))
           /\ Content.previous nav
              = match k with
                | 0 => None
                | S k' => Navigation.link <$> Content.lessons m !! k'
                end
           /\ Content.next nav = Navigation.link <$> Content.lessons m !! S k).
Proof.
  split.
  - intros Hnone. unfold Navigation.getLessonNavigation, Navigation.findIndex.
    rewrite NavigationFacts.findIndex_from_none; [reflexivity |].
    intros x Hx. apply String.eqb_neq. apply Hnone, Hx.
  - intros k l (Hk & Hs & Hbefore).
    pose proof (lookup_lt_Some _ _ _ Hk) as Hlen.
    unfold Navigation.getLessonNavigation, Navigation.findIndex.
    rewrite (NavigationFacts.findIndex_from_first _ _ 0%Z k l Hk).
    2: { apply String.eqb_eq, Hs. }
    2: { intros j y Hj Hy. apply String.eqb_neq. eapply Hbefore; eauto. }
    destruct (Z.eqb_spec (0 + Z.of_nat k) (-1)) as [Heq|_]; [lia |].
    unfold Navigation.link_at.
    assert (Navigation.at_index (Content.lessons m) (0 + Z.of_nat k + 1)
            = Content.lessons m !! S k) as Hnext.
    { replace (0 + Z.of_nat k + 1)%Z with (Z.of_nat (S k)) by lia.
      apply NavigationFacts.at_index_nat. }
    rewrite Hnext.
    destruct k as [|k'].
    + simpl (0 + Z.of_nat 0 >? 0)%Z. cbv iota.
      destruct (Z.ltb_spec (0 + Z.of_nat 0) (Z.of_nat (length (Content.lessons m)) - 1))
        as [Hlt|Hge].
      * destruct (lookup_lt_is_Some_2 (Content.lessons m) 1) as [n Hn]; [lia |].
        rewrite Hn. eexists. split; [reflexivity |]. simpl.
        repeat split; try done; intros; lia.
      * eexists. split; [reflexivity |]. simpl.
        rewrite (lookup_ge_None_2 (Content.lessons m) 1) by lia.
        repeat split; try done; intros; lia.
    + assert (Navigation.at_index (Content.lessons m) (0 + Z.of_nat (S k') - 1)
              = Content.lessons m !! k') as Hprev.
      { replace (0 + Z.of_nat (S k') - 1)%Z with (Z.of_nat k') by lia.
        apply NavigationFacts.at_index_nat. }
      rewrite Hprev.
      destruct (Z.gtb_spec (0 + Z.of_nat (S k')) 0) as [_|Hle]; [| lia].
      destruct (lookup_lt_is_Some_2 (Content.lessons m) k') as [p Hp]; [lia |].
      rewrite Hp.
      destruct (Z.ltb_spec (0 + Z.of_nat (S k'))
                           (Z.of_nat (length (Content.lessons m)) - 1)) as [Hlt|Hge].
      * destruct (lookup_lt_is_Some_2 (Content.lessons m) (S (S k'))) as [n Hn]; [lia |].
        rewrite Hn. eexists. split; [reflexivity |]. simpl.
        repeat split; try done; intros; lia.
      * eexists. split; [reflexivity |]. simpl.
        rewrite (lookup_ge_None_2 (Content.lessons m) (S (S k'))) by lia.
        repeat split; try done; intros; lia.
Qed.

(** * Facts about the calls of the lesson route *)

Module RouteFacts.
Import Content Storage Loader LessonRoute.

Lemma on_fetch_suspended lesson r w w' p :
  fetchLessonContent_on_fetch lesson r w = (w', Suspended p) -> w' = w.
Proof.
  unfold fetchLessonContent_on_fetch. destruct r as [response|t]; [| discriminate].
  destruct (ok response); [| discriminate]. congruence.
Qed.

Lemma on_body_settles lesson b now w w' p :
  fetchLessonContent_on_body lesson b now w = (w', Suspended p) -> False.
Proof.
  unfold fetchLessonContent_on_body. destruct b as [md|t]; [| discriminate].
  destruct (Toc.extractHeadings md); [| discriminate].
  destruct (setItem _ _ _); discriminate.
Qed.

(** A settled call is never touched again. *)
Lemma step_keeps_settled sys e i c o :
  calls sys !! i = Some c -> call_state c = Settled o ->
  calls (step sys e) !! i = Some c.
Proof.
  intros Hi Hc.
  assert (forall j c' r, calls sys !! j = Some c' ->
            (exists p, call_state c' = Suspended p) ->
            calls (resume sys j c' r) !! i = Some c) as Hresume.
  { intros j c' [w st] Hj [p Hp]. unfold resume. simpl.
    rewrite list_lookup_insert_ne; [exact Hi |].
    intros ->. congruence. }
  destruct e as [lesson now|j r|j b now|j reason]; unfold step.
  - destruct (fetchLessonContent_start lesson None now (world sys)) as [w st]. simpl.
    rewrite lookup_app_l; [exact Hi |]. eapply lookup_lt_Some; eauto.
  - destruct (calls sys !! j) as [c'|] eqn:Hj; [| exact Hi].
    destruct (call_state c') as [[|]|] eqn:Hs; try exact Hi;
      (eapply Hresume; [exact Hj | eexists; exact Hs]).
  - destruct (calls sys !! j) as [c'|] eqn:Hj; [| exact Hi].
    destruct (call_state c') as [[|]|] eqn:Hs; try exact Hi;
      (eapply Hresume; [exact Hj | eexists; exact Hs]).
  - destruct (calls sys !! j) as [c'|] eqn:Hj; [| exact Hi].
    destruct (call_state c') as [[|]|] eqn:Hs; try exact Hi;
      (eapply Hresume; [exact Hj | eexists; exact Hs]).
Qed.

Lemma run_keeps_settled es : forall sys i c o,
  calls sys !! i = Some c -> call_state c = Settled o ->
  calls (run sys es) !! i = Some c.
Proof.
  induction es as [|e es IH]; intros sys i c o Hi Hc; [exact Hi |].
  change (run sys (e :: es)) with (run (step sys e) es). eapply IH; [| exact Hc]. eapply step_keeps_settled; eauto.
Qed.


Lemma resume_pending_unwritten sys j c' r :
  pending_unwritten sys ->
  calls sys !! j = Some c' ->
  (forall w p, r = (w, Suspended p) -> w = world sys) ->
  (exists p, call_state c' = Suspended p) ->
  pending_unwritten (resume sys j c' r).
Proof.
  intros Hinv Hj Hr [p' Hp'] i c p. destruct r as [w st]. unfold resume. simpl.
  destruct (decide (j = i)) as [->|Hne].
  - rewrite list_lookup_insert_eq by (eapply lookup_lt_Some; eauto).
    intros [= <-]. simpl. intros ->.
    rewrite (Hr w p eq_refl), (Hinv i c' p' Hj Hp'). lia.
  - rewrite list_lookup_insert_ne by exact Hne. apply Hinv.
Qed.

Lemma step_pending_unwritten sys e :
  pending_unwritten sys -> pending_unwritten (step sys e).
Proof.
  intros Hinv.
  destruct e as [lesson now|j r|j b now|j reason]; unfold step.
  - destruct (fetchLessonContent_start lesson None now (world sys)) as [w st]. simpl.
    intros i c p Hi Hc. apply lookup_app_Some in Hi as [Hi|[_ Hi]].
    + eapply Hinv; eauto.
    + apply list_lookup_singleton_Some in Hi as [_ <-]. reflexivity.
  - destruct (calls sys !! j) as [c'|] eqn:Hj; [| exact Hinv].
    destruct (call_state c') as [[|]|] eqn:Hs; try exact Hinv.
    apply resume_pending_unwritten; eauto.
    intros w p. apply on_fetch_suspended.
  - destruct (calls sys !! j) as [c'|] eqn:Hj; [| exact Hinv].
    destruct (call_state c') as [[|]|] eqn:Hs; try exact Hinv.
    apply resume_pending_unwritten; eauto.
    intros w p H. destruct (on_body_settles _ _ _ _ _ _ H).
  - destruct (calls sys !! j) as [c'|] eqn:Hj; [| exact Hinv].
    destruct (call_state c') as [[|]|] eqn:Hs; try exact Hinv.
    + apply resume_pending_unwritten; eauto.
      intros w p. apply on_fetch_suspended.
    + apply resume_pending_unwritten; eauto.
      intros w p H. destruct (on_body_settles _ _ _ _ _ _ H).
Qed.

Lemma run_pending_unwritten es : forall sys,
  pending_unwritten sys -> pending_unwritten (run sys es).
Proof.
  induction es as [|e es IH]; intros sys H; [exact H |].
  change (run sys (e :: es)) with (run (step sys e) es). apply IH, step_pending_unwritten, H.
Qed.

Lemma init_pending_unwritten w : pending_unwritten (init w).
Proof. intros i c p Hi. destruct i; discriminate Hi. Qed.

End RouteFacts.

Module RouteSteps.
Import Content Storage Loader LessonRoute RouteFacts.

Lemma step_call_miss sys lesson now :
  getItem_error (storage (world sys)) = None ->
  items (storage (world sys)) !! cacheKey lesson = None ->
  step sys (CallLoader lesson now)
  = {| world := log_request (mdPath lesson) (world sys);
       calls := calls sys ++ [{| call_lesson := lesson;
                                 call_state := Suspended AwaitFetch;
                                 cache_writes := 0 |}];
       ui := loadContent_begin (ui sys) |}.
Proof.
  intros Hget Hitem. unfold step, fetchLessonContent_start, getItem.
  rewrite Hget, Hitem. reflexivity.
Qed.

Lemma step_abort_pending sys i c p :
  calls sys !! i = Some c -> call_state c = Suspended p ->
  step sys (Abort i abort_reason)
  = resume sys i c (world sys, Settled (Rejected abort_reason)).
Proof. intros Hi Hp. unfold step. rewrite Hi, Hp. destruct p; reflexivity. Qed.

Lemma step_fetch_settled sys i c o r :
  calls sys !! i = Some c -> call_state c = Settled o ->
  step sys (FetchSettles i r) = sys.
Proof. intros Hi Hc. unfold step. rewrite Hi, Hc. reflexivity. Qed.

Lemma step_body_settled sys i c o b now :
  calls sys !! i = Some c -> call_state c = Settled o ->
  step sys (BodySettles i b now) = sys.
Proof. intros Hi Hc. unfold step. rewrite Hi, Hc. reflexivity. Qed.

Lemma step_fetch_ok sys i c response :
  calls sys !! i = Some c -> call_state c = Suspended AwaitFetch ->
  ok response = true ->
  step sys (FetchSettles i (Fulfilled response))
  = resume sys i c (world sys, Suspended AwaitBody).
Proof.
  intros Hi Hc Hok. unfold step, fetchLessonContent_on_fetch.
  rewrite Hi, Hc, Hok. reflexivity.
Qed.

Lemma step_body_ok sys i c md now :
  calls sys !! i = Some c -> call_state c = Suspended AwaitBody ->
  setItem_error (storage (world sys)) = None ->
  step sys (BodySettles i (Fulfilled md) now)
  = resume sys i c
      (store (cacheKey (call_lesson c))
         {| items :=
              <[cacheKey (call_lesson c) :=
                  JsonText {| data := None; content := Some md;
                              headings := Some (Toc.buildTree_spec (Toc.matched_headings md));
                              timestamp := Some now |}]>
                (items (storage (world sys)));
            getItem_error := getItem_error (storage (world sys));
            setItem_error := setItem_error (storage (world sys)) |}
         (world sys),
       Settled (Resolved
                  {| markdown := Some md;
                     lesson_headings :=
                       Some (Toc.buildTree_spec (Toc.matched_headings md)) |})).
Proof.
  intros Hi Hc Hset. unfold step, fetchLessonContent_on_body, setItem.
  rewrite Hi, Hc, TocFacts.extractHeadings_total, Hset. reflexivity.
Qed.

(** The effect runs for [lesson], runs again before the first call has
    settled, and the network then answers both requests. *)
Lemma rerun_effect_trace (w0 : World) (lesson : Lesson) (t0 t1 t2 t3 : Z)
      (response : Response) (md : string) :
  getItem_error (storage w0) = None ->
  setItem_error (storage w0) = None ->
  items (storage w0) !! cacheKey lesson = None ->
  ok response = true ->
  let sys :=
    run (rerun_effect (step (init w0) (CallLoader lesson t0)) lesson t1)
        [FetchSettles 0 (Fulfilled response); FetchSettles 1 (Fulfilled response);
         BodySettles 0 (Fulfilled md) t2; BodySettles 1 (Fulfilled md) t3] in
  resolved_count sys = 1
  /\ cache_writes <$> calls sys = [0; 1]
  /\ writes (world sys) = writes w0 ++ [cacheKey lesson]
  /\ contentError (ui sys) = None.
Proof.
  intros Hget Hset Hitem Hok sys.
  assert (exists w c1 u,
             sys = {| world := w;
                      calls := [ {| call_lesson := lesson;
                                    call_state := Settled (Rejected abort_reason);
                                    cache_writes := 0 |}; c1 ];
                      ui := u |}
             /\ is_resolved c1 = true /\ cache_writes c1 = 1
             /\ writes w = writes w0 ++ [cacheKey lesson]
             /\ contentError u = None) as (w & c1 & u & -> & Hres & Hcw & Hw & Hu).
  { subst sys. unfold rerun_effect, run. cbn [foldl].
    rewrite (step_call_miss (init w0) lesson t0 Hget Hitem).
    cbn [calls init app length Nat.sub].
    erewrite (step_abort_pending _ 0) by reflexivity.
    unfold resume at 1. cbn [call_lesson cache_writes world calls ui notify].
    rewrite step_call_miss by assumption.
    cbn [calls world app].
    erewrite (step_fetch_settled _ 0) by reflexivity.
    erewrite (step_fetch_ok _ 1) by (reflexivity || assumption).
    unfold resume at 1. cbn [call_lesson cache_writes world calls ui notify].
    erewrite (step_body_settled _ 0) by reflexivity.
    erewrite (step_body_ok _ 1) by (reflexivity || assumption).
    unfold resume at 1. cbn [call_lesson cache_writes world calls ui notify].
    do 3 eexists. split.
    { cbn -[Toc.buildTree_spec Toc.matched_headings cacheKey Nat.sub].
      rewrite !Nat.sub_diag. reflexivity. }
    cbn -[Toc.buildTree_spec Toc.matched_headings cacheKey Nat.sub].
    rewrite length_app. cbn [length].
    repeat split; lia. }
  unfold resolved_count. cbn [calls filter list_filter].
  rewrite decide_False by (cbn; tauto).
  rewrite decide_True by (rewrite Hres; exact I).
  cbn. rewrite Hcw. repeat split; assumption.
Qed.

End RouteSteps.

Section RouteTheorems.
Import Content Storage Loader LessonRoute RouteFacts.

(** C2 (as amended).  Cancellation comes from the signal that the caller
    passes, not from the loader.  A call whose controller is aborted (with
    the default reason) while its request or its body read is pending writes
    nothing to the cache and is rejected with that [AbortError], which
    [loadContent] swallows: [contentError] stays as it was; whatever happens
    later, the call stays rejected and never writes.  When the effect of the
    route runs again for the slug before the first call has settled, its
    cleanup aborts the first call: exactly one call resolves, and the cache
    is written once, by the second call. *)
Theorem aborted_call_is_silent
        (w0 : World) (before after : list Event) (i : nat) (c : Call) (p : Await) :
  calls (run (init w0) before) !! i = Some c ->
  call_state c = Suspended p ->
  (world (step (run (init w0) before) (Abort i abort_reason))
   = world (run (init w0) before)
   /\ contentError (ui (step (run (init w0) before) (Abort i abort_reason)))
      = contentError (ui (run (init w0) before))
   /\ calls (run (step (run (init w0) before) (Abort i abort_reason)) after) !! i
      = Some {| call_lesson := call_lesson c;
                call_state := Settled (Rejected abort_reason);
                cache_writes := 0 |})
  /\ (forall (lesson : Lesson) (t0 t1 t2 t3 : Z) (response : Response) (md : string),
        getItem_error (storage w0) = None ->
        setItem_error (storage w0) = None ->
        items (storage w0) !! cacheKey lesson = None ->
        ok response = true ->
        let sys :=
          run (rerun_effect (step (init w0) (CallLoader lesson t0)) lesson t1)
              [FetchSettles 0 (Fulfilled response); FetchSettles 1 (Fulfilled response);
               BodySettles 0 (Fulfilled md) t2; BodySettles 1 (Fulfilled md) t3] in
        resolved_count sys = 1
        /\ cache_writes <$> calls sys = [0; 1]
        /\ writes (world sys) = writes w0 ++ [cacheKey lesson]
        /\ contentError (ui sys) = None).
Proof.
  intros Hi Hp. split.
  - pose proof (run_pending_unwritten before _ (init_pending_unwritten w0) i c p Hi Hp)
      as Hzero.
    rewrite (RouteSteps.step_abort_pending _ i c p Hi Hp).
    unfold resume. simpl. repeat split.
    eapply run_keeps_settled; [| reflexivity]. simpl.
    rewrite list_lookup_insert_eq by (eapply lookup_lt_Some; eauto).
    rewrite Hzero, Nat.sub_diag. reflexivity.
  - intros lesson t0 t1 t2 t3 response md Hget Hset Hitem Hok.
    apply RouteSteps.rerun_effect_trace; assumption.
Qed.

End RouteTheorems.

(** * The claims on extraction, the tree and the renderer *)

(** C3.  [extractHeadings] returns the line "## not a heading" of a fenced
    code block as a heading of depth 2. *)
Theorem extractHeadings_reads_fenced_lines :
  Toc.extractHeadings Examples.fenced_source
  = Some [Toc.Node "not-a-heading" 2 "not a heading" []].
Proof. vm_compute. reflexivity. Qed.

(** C9.  On headings as [extractHeadings] pushes them, [buildHeadingTree]
    returns the forest of the single-pass stack algorithm of the
    specification; for five headings of depths 2, 3, 3, 2, 4 that is the first
    with the second and third as children, then the fourth with the fifth as
    child. *)
Theorem buildHeadingTree_follows_stack_algorithm (hs : list Toc.TOCHeading) :
  Forall TocStore.flat_heading hs ->
  Toc.buildHeadingTree hs = Some (Toc.buildTree_spec hs)
  /\ (Toc.depth <$> hs = [2; 3; 3; 2; 4] ->
      exists a b c d e,
        hs = [a; b; c; d; e]
        /\ Toc.buildHeadingTree hs
           = Some [Toc.node a [Toc.leaf b; Toc.leaf c]; Toc.node d [Toc.leaf e]]).
Proof.
  intros Hflat. split; [apply TocFacts.buildHeadingTree_refines, Hflat |].
  intros Hdepths.
  destruct hs as [|a [|b [|c [|d [|e [|]]]]]]; try discriminate Hdepths.
  exists a, b, c, d, e. split; [reflexivity |].
  rewrite (TocFacts.buildHeadingTree_refines _ Hflat).
  injection Hdepths as Ha Hb Hc Hd He.
  unfold Toc.buildTree_spec, Toc.node, Toc.leaf.
  do 6 (simpl; rewrite ?Ha, ?Hb, ?Hc, ?Hd, ?He).
  unfold Toc.leaf. rewrite ?Hb, ?Hc, ?He. reflexivity.
Qed.

(** C1.  Raw HTML of the Markdown source comes out of the pipeline verbatim:
    the output for the source [<script>alert(1)</script>] is that script
    element, not the escaped text that rehype-stringify writes without the
    option. *)
Theorem MarkdownRenderer_keeps_raw_html :
  (forall v, Render.processed_html [Render.MdHtml v] = v)
  /\ Render.processed_html [Render.MdHtml Examples.script_source]
     = "<script>alert(1)</script>"
  /\ Render.escaped_html [Render.MdHtml Examples.script_source]
     = "&lt;script>alert(1)&lt;/script>".
Proof.
  split; [| split; vm_compute; reflexivity].
  intros v. unfold Render.processed_html. simpl.
  induction v as [|c v IH]; [reflexivity |].
  change (String c (v +:+ EmptyString) = String c v). f_equal. exact IH.
Qed.

(** * Counterexamples and instances *)

Section Instances.
Import Content Storage Loader LessonRoute Examples.
Local Open Scope Z_scope.

(** C2 (counterexample).  A second call for the same slug does not abort
    the first: both calls stay pending, both resolve and both write the
    cache. *)
Lemma overlapping_calls_both_resolve :
  call_state <$> calls (run (init empty_world) two_calls)
  = [Suspended AwaitFetch; Suspended AwaitFetch]
  /\ resolved_count (run (init empty_world) (two_calls ++ two_answers)) = 2%nat
  /\ cache_writes <$> calls (run (init empty_world) (two_calls ++ two_answers))
     = [1%nat; 1%nat]
  /\ writes (world (run (init empty_world) (two_calls ++ two_answers)))
     = [cacheKey intro; cacheKey intro].
Proof. vm_compute. repeat split. Qed.

(** C2 (instance).  The only call is aborted while its request is pending and
    the answers of the network that come later change nothing; and the effect
    that runs twice for the same lesson on an empty cache leaves one resolved
    call. *)
Lemma aborted_call_is_silent_instance :
  calls (run (step (run (init empty_world) [CallLoader intro 1000])
                   (Abort 0 abort_reason))
             [FetchSettles 0 (Fulfilled ok_response);
              BodySettles 0 (Fulfilled "## A") 1002]) !! 0%nat
  = Some {| call_lesson := intro;
            call_state := Settled (Rejected abort_reason);
            cache_writes := 0 |}
  /\ resolved_count
       (run (rerun_effect (step (init empty_world) (CallLoader intro 1000)) intro 1001)
            [FetchSettles 0 (Fulfilled ok_response); FetchSettles 1 (Fulfilled ok_response);
             BodySettles 0 (Fulfilled "## A") 1002; BodySettles 1 (Fulfilled "## A") 1003])
     = 1%nat.
Proof.
  destruct (aborted_call_is_silent empty_world [CallLoader intro 1000]
              [FetchSettles 0 (Fulfilled ok_response);
               BodySettles 0 (Fulfilled "## A") 1002]
              0%nat
              {| call_lesson := intro; call_state := Suspended AwaitFetch;
                 cache_writes := 0 |}
              AwaitFetch) as [(_ & _ & Hstays) Hrerun]; [reflexivity | reflexivity |].
  split; [exact Hstays |].
  apply (Hrerun intro 1000 1001 1002 1003 ok_response "## A"); reflexivity.
Defined.

(** The timeout of [createAbortController] aborts with a string: the loader
    wraps it as an unknown error and the route shows it. *)
Lemma timeout_abort_sets_contentError :
  contentError (ui (run (init empty_world)
                        [CallLoader intro 1000; Abort 0 timeout_reason]))
  = Some (lesson_what intro ++ ": Unknown error")%string.
Proof. vm_compute. reflexivity. Qed.

(** C4 (counterexample).  Two payloads that violate the required shape, the
    empty object and a manifest whose two lessons share their slug and their
    order, are returned and cached; the third payload shows the shape that is
    required. *)
Lemma fetchContentManifest_accepts_any_payload :
  ManifestShape.valid_shape manifest3_payload = true
  /\ ManifestShape.valid_shape duplicate_payload = false
  /\ ManifestShape.valid_shape empty_payload = false
  /\ snd (fetchContentManifest (manifest_network duplicate_payload) 1000 1001 empty_world)
     = Settled (Resolved (Some duplicate_payload))
  /\ snd (fetchContentManifest (manifest_network empty_payload) 1000 1001 empty_world)
     = Settled (Resolved (Some empty_payload))
  /\ items (storage (fst (fetchContentManifest (manifest_network empty_payload)
                            1000 1001 empty_world))) !! MANIFEST_CACHE_KEY
     = Some (JsonText {| data := Some empty_payload; content := None;
                         headings := None; timestamp := Some 1001 |}).
Proof. vm_compute. repeat split. Qed.

(** C4 (instance).  The empty object as payload, on an empty cache. *)
Lemma fetchContentManifest_caches_unvalidated_instance :
  snd (fetchContentManifest (manifest_network empty_payload) 1000 1001 empty_world)
  = Settled (Resolved (Some empty_payload)).
Proof.
  rewrite (fetchContentManifest_caches_unvalidated
             empty_world (manifest_network empty_payload) ok_response
             empty_payload 1000 1001); reflexivity.
Defined.

(** C7 (the failing runs).  With a [sessionStorage] whose [getItem] throws
    a SecurityError, or whose [setItem] throws a QuotaExceededError, and a
    network that answers, the loaders reject. *)
Lemma loaders_fail_without_session_storage :
  snd (fetchContentManifest (manifest_network manifest3_payload) 1000 1001 unreadable_world)
  = Settled (Rejected (ThrownError
       {| name := "Error";
          message := "Failed to load content manifest: The operation is insecure." |}))
  /\ snd (fetchLessonContent intro (lesson_network "## A") 1000 1001 unreadable_world)
     = Settled (Rejected (ThrownError
          {| name := "Error";
             message := lesson_what intro ++ ": The operation is insecure." |}))
  /\ snd (fetchLessonContent intro (lesson_network "## A") 1000 1001 unwritable_world)
     = Settled (Rejected (ThrownError
          {| name := "Error";
             message := lesson_what intro ++ ": The quota has been exceeded." |})).
Proof. vm_compute. repeat split. Qed.

(** C7 (instance).  A storage that denies every access, and a storage
    whose quota is exhausted. *)
Lemma loaders_reject_when_storage_throws_instance :
  fetchContentManifest (manifest_network manifest3_payload) 1000 1001 unreadable_world
  = (unreadable_world,
     Settled (Rejected (ThrownError
        {| name := "Error";
           message := manifest_what ++ ": " ++ message security_error |})))
  /\ snd (fetchLessonContent intro (lesson_network "## A") 1000 1001 unwritable_world)
     = Settled (Rejected (ThrownError
          {| name := "Error";
             message := lesson_what intro ++ ": " ++ message quota_error |})).
Proof.
  split.
  - refine (proj1 (proj1
             (loaders_reject_when_storage_throws unreadable_world security_error intro
                (manifest_network manifest3_payload) (lesson_network "## A") 1000 1001 _) _));
      [discriminate | reflexivity].
  - refine (proj2 (proj2
             (loaders_reject_when_storage_throws unwritable_world quota_error intro
                (manifest_network manifest3_payload) (lesson_network "## A") 1000 1001 _)
             _ _ ok_response manifest3_payload "## A" _ _ _ _ _ _ _));
      (discriminate || reflexivity).
Defined.

(** C8 (counterexample).  An entry stored with the timestamp 0 is read at
    time 1000, long before the expiry, and the loader goes to the network. *)
Lemma zero_timestamp_entry_is_refetched :
  1000 - 0 < CACHE_EXPIRY
  /\ items (storage (cached_world 0)) !! cacheKey intro
     = Some (JsonText (lesson_entry "cached text" 0))
  /\ fetchLessonContent_start intro None 1000 (cached_world 0)
     = (log_request (mdPath intro) (cached_world 0), Suspended AwaitFetch).
Proof. split; [reflexivity |]. vm_compute. split; reflexivity. Qed.

(** C8 (instance).  An entry written at time 1000 is served at time 2000 and
    refetched at time 1801000, exactly 30 minutes after it was written. *)
Lemma cache_entry_valid_for_thirty_minutes_instance :
  fetchLessonContent intro (lesson_network "new text") 2000 2001 (cached_world 1000)
  = (cached_world 1000,
     Settled (Resolved {| markdown := Some "cached text"; lesson_headings := Some [] |}))
  /\ fetchLessonContent_start intro None 1801000 (cached_world 1000)
     = (log_request (mdPath intro) (cached_world 1000), Suspended AwaitFetch).
Proof.
  split.
  - destruct (cache_entry_valid_for_thirty_minutes
                (cached_world 1000) intro (lesson_entry "cached text" 1000)
                1000 2000 2001 (lesson_network "new text") (manifest_network manifest3_payload))
      as (_ & Hlesson & _); [reflexivity | reflexivity | discriminate |].
    destruct Hlesson as [Hhit _]; [reflexivity |].
    apply Hhit. reflexivity.
  - destruct (cache_entry_valid_for_thirty_minutes
                (cached_world 1000) intro (lesson_entry "cached text" 1000)
                1000 1801000 2001 (lesson_network "new text") (manifest_network manifest3_payload))
      as (_ & Hlesson & _); [reflexivity | reflexivity | discriminate |].
    destruct Hlesson as [_ Hmiss]; [reflexivity |].
    destruct Hmiss as [Hstart _]; [discriminate | exact Hstart].
Defined.

(** C9 (instance).  The headings A, B, C, D, E of depths 2, 3, 3, 2, 4. *)
Lemma buildHeadingTree_abcde :
  Toc.buildHeadingTree abcde
  = Some [Toc.Node "a" 2 "A" [Toc.Node "b" 3 "B" []; Toc.Node "c" 3 "C" []];
          Toc.Node "d" 2 "D" [Toc.Node "e" 4 "E" []]].
Proof.
  destruct (buildHeadingTree_follows_stack_algorithm abcde) as [Hspec _];
    [repeat constructor |].
  rewrite Hspec. reflexivity.
Defined.

(** C10 (instance).  The middle lesson of three, and a slug that no lesson
    has. *)
Lemma getLessonNavigation_manifest3 :
  Navigation.getLessonNavigation manifest3 "types"
  = Ok {| previous := Some (Navigation.link intro);
          next := Some (Navigation.link indexes) |}
  /\ Navigation.getLessonNavigation manifest3 "missing"
     = Ok {| previous := None; next := None |}.
Proof.
  split.
  - destruct (proj2 (getLessonNavigation_adjacent manifest3 "types") 1%nat types)
      as (nav & Hnav & _ & _ & Hprev & Hnext).
    { repeat split. intros j l' Hj Hl'.
      destruct j as [|j]; [| lia]. injection Hl' as <-. discriminate. }
    rewrite Hnav. destruct nav as [pv nx]. simpl in Hprev, Hnext. subst. reflexivity.
  - apply (proj1 (getLessonNavigation_adjacent manifest3 "missing")).
    intros l Hl. simpl in Hl.
    repeat (apply elem_of_cons in Hl as [->|Hl]; [discriminate |]).
    by apply elem_of_nil in Hl.
Defined.

End Instances.

(** * Facts for the further properties *)

Module SlugShapeFacts.
Import JsString Slug SlugShape SlugFacts.

Lemma chars_str l : chars (str l) = l.
Proof. apply String.list_ascii_of_string_of_list_ascii. Qed.

Lemma str_chars s : str (chars s) = s.
Proof. apply String.string_of_list_ascii_of_string. Qed.

Lemma id_char_lower c : id_char c = true -> lower_char c = c.
Proof. by_cases_on c. Qed.

Lemma id_char_slug c : id_char c = true -> slug_char c = true.
Proof. by_cases_on c. Qed.

Lemma id_char_not_space c : id_char c = true -> is_space c = false.
Proof. by_cases_on c. Qed.

Lemma slug_not_space_id c : slug_char c = true -> is_space c = false -> id_char c = true.
Proof. by_cases_on c. Qed.

Lemma is_hyphen_eq c : is_hyphen c = true -> c = hyphen.
Proof. by_cases_on c. Qed.

Lemma Forall_filter_keep (p : ascii -> bool) s :
  Forall (fun c => p c = true) (remove_outside p s).
Proof.
  unfold remove_outside. apply Forall_forall. intros c Hc.
  apply list_elem_of_filter in Hc as [Hc _]. apply Is_true_true, Hc.
Qed.

Lemma replace_runs_class p r (q : ascii -> bool) s : forall b,
  q r = true ->
  Forall (fun c => p c = false -> q c = true) s ->
  Forall (fun c => q c = true) (replace_runs p r b s).
Proof.
  induction s as [|c s IH]; intros b Hr H; simpl; [constructor |].
  inversion H as [|? ? Hc Hs]; subst.
  destruct (p c) eqn:E.
  - destruct b; [apply IH; assumption | constructor; [exact Hr | apply IH; assumption]].
  - constructor; [apply Hc; reflexivity | apply IH; assumption].
Qed.

Lemma drop_leading_Forall (P : ascii -> Prop) s :
  Forall P s -> Forall P (drop_leading_hyphen s).
Proof.
  destruct s as [|c s]; simpl; [auto |]. intros H.
  destruct (is_hyphen c); [inversion H; assumption | exact H].
Qed.

Lemma drop_trailing_Forall (P : ascii -> Prop) s :
  Forall P s -> Forall P (drop_trailing_hyphen s).
Proof.
  rewrite drop_trailing_rev. intros H.
  apply Forall_rev, drop_leading_Forall, Forall_rev, H.
Qed.

Lemma generateHeadingId_chars_class t :
  Forall (fun c => id_char c = true) (generateHeadingId_chars t).
Proof.
  unfold generateHeadingId_chars, replace_edge_hyphens.
  apply drop_trailing_Forall, drop_leading_Forall.
  apply replace_runs_class; [reflexivity |].
  eapply Forall_impl.
  - apply (replace_runs_class is_space hyphen id_char); [reflexivity |].
    eapply Forall_impl; [apply (Forall_filter_keep slug_char) |].
    intros c Hc Hs. simpl in *. apply slug_not_space_id; assumption.
  - intros c Hc _. exact Hc.
Qed.

(** *** The ends *)

Lemma drop_while_starts p s : starts_outside p (drop_while p s).
Proof.
  induction s as [|c s IH]; simpl; [exact I |].
  destruct (p c) eqn:E; [exact IH | exact E].
Qed.

Lemma drop_while_id p s : starts_outside p s -> drop_while p s = s.
Proof. destruct s as [|c s]; simpl; [reflexivity |]. intros ->. reflexivity. Qed.

Lemma drop_while_snoc p s c :
  p c = false -> drop_while p (s ++ [c]) = drop_while p s ++ [c].
Proof.
  intros Hc. induction s as [|a s IH]; simpl; [rewrite Hc; reflexivity |].
  destruct (p a); [exact IH | reflexivity].
Qed.

Lemma strip_end_starts p s :
  starts_outside p s -> starts_outside p (rev (drop_while p (rev s))).
Proof.
  destruct s as [|c s]; simpl; [intros _; exact I |].
  intros Hc. rewrite (drop_while_snoc p (rev s) c Hc).
  rewrite rev_app_distr. simpl. exact Hc.
Qed.

Lemma strip_starts p s : starts_outside p (strip_class p s).
Proof. apply strip_end_starts, drop_while_starts. Qed.

Lemma strip_ends p s : starts_outside p (rev (strip_class p s)).
Proof. unfold strip_class. rewrite rev_involutive. apply drop_while_starts. Qed.

Lemma strip_id p s : starts_outside p s -> starts_outside p (rev s) -> strip_class p s = s.
Proof.
  intros H1 H2. unfold strip_class.
  rewrite (drop_while_id p s H1), (drop_while_id p (rev s) H2). apply rev_involutive.
Qed.

Lemma strip_idempotent p s : strip_class p (strip_class p s) = strip_class p s.
Proof. apply strip_id; [apply strip_starts | apply strip_ends]. Qed.

Lemma generateHeadingId_chars_trimmed t :
  generateHeadingId_chars t
  = strip_class is_hyphen
      (replace_runs is_hyphen hyphen false
         (replace_runs is_space hyphen false
            (remove_outside slug_char (toLowerCase t)))).
Proof.
  unfold generateHeadingId_chars. apply replace_edge_is_trim.
  apply generateHeadingId_no_adjacent_hyphens.
Qed.

Lemma generateHeadingId_chars_no_adjacent t :
  no_adjacent is_hyphen (generateHeadingId_chars t).
Proof.
  unfold generateHeadingId_chars, replace_edge_hyphens.
  rewrite drop_trailing_rev.
  apply no_adjacent_rev, no_adjacent_drop_leading, no_adjacent_rev,
    no_adjacent_drop_leading, generateHeadingId_no_adjacent_hyphens.
Qed.

(** *** A second pass changes nothing *)

Lemma toLowerCase_id s : Forall (fun c => id_char c = true) s -> toLowerCase s = s.
Proof.
  unfold toLowerCase. induction 1 as [|c s Hc _ IH]; simpl; [reflexivity |].
  rewrite IH, (id_char_lower c Hc). reflexivity.
Qed.

Lemma remove_outside_id (p : ascii -> bool) s :
  Forall (fun c => p c = true) s -> remove_outside p s = s.
Proof.
  unfold remove_outside. induction 1 as [|c s Hc _ IH]; [reflexivity |].
  rewrite filter_cons_True by (apply Is_true_true, Hc). rewrite IH. reflexivity.
Qed.

Lemma replace_runs_none p r s : forall b,
  Forall (fun c => p c = false) s -> replace_runs p r b s = s.
Proof.
  induction s as [|c s IH]; intros b H; simpl; [reflexivity |].
  inversion H as [|? ? Hc Hs]; subst. rewrite Hc, (IH false Hs). reflexivity.
Qed.

Lemma replace_runs_collapsed p r s : forall b,
  (forall c, p c = true -> c = r) ->
  no_adjacent p s -> (b = true -> starts_outside p s) ->
  replace_runs p r b s = s.
Proof.
  induction s as [|c s IH]; intros b Hr Hs Hb; simpl; [reflexivity |].
  simpl in Hs. destruct Hs as [H1 H2].
  destruct (p c) eqn:E.
  - destruct b; [specialize (Hb eq_refl); simpl in Hb; congruence |].
    rewrite (Hr c E). f_equal. apply IH; [exact Hr | exact H2 |].
    intros _. destruct s as [|c2 s]; simpl; [exact I |].
    destruct (p c2) eqn:E2; [| reflexivity]. exfalso. apply H1. auto.
  - f_equal. apply IH; [exact Hr | exact H2 | discriminate].
Qed.

Lemma generateHeadingId_chars_fixed s :
  Forall (fun c => id_char c = true) s ->
  no_adjacent is_hyphen s ->
  starts_outside is_hyphen s -> starts_outside is_hyphen (rev s) ->
  generateHeadingId_chars s = s.
Proof.
  intros Hclass Hadj Hstart Hend.
  rewrite generateHeadingId_chars_trimmed.
  rewrite (toLowerCase_id s Hclass).
  rewrite remove_outside_id
    by (eapply Forall_impl; [exact Hclass | intros c; apply id_char_slug]).
  rewrite (replace_runs_none is_space)
    by (eapply Forall_impl; [exact Hclass | intros c; apply id_char_not_space]).
  rewrite replace_runs_collapsed; [| apply is_hyphen_eq | exact Hadj | discriminate].
  apply strip_id; assumption.
Qed.

Lemma generateHeadingId_chars_idempotent t :
  generateHeadingId_chars (generateHeadingId_chars t) = generateHeadingId_chars t.
Proof.
  apply generateHeadingId_chars_fixed.
  - apply generateHeadingId_chars_class.
  - apply generateHeadingId_chars_no_adjacent.
  - rewrite generateHeadingId_chars_trimmed. apply strip_starts.
  - rewrite generateHeadingId_chars_trimmed. apply strip_ends.
Qed.

(** *** Letters and digits survive, nothing else does *)

Lemma core_slug c : core c = true -> slug_char c = true.
Proof. by_cases_on c. Qed.

Lemma space_not_core c : is_space c = true -> core c = false.
Proof. by_cases_on c. Qed.

Lemma hyphen_not_core c : is_hyphen c = true -> core c = false.
Proof. by_cases_on c. Qed.

Lemma cores_cons_false c s : core c = false -> cores (c :: s) = cores s.
Proof.
  intros H. unfold cores. apply filter_cons_False. rewrite H. exact id.
Qed.

Lemma cores_cons_true c s : core c = true -> cores (c :: s) = c :: cores s.
Proof.
  intros H. unfold cores. apply filter_cons_True. rewrite H. exact I.
Qed.

Lemma cores_remove_outside s : cores (remove_outside slug_char s) = cores s.
Proof.
  unfold remove_outside. induction s as [|c s IH]; [reflexivity |].
  destruct (slug_char c) eqn:E.
  - rewrite (filter_cons_True _ c s) by (rewrite E; exact I).
    destruct (core c) eqn:Ec.
    + rewrite !cores_cons_true by exact Ec. rewrite IH. reflexivity.
    + rewrite !cores_cons_false by exact Ec. exact IH.
  - rewrite (filter_cons_False _ c s) by (rewrite E; exact id).
    rewrite cores_cons_false; [exact IH |].
    destruct (core c) eqn:Ec; [| reflexivity]. rewrite (core_slug c Ec) in E. discriminate.
Qed.

Lemma cores_replace_runs p r s : forall b,
  core r = false -> (forall c, p c = true -> core c = false) ->
  cores (replace_runs p r b s) = cores s.
Proof.
  induction s as [|c s IH]; intros b Hr Hp; simpl; [reflexivity |].
  destruct (p c) eqn:E.
  - rewrite (cores_cons_false c s) by (apply Hp, E).
    destruct b; [apply IH; assumption |].
    rewrite cores_cons_false by exact Hr. apply IH; assumption.
  - destruct (core c) eqn:Ec.
    + rewrite !cores_cons_true by exact Ec. f_equal. apply IH; assumption.
    + rewrite !cores_cons_false by exact Ec. apply IH; assumption.
Qed.

Lemma cores_drop_leading s : cores (drop_leading_hyphen s) = cores s.
Proof.
  destruct s as [|c s]; simpl; [reflexivity |].
  destruct (is_hyphen c) eqn:E; [| reflexivity].
  rewrite cores_cons_false by (apply hyphen_not_core, E). reflexivity.
Qed.

Lemma cores_rev s : cores (rev s) = rev (cores s).
Proof.
  unfold cores. induction s as [|c s IH]; [reflexivity |].
  simpl. rewrite filter_app, IH.
  destruct (core c) eqn:Ec.
  - rewrite (filter_cons_True _ c s) by (rewrite Ec; exact I).
    rewrite (filter_cons_True _ c []) by (rewrite Ec; exact I). reflexivity.
  - rewrite (filter_cons_False _ c s) by (rewrite Ec; exact id).
    rewrite (filter_cons_False _ c []) by (rewrite Ec; exact id).
    rewrite filter_nil. apply app_nil_r.
Qed.

Lemma cores_drop_trailing s : cores (drop_trailing_hyphen s) = cores s.
Proof.
  rewrite drop_trailing_rev, cores_rev, cores_drop_leading, cores_rev.
  apply rev_involutive.
Qed.

(** The letters and digits of the lowercased text are the letters and
    digits of the id, in the same order. *)
Lemma cores_generateHeadingId_chars t :
  cores (generateHeadingId_chars t) = cores (toLowerCase t).
Proof.
  unfold generateHeadingId_chars, replace_edge_hyphens.
  rewrite cores_drop_trailing, cores_drop_leading.
  rewrite cores_replace_runs; [| reflexivity | apply hyphen_not_core].
  rewrite cores_replace_runs; [| reflexivity | apply space_not_core].
  apply cores_remove_outside.
Qed.

Lemma cores_nil s : cores s = [] <-> Forall (fun c => core c = false) s.
Proof.
  induction s as [|c s IH]; [split; [constructor | reflexivity] |].
  destruct (core c) eqn:E.
  - rewrite cores_cons_true by exact E.
    split; [discriminate | intros H; inversion H; congruence].
  - rewrite cores_cons_false by exact E. rewrite IH.
    split; [intros H; constructor; assumption | intros H; inversion H; assumption].
Qed.

Lemma hyphens_collapsed s :
  Forall (fun c => is_hyphen c = true) s -> no_adjacent is_hyphen s ->
  s = [] \/ exists c, s = [c].
Proof.
  destruct s as [|c [|c2 s]]; [auto | eauto |].
  intros H [Hadj _]. exfalso. apply Hadj.
  inversion H as [|? ? Hc Hs]; subst. inversion Hs; subst. auto.
Qed.

Lemma no_cores_all_hyphens s :
  Forall (fun c => id_char c = true) s -> cores s = [] ->
  Forall (fun c => is_hyphen c = true) s.
Proof.
  induction 1 as [|c s Hc _ IH]; [constructor |].
  destruct (core c) eqn:Ec.
  - rewrite cores_cons_true by exact Ec. discriminate.
  - rewrite cores_cons_false by exact Ec. intros H. constructor; [| apply IH, H].
    unfold id_char in Hc. unfold core in Ec. rewrite Ec in Hc. exact Hc.
Qed.

(** The id is empty exactly when the lowercased text holds no letter and no
    digit. *)
Lemma generateHeadingId_chars_nil t :
  generateHeadingId_chars t = []
  <-> Forall (fun c => core c = false) (toLowerCase t).
Proof.
  rewrite <- cores_nil, <- cores_generateHeadingId_chars. split.
  - intros ->. reflexivity.
  - intros H.
    pose proof (no_cores_all_hyphens _ (generateHeadingId_chars_class t) H) as Hh.
    destruct (hyphens_collapsed _ Hh (generateHeadingId_chars_no_adjacent t))
      as [E | [c E]]; [exact E |].
    exfalso. pose proof (strip_starts is_hyphen
      (replace_runs is_hyphen hyphen false
         (replace_runs is_space hyphen false
            (remove_outside slug_char (toLowerCase t))))) as Hs.
    rewrite <- generateHeadingId_chars_trimmed, E in Hs. simpl in Hs.
    rewrite E in Hh. inversion Hh; congruence.
Qed.

End SlugShapeFacts.

Module TocShapeFacts.
Import Toc TocStore TocShape.

Lemma flatten_app f1 f2 : flatten (f1 ++ f2) = flatten f1 ++ flatten f2.
Proof. unfold flatten. rewrite fmap_app, join_app. reflexivity. Qed.

Lemma flatten_single n : flatten [n] = flatten_node n.
Proof. unfold flatten. simpl. apply app_nil_r. Qed.

Lemma alter_last {A} (f : A -> A) (init : list A) (x : A) :
  alter f (length init) (init ++ [x]) = init ++ [f x].
Proof. induction init as [|a init IH]; simpl; [reflexivity | f_equal; exact IH]. Qed.

Lemma rightmost_add p : forall forest n,
  rightmost p forest ->
  flatten (add_last_child p n forest) = flatten forest ++ flatten_node n.
Proof.
  induction p as [|k p IH]; intros forest n H; simpl.
  - rewrite flatten_app, flatten_single. reflexivity.
  - destruct H as (init & i & d & t & cs & -> & -> & Hr).
    rewrite alter_last. simpl. rewrite !flatten_app, !flatten_single. simpl.
    fold (flatten (add_last_child p n cs)). fold (flatten cs).
    rewrite (IH _ _ Hr). rewrite <- app_assoc. reflexivity.
Qed.

Lemma rightmost_new p : forall forest n,
  rightmost p forest ->
  rightmost (p ++ [count_children p forest]) (add_last_child p n forest).
Proof.
  induction p as [|k p IH]; intros forest n H; simpl.
  - destruct n as [i d t cs]. exists forest, i, d, t, cs. auto.
  - destruct H as (init & i & d & t & cs & -> & -> & Hr).
    rewrite alter_last. simpl.
    rewrite lookup_app_r by lia. rewrite Nat.sub_diag. simpl.
    exists init, i, d, t, (add_last_child p n cs). auto.
Qed.

Lemma rightmost_below q : forall p forest n,
  rightmost p forest -> q `prefix_of` p ->
  rightmost q (add_last_child p n forest).
Proof.
  induction q as [|k q IH]; intros p forest n H Hq; simpl; [exact I |].
  destruct Hq as [rest ->]. simpl in H.
  destruct H as (init & i & d & t & cs & -> & -> & Hr).
  simpl. rewrite alter_last. simpl.
  exists init, i, d, t, (add_last_child (q ++ rest) n cs).
  repeat split. apply IH; [exact Hr | exists rest; reflexivity].
Qed.

Lemma spine_tail forest e below : spine forest (e :: below) -> spine forest below.
Proof. simpl. tauto. Qed.

Lemma spine_pop forest d stk : spine forest stk -> spine forest (pop_while_deeper d stk).
Proof.
  induction stk as [|[dtop p] below IH]; intros H; simpl; [exact I |].
  destruct (d <=? dtop); [apply IH, (spine_tail _ _ _ H) | exact H].
Qed.

Lemma spine_add forest p n stk :
  rightmost p forest ->
  Forall (fun b => snd b `prefix_of` p) stk ->
  spine forest stk ->
  spine (add_last_child p n forest) stk.
Proof.
  intros Hp. induction stk as [|e below IH]; intros Hpre H; simpl; [exact I |].
  destruct H as (He & Hne & Hbelow & Hs).
  inversion Hpre as [|? ? Hep Hrest]; subst.
  repeat split; auto. apply rightmost_below; assumption.
Qed.

Lemma spec_step_spine forest stk h :
  spine forest stk -> spine (fst (spec_step (forest, stk) h)) (snd (spec_step (forest, stk) h)).
Proof.
  intros H. unfold spec_step.
  pose proof (spine_pop forest (depth h) stk H) as Hpop.
  destruct (pop_while_deeper (depth h) stk) as [|[dtop p] below]; simpl.
  - repeat split; try done.
    exists forest, (id h), (depth h), (text h), []. auto.
  - simpl in Hpop. destruct Hpop as (Hp & Hne & Hbelow & Hs).
    assert (Forall (fun b => snd b `prefix_of` p) ((dtop, p) :: below)) as Hall.
    { constructor; [reflexivity | exact Hbelow]. }
    repeat split.
    + apply rightmost_new, Hp.
    + intros E. destruct p; discriminate E.
    + eapply Forall_impl; [exact Hall |]. intros b Hb. simpl in *.
      etrans; [exact Hb |]. apply prefix_app_r. reflexivity.
    + apply rightmost_below; [exact Hp | reflexivity].
    + exact Hne.
    + eapply Forall_impl; [exact Hbelow |]. auto.
    + apply spine_add; assumption.
Qed.

Lemma spec_loop_flatten hs : forall forest stk,
  spine forest stk ->
  flatten (fst (foldl spec_step (forest, stk) hs)) = flatten forest ++ (strip_children <$> hs).
Proof.
  induction hs as [|h hs IH]; intros forest stk H; cbn [foldl fmap list_fmap].
  - rewrite app_nil_r. reflexivity.
  - pose proof (spec_step_spine forest stk h H) as H'.
    destruct (spec_step (forest, stk) h) as [forest' stk'] eqn:E. simpl in H'.
    rewrite (IH _ _ H').
    assert (flatten forest' = flatten forest ++ [strip_children h]) as ->.
    { unfold spec_step in E. pose proof (spine_pop forest (depth h) stk H) as Hpop.
      destruct (pop_while_deeper (depth h) stk) as [|[dtop p] below].
      - inversion E; subst. rewrite flatten_app, flatten_single. reflexivity.
      - inversion E; subst. simpl in Hpop. destruct Hpop as [Hp _].
        rewrite (rightmost_add _ _ _ Hp). reflexivity. }
    rewrite <- app_assoc. reflexivity.
Qed.

Lemma strip_flat hs : Forall flat_heading hs -> strip_children <$> hs = hs.
Proof.
  induction 1 as [|h hs Hh _ IH]; [reflexivity |].
  rewrite fmap_cons, IH. f_equal. destruct h as [i d t c]. unfold flat_heading in Hh. simpl in Hh.
  subst. reflexivity.
Qed.

Lemma buildTree_spec_flatten hs :
  Forall flat_heading hs -> flatten (buildTree_spec hs) = hs.
Proof.
  intros Hflat. unfold buildTree_spec.
  rewrite (spec_loop_flatten hs [] [] I). simpl. apply strip_flat, Hflat.
Qed.

(** *** Children are deeper than their parent *)

Lemma node_depth_with_children f n : node_depth (with_children f n) = node_depth n.
Proof. destruct n; reflexivity. Qed.

Lemma add_keeps_depths p n forest :
  p <> [] -> node_depth <$> add_last_child p n forest = node_depth <$> forest.
Proof.
  destruct p as [|k p]; [done |]. intros _. simpl.
  apply list_eq. intros j. rewrite !list_lookup_fmap.
  destruct (decide (j = k)) as [->|Hne].
  - rewrite list_lookup_alter_eq. destruct (forest !! k); simpl; [| reflexivity].
    rewrite node_depth_with_children. reflexivity.
  - rewrite list_lookup_alter_ne by congruence. reflexivity.
Qed.

Lemma Forall_depth_fmap d (l l' : list HeadingNode) :
  node_depth <$> l' = node_depth <$> l ->
  Forall (fun c => d < node_depth c) l -> Forall (fun c => d < node_depth c) l'.
Proof.
  intros E H. apply (Forall_fmap node_depth (fun x => d < x)).
  rewrite E. apply Forall_fmap. exact H.
Qed.

Lemma nested_add p : forall forest n d0,
  Forall Nested forest ->
  depth_at p forest = Some d0 -> d0 < node_depth n -> Nested n ->
  Forall Nested (add_last_child p n forest).
Proof.
  induction p as [|k p IH]; intros forest n d0 HF Hd Hlt Hn; [discriminate Hd |].
  simpl in Hd. simpl.
  destruct (forest !! k) as [[i d t cs]|] eqn:Hk; [| discriminate Hd].
  apply Forall_lookup. intros j x Hj.
  destruct (decide (j = k)) as [->|Hne].
  - rewrite list_lookup_alter_eq, Hk in Hj. simpl in Hj. inversion Hj; subst x.
    pose proof (Forall_lookup_1 _ _ _ _ HF Hk) as HN.
    inversion HN as [? ? ? ? Hdeep Hcs]; subst.
    destruct p as [|k' p'].
    + inversion Hd; subst d0. simpl. constructor.
      * apply Forall_app. split; [exact Hdeep | constructor; [exact Hlt | constructor]].
      * apply Forall_app. split; [exact Hcs | constructor; [exact Hn | constructor]].
    + constructor.
      * eapply Forall_depth_fmap; [| exact Hdeep]. apply add_keeps_depths. done.
      * apply (IH cs n d0); assumption.
  - rewrite list_lookup_alter_ne in Hj by congruence.
    apply (Forall_lookup_1 _ _ _ _ HF Hj).
Qed.

Lemma depth_at_add q : forall p forest n d,
  depth_at q forest = Some d -> depth_at q (add_last_child p n forest) = Some d.
Proof.
  induction q as [|j q IH]; intros p forest n d H; [discriminate H |].
  destruct p as [|k p]; simpl in *.
  - destruct (forest !! j) as [[i0 d0 t0 cs0]|] eqn:Hj; [| discriminate H].
    rewrite (lookup_app_l_Some _ _ _ _ Hj). exact H.
  - destruct (forest !! j) as [[i0 d0 t0 cs0]|] eqn:Hj; [| discriminate H].
    destruct (decide (j = k)) as [->|Hne].
    + rewrite list_lookup_alter_eq, Hj. simpl.
      destruct q as [|j' q']; [exact H | apply IH, H].
    + rewrite list_lookup_alter_ne by congruence. rewrite Hj. exact H.
Qed.

Lemma depth_at_new p : forall forest n d,
  depth_at p forest = Some d ->
  depth_at (p ++ [count_children p forest]) (add_last_child p n forest)
  = Some (node_depth n).
Proof.
  induction p as [|k p IH]; intros forest n d H; [discriminate H |].
  simpl in *.
  destruct (forest !! k) as [[i0 d0 t0 cs0]|] eqn:Hk; [| discriminate H].
  rewrite list_lookup_alter_eq, Hk. simpl.
  destruct p as [|k' p'].
  - simpl. rewrite lookup_app_r by lia. rewrite Nat.sub_diag. simpl.
    destruct n; reflexivity.
  - change ((k' :: p') ++ [count_children (k' :: p') cs0])
      with (k' :: (p' ++ [count_children (k' :: p') cs0])).
    cbv iota beta.
    change (k' :: (p' ++ [count_children (k' :: p') cs0]))
      with ((k' :: p') ++ [count_children (k' :: p') cs0]).
    apply (IH cs0 n d H).
Qed.

Lemma pop_while_deeper_top d stk dtop p below :
  pop_while_deeper d stk = (dtop, p) :: below -> dtop < d.
Proof.
  induction stk as [|[d1 p1] stk IH]; simpl; [discriminate |].
  destruct (d <=? d1) eqn:E; [exact IH |].
  intros H. inversion H; subst. apply Nat.leb_gt in E. exact E.
Qed.

Lemma pop_while_deeper_sublist d stk : 
  forall e, e ∈ pop_while_deeper d stk -> e ∈ stk.
Proof.
  induction stk as [|[d1 p1] stk IH]; simpl; [auto |].
  intros e. destruct (d <=? d1); [| auto].
  intros H. apply elem_of_cons. right. apply IH, H.
Qed.

Lemma spec_step_nested forest stk h :
  Forall Nested forest -> depths_ok forest stk ->
  Forall Nested (fst (spec_step (forest, stk) h))
  /\ depths_ok (fst (spec_step (forest, stk) h)) (snd (spec_step (forest, stk) h)).
Proof.
  intros HF Hs. unfold spec_step.
  assert (depths_ok forest (pop_while_deeper (depth h) stk)) as Hpop.
  { apply Forall_forall. intros e He. unfold depths_ok in Hs. rewrite Forall_forall in Hs.
    apply Hs, (pop_while_deeper_sublist _ _ _ He). }
  pose proof (pop_while_deeper_top (depth h) stk) as Htop.
  destruct (pop_while_deeper (depth h) stk) as [|[dtop p] below]; simpl.
  - split.
    + apply Forall_app. split; [exact HF |]. repeat constructor.
    + constructor; [| constructor]. simpl.
      rewrite lookup_app_r by lia. rewrite Nat.sub_diag. reflexivity.
  - specialize (Htop dtop p below eq_refl).
    inversion Hpop as [|? ? Hp Hbelow]; subst. simpl in Hp.
    split.
    + apply (nested_add p forest (leaf h) dtop); try assumption.
      repeat constructor.
    + constructor; [| constructor].
      * simpl. apply (depth_at_new p forest (leaf h) dtop Hp).
      * simpl. apply depth_at_add, Hp.
      * eapply Forall_impl; [exact Hbelow |]. intros e He. apply depth_at_add, He.
Qed.

Lemma spec_loop_nested hs : forall forest stk,
  Forall Nested forest -> depths_ok forest stk ->
  Forall Nested (fst (foldl spec_step (forest, stk) hs)).
Proof.
  induction hs as [|h hs IH]; intros forest stk HF Hs; cbn [foldl]; [exact HF |].
  destruct (spec_step_nested forest stk h HF Hs) as [HF' Hs'].
  destruct (spec_step (forest, stk) h) as [forest' stk']. apply IH; assumption.
Qed.

Lemma buildTree_spec_nested hs : Forall Nested (buildTree_spec hs).
Proof. apply spec_loop_nested; constructor. Qed.

(** *** The top level *)

Lemma pop_empty_iff d stk :
  pop_while_deeper d stk = [] <-> Forall (fun e => d <= fst e) stk.
Proof.
  induction stk as [|[d1 p1] stk IH]; simpl.
  - split; [constructor | reflexivity].
  - destruct (d <=? d1) eqn:E.
    + apply Nat.leb_le in E. rewrite IH. split.
      * intros H. constructor; [exact E | exact H].
      * intros H. inversion H; assumption.
    + apply Nat.leb_gt in E. split; [discriminate |].
      intros H. inversion H; subst. simpl in *. lia.
Qed.

Lemma pop_keeps_last d stk :
  pop_while_deeper d stk <> [] -> last (pop_while_deeper d stk) = last stk.
Proof.
  induction stk as [|[d1 p1] stk IH]; simpl; [done |].
  destruct (d <=? d1); [| reflexivity].
  intros H. rewrite (IH H). 
  destruct stk as [|e stk]; [simpl in H; done | reflexivity].
Qed.

Lemma heading_of_with_children f n : heading_of (with_children f n) = heading_of n.
Proof. destruct n; reflexivity. Qed.

Lemma add_keeps_top p n forest :
  p <> [] -> heading_of <$> add_last_child p n forest = heading_of <$> forest.
Proof.
  destruct p as [|k p]; [done |]. intros _. simpl.
  apply list_eq. intros j. rewrite !list_lookup_fmap.
  destruct (decide (j = k)) as [->|Hne].
  - rewrite list_lookup_alter_eq. destruct (forest !! k); simpl; [| reflexivity].
    rewrite heading_of_with_children. reflexivity.
  - rewrite list_lookup_alter_ne by congruence. reflexivity.
Qed.

Lemma roots_inv_test seen stk d :
  roots_inv seen stk ->
  forallb (fun x => d <=? x) seen = true <-> pop_while_deeper d stk = [].
Proof.
  intros [Hin Hlast]. rewrite pop_empty_iff. rewrite forallb_forall. split.
  - intros H. apply Forall_forall. intros e He.
    rewrite Forall_forall in Hin. destruct (Hin e He) as [Hseen _].
    apply Nat.leb_le, H, list_elem_of_In, Hseen.
  - intros H x Hx. apply Nat.leb_le.
    destruct seen as [|x0 seen]; [destruct Hx |].
    destruct Hlast as (b & Hb & Hmin); [done |].
    rewrite Forall_forall in H. rewrite Forall_forall in Hmin.
    assert (b ∈ stk) as Hbs.
    { apply last_Some in Hb as [l' ->]. apply elem_of_app. right. apply list_elem_of_singleton. reflexivity. }
    specialize (H b Hbs). apply list_elem_of_In in Hx. specialize (Hmin x Hx). lia.
Qed.

Lemma spec_step_roots seen forest stk h :
  roots_inv seen stk ->
  roots_inv (depth h :: seen) (snd (spec_step (forest, stk) h))
  /\ heading_of <$> fst (spec_step (forest, stk) h)
     = (heading_of <$> forest)
         ++ (if forallb (fun d => depth h <=? d) seen then [strip_children h] else []).
Proof.
  intros Hinv. pose proof (roots_inv_test seen stk (depth h) Hinv) as Htest.
  destruct Hinv as [Hin Hlast]. unfold spec_step.
  assert (Forall (fun e => fst e ∈ seen /\ snd e <> []) (pop_while_deeper (depth h) stk))
    as Hpop.
  { apply Forall_forall. intros e He. rewrite Forall_forall in Hin.
    apply Hin, (pop_while_deeper_sublist _ _ _ He). }
  pose proof (pop_keeps_last (depth h) stk) as Hkeep.
  pose proof (pop_while_deeper_top (depth h) stk) as Htop.
  destruct (pop_while_deeper (depth h) stk) as [|[dtop p] below] eqn:E; simpl.
  - assert (forallb (fun d => depth h <=? d) seen = true) as Hall by (apply Htest; reflexivity).
    rewrite Hall. split.
    + split.
      * constructor; [| constructor]. simpl. split; [apply elem_of_cons; auto | done].
      * intros _. exists (depth h, [length forest]). split; [reflexivity |].
        constructor; [simpl; lia |].
        apply Forall_forall. intros x Hx. simpl.
        rewrite forallb_forall in Hall. apply Nat.leb_le, Hall, list_elem_of_In, Hx.
    + rewrite fmap_app. reflexivity.
  - assert (forallb (fun d => depth h <=? d) seen = false) as Hnot.
    { destruct (forallb (fun d => depth h <=? d) seen); [| reflexivity].
      destruct Htest as [Ht _]. discriminate (Ht eq_refl). }
    rewrite Hnot, app_nil_r.
    specialize (Htop dtop p below eq_refl).
    inversion Hpop as [|? ? [Hd Hp] Hbelow]; subst. simpl in Hd, Hp.
    split.
    + split.
      * constructor; [simpl; split; [apply elem_of_cons; auto | intros Hnil; destruct p; discriminate Hnil] |].
        eapply Forall_impl; [exact Hpop |]. intros e [He1 He2].
        split; [apply elem_of_cons; auto | exact He2].
      * intros _.
        assert (seen <> []) as Hseen by (intros ->; inversion Hd).
        destruct (Hlast Hseen) as (b & Hb & Hmin).
        exists b. split.
        -- change (last ((depth h, p ++ [count_children p forest]) :: (dtop, p) :: below))
             with (last ((dtop, p) :: below)).
           rewrite Hkeep by done. exact Hb.
        -- constructor; [| exact Hmin].
           rewrite Forall_forall in Hmin. specialize (Hmin dtop Hd). lia.
    + apply add_keeps_top, Hp.
Qed.

Lemma spec_loop_roots hs : forall seen forest stk,
  roots_inv seen stk ->
  heading_of <$> fst (foldl spec_step (forest, stk) hs)
  = (heading_of <$> forest) ++ (strip_children <$> not_deeper_than_earlier seen hs).
Proof.
  induction hs as [|h hs IH]; intros seen forest stk Hinv;
    cbn [foldl not_deeper_than_earlier].
  - rewrite app_nil_r. reflexivity.
  - destruct (spec_step_roots seen forest stk h Hinv) as [Hinv' Htop].
    destruct (spec_step (forest, stk) h) as [forest' stk']. simpl in Hinv', Htop.
    rewrite (IH _ _ _ Hinv'), Htop, <- app_assoc.
    destruct (forallb (fun d => depth h <=? d) seen); reflexivity.
Qed.

Lemma not_deeper_flat hs : forall seen,
  Forall flat_heading hs -> Forall flat_heading (not_deeper_than_earlier seen hs).
Proof.
  induction hs as [|h hs IH]; intros seen H; simpl; [constructor |].
  inversion H; subst.
  destruct (forallb (fun d => depth h <=? d) seen); [constructor |]; auto.
Qed.

Lemma buildTree_spec_roots hs :
  Forall flat_heading hs ->
  heading_of <$> buildTree_spec hs = not_deeper_than_earlier [] hs.
Proof.
  intros Hflat. unfold buildTree_spec.
  rewrite (spec_loop_roots hs [] [] []).
  - simpl. apply strip_flat, not_deeper_flat, Hflat.
  - split; [constructor | done].
Qed.

End TocShapeFacts.

Module ScanFacts.
Import JsString HeadingScan Lines Toc.

Lemma take_while_Forall p s : Forall (fun c => p c = true) (take_while p s).
Proof.
  induction s as [|c s IH]; simpl; [constructor |].
  destruct (p c) eqn:E; constructor; assumption.
Qed.

Lemma match_text_spec s t :
  match_text s = Some t ->
  t <> [] /\ t = take_while not_terminator s.
Proof.
  unfold match_text. fold not_terminator.
  destruct (take_while not_terminator s) as [|c t0] eqn:E; [discriminate |].
  intros H. inversion H; subst. split; [discriminate | reflexivity].
Qed.

Lemma match_spaces_text_spec k s k' t :
  match_spaces_text k s = Some (k', t) ->
  1 <= k' <= k /\ match_text (drop k' s) = Some t.
Proof.
  induction k as [|k IH]; simpl; [discriminate |].
  destruct (match_text (drop (S k) s)) as [t0|] eqn:E.
  - intros H. inversion H; subst. split; [lia | exact E].
  - intros H. destruct (IH H) as [Hk Ht]. split; [lia | exact Ht].
Qed.

Lemma match_hashes_spec n s n' k t :
  match_hashes n s = Some (n', k, t) ->
  2 <= n' <= n
  /\ 1 <= k <= length (take_while is_space (drop n' s))
  /\ match_text (drop k (drop n' s)) = Some t.
Proof.
  induction n as [|n IH]; [discriminate |].
  destruct n as [|n]; [discriminate |].
  cbn [match_hashes].
  destruct (match_spaces_text (length (take_while is_space (drop (S (S n)) s)))
              (drop (S (S n)) s)) as [[k0 t0]|] eqn:E.
  - intros H. inversion H; subst.
    destruct (match_spaces_text_spec _ _ _ _ E) as [Hk Ht].
    split; [lia | split; assumption].
  - intros H. destruct (IH H) as (Hn & Hk & Ht). split; [lia | split; assumption].
Qed.

Lemma match_heading_spec s n k t :
  match_heading s = Some (n, k, t) ->
  2 <= n <= 4 /\ t <> [] /\ Forall (fun c => is_line_terminator c = false) t.
Proof.
  unfold match_heading. intros H.
  destruct (match_hashes_spec _ _ _ _ _ H) as (Hn & _ & Ht).
  destruct (match_text_spec _ _ Ht) as [Hne ->].
  split; [lia | split; [exact Hne |]].
  eapply Forall_impl; [apply take_while_Forall |].
  intros c Hc. simpl in Hc. unfold not_terminator in Hc.
  destruct (is_line_terminator c); [discriminate | reflexivity].
Qed.

Lemma exec_all_well_matched s : forall skip line_start,
  Forall well_matched (exec_all skip line_start s).
Proof.
  induction s as [|c s IH]; intros skip line_start; simpl; [constructor |].
  destruct skip as [|skip]; [| apply IH].
  destruct line_start; [| apply IH].
  destruct (match_heading (c :: s)) as [[[level k] t]|] eqn:E; [| apply IH].
  constructor; [| apply IH].
  apply match_heading_spec in E. exact E.
Qed.

Lemma drop_while_Forall (P : ascii -> Prop) p s : Forall P s -> Forall P (drop_while p s).
Proof.
  induction 1 as [|c s Hc Hs IH]; simpl; [constructor |].
  destruct (p c); [exact IH | constructor; assumption].
Qed.

Lemma trim_Forall (P : ascii -> Prop) s : Forall P s -> Forall P (trim s).
Proof.
  intros H. unfold trim. apply Forall_rev, drop_while_Forall, Forall_rev, drop_while_Forall, H.
Qed.

(** What the loop of [extractHeadings] pushes. *)
Lemma matched_headings_fields markdown h :
  h ∈ matched_headings markdown ->
  2 <= depth h <= 4
  /\ Forall (fun c => is_line_terminator c = false) (chars (text h))
  /\ trim (chars (text h)) = chars (text h)
  /\ id h = Slug.generateHeadingId (text h).
Proof.
  unfold matched_headings. intros Hh.
  apply list_elem_of_In, in_map_iff in Hh as (m & <- & Hm).
  pose proof (exec_all_well_matched (chars markdown) 0 true) as Hall.
  rewrite Forall_forall in Hall. apply list_elem_of_In in Hm.
  destruct (Hall m Hm) as (Hd & _ & Ht).
  unfold heading_of_match. simpl. rewrite SlugShapeFacts.chars_str.
  repeat split; try lia.
  - apply trim_Forall, Ht.
  - apply (SlugShapeFacts.strip_idempotent is_space).
Qed.

End ScanFacts.

Module CatalogFacts.
Import Content JsString Catalog.

(** *** [find] and [findIndex] *)

Lemma find_first_with_slug m s l :
  findLessonBySlug m s = Some l -> exists k, Navigation.first_with_slug m s k l.
Proof.
  unfold findLessonBySlug, Navigation.first_with_slug.
  induction (lessons m) as [|x ls IH]; simpl; [discriminate |].
  destruct (String.eqb (slug x) s) eqn:E.
  - intros H. inversion H; subst x. exists 0. split; [reflexivity |].
    split; [apply String.eqb_eq, E | intros j l' Hj; lia].
  - intros H. destruct (IH H) as (k & Hk & Hs & Hfirst).
    exists (S k). split; [exact Hk |]. split; [exact Hs |].
    intros [|j] l' Hj Hl'; simpl in Hl'.
    + inversion Hl'; subst l'. apply String.eqb_neq, E.
    + apply (Hfirst j l'); [lia | exact Hl'].
Qed.

Lemma find_none m s :
  findLessonBySlug m s = None <-> forall l, l ∈ lessons m -> slug l <> s.
Proof.
  unfold findLessonBySlug.
  induction (lessons m) as [|x ls IH]; simpl.
  - split; [intros _ l Hl; inversion Hl | reflexivity].
  - destruct (String.eqb (slug x) s) eqn:E.
    + split; [discriminate |]. intros H. exfalso.
      apply (H x); [apply elem_of_cons; auto | apply String.eqb_eq, E].
    + rewrite IH. split.
      * intros H l Hl. apply elem_of_cons in Hl as [-> | Hl];
          [apply String.eqb_neq, E | apply H, Hl].
      * intros H l Hl. apply H, elem_of_cons. auto.
Qed.

Lemma find_at_findIndex m s :
  findLessonBySlug m s
  = Navigation.at_index (lessons m)
      (Navigation.findIndex (fun lesson => String.eqb (slug lesson) s) (lessons m)).
Proof.
  destruct (findLessonBySlug m s) as [l|] eqn:E.
  - destruct (find_first_with_slug m s l E) as (k & Hk & Hs & Hfirst).
    unfold Navigation.findIndex.
    rewrite (NavigationFacts.findIndex_from_first _ _ 0%Z k l Hk).
    + rewrite Z.add_0_l, NavigationFacts.at_index_nat. symmetry. exact Hk.
    + apply String.eqb_eq, Hs.
    + intros j y Hj Hy. apply String.eqb_neq. apply (Hfirst j y Hj Hy).
  - unfold Navigation.findIndex.
    rewrite NavigationFacts.findIndex_from_none; [reflexivity |].
    intros x Hx. apply String.eqb_neq. apply (proj1 (find_none m s) E x Hx).
Qed.

(** *** [startsWith] and [includes] *)

Lemma startsWith_spec s t :
  startsWith s t = true <-> exists post, s = t ++ post.
Proof.
  revert s. induction t as [|c t IH]; intros s; simpl.
  - split; [intros _; exists s; reflexivity | reflexivity].
  - destruct s as [|d s].
    + split; [discriminate | intros [post H]; discriminate H].
    + rewrite andb_true_iff, Ascii.eqb_eq, IH. split.
      * intros [-> [post ->]]. exists post. reflexivity.
      * intros [post H]. inversion H; subst. split; [reflexivity | exists post; reflexivity].
Qed.

Lemma includes_spec s t :
  includes s t = true <-> exists pre post, s = pre ++ t ++ post.
Proof.
  induction s as [|d s IH]; cbn [includes]; rewrite orb_true_iff, startsWith_spec.
  - split.
    + intros [[post H] | H]; [exists [], post; exact H | discriminate H].
    + intros (pre & post & H). left. destruct pre as [|a pre]; [| discriminate H].
      exists post. exact H.
  - rewrite IH. split.
    + intros [[post H] | (pre & post & H)].
      * exists [], post. exact H.
      * exists (d :: pre), post. rewrite H. reflexivity.
    + intros (pre & post & H). destruct pre as [|a pre].
      * left. exists post. exact H.
      * right. inversion H; subst. exists pre, post. reflexivity.
Qed.

Lemma includes_trans s t u :
  includes s t = true -> includes t u = true -> includes s u = true.
Proof.
  rewrite !includes_spec. intros (p1 & q1 & ->) (p2 & q2 & ->).
  exists (p1 ++ p2), (q2 ++ q1). rewrite <- !app_assoc. reflexivity.
Qed.

(** *** Blank queries *)

Lemma drop_while_nil p s :
  drop_while p s = [] <-> Forall (fun c => p c = true) s.
Proof.
  induction s as [|c s IH]; simpl.
  - split; [constructor | reflexivity].
  - destruct (p c) eqn:E.
    + rewrite IH. split; [intros H; constructor; assumption | intros H; inversion H; assumption].
    + split; [discriminate | intros H; inversion H; congruence].
Qed.

Lemma trim_nil s : trim s = [] <-> Forall (fun c => is_space c = true) s.
Proof.
  unfold trim. split.
  - intros H. apply drop_while_nil.
    pose proof (SlugShapeFacts.drop_while_starts is_space s) as Hs.
    destruct (drop_while is_space s) as [|c r]; [reflexivity |]. simpl in Hs, H.
    rewrite (SlugShapeFacts.drop_while_snoc is_space (rev r) c Hs) in H.
    rewrite rev_app_distr in H. discriminate H.
  - intros H. apply drop_while_nil in H. rewrite H. reflexivity.
Qed.

Lemma lower_space c : is_space (lower_char c) = is_space c.
Proof. SlugShape.by_cases_on c. Qed.

Lemma blank_lower s :
  Forall (fun c => is_space c = true) (toLowerCase s)
  <-> Forall (fun c => is_space c = true) s.
Proof.
  unfold toLowerCase. induction s as [|c s IH]; simpl.
  - split; constructor.
  - split; intros H; inversion H; subst; constructor;
      try (apply IH; assumption); rewrite ?lower_space in *; assumption.
Qed.

Lemma blank_included s t :
  (exists pre post, s = pre ++ t ++ post) ->
  Forall (fun c => is_space c = true) s -> Forall (fun c => is_space c = true) t.
Proof.
  intros (pre & post & ->) H.
  apply Forall_app in H as [_ H]. apply Forall_app in H as [H _]. exact H.
Qed.

(** [searchLessons] with a query that is not blank. *)
Lemma searchLessons_filter ls q :
  trim (chars q) <> [] ->
  searchLessons ls q
  = filter (fun lesson => Is_true (matches_search (lower q) lesson)) ls.
Proof. unfold searchLessons. destruct (trim (chars q)); [done | reflexivity]. Qed.

Lemma searchLessons_lower ls q1 q2 :
  lower q1 = lower q2 -> searchLessons ls q1 = searchLessons ls q2.
Proof.
  intros E. unfold searchLessons. rewrite E.
  assert (trim (chars q1) = [] <-> trim (chars q2) = []) as Hblank.
  { rewrite !trim_nil, <- (blank_lower (chars q1)), <- (blank_lower (chars q2)).
    unfold lower in E. rewrite E. reflexivity. }
  destruct (trim (chars q1)) as [|c1 r1], (trim (chars q2)) as [|c2 r2]; try reflexivity.
  - destruct Hblank as [H _]. discriminate (H eq_refl).
  - destruct Hblank as [_ H]. discriminate (H eq_refl).
Qed.

Lemma existsb_impl {A} (f g : A -> bool) l :
  (forall x, f x = true -> g x = true) -> existsb f l = true -> existsb g l = true.
Proof.
  intros H. rewrite !existsb_exists. intros (x & Hx & Hf). exists x. auto.
Qed.

Lemma matches_search_narrow t1 t2 lesson :
  includes t2 t1 = true ->
  matches_search t2 lesson = true -> matches_search t1 lesson = true.
Proof.
  intros Hinc. unfold matches_search. rewrite !orb_true_iff.
  intros [[H | H] | H].
  - left. left. apply (includes_trans _ _ _ H Hinc).
  - left. right. apply (includes_trans _ _ _ H Hinc).
  - right. destruct (tags lesson) as [ts|]; [| discriminate H].
    revert H. apply existsb_impl. intros tag H. apply (includes_trans _ _ _ H Hinc).
Qed.

Lemma searchLessons_narrow ls q1 q2 :
  trim (chars q1) <> [] ->
  includes (lower q2) (lower q1) = true ->
  searchLessons (searchLessons ls q1) q2 = searchLessons ls q2
  /\ searchLessons ls q2 `sublist_of` searchLessons ls q1.
Proof.
  intros H1 Hinc.
  assert (trim (chars q2) <> []) as H2.
  { rewrite trim_nil in *. intros Hb. apply H1.
    apply blank_lower. apply blank_lower in Hb.
    apply includes_spec in Hinc. apply (blank_included _ _ Hinc Hb). }
  assert (searchLessons (searchLessons ls q1) q2 = searchLessons ls q2) as E.
  { rewrite (searchLessons_filter _ q2 H2), (searchLessons_filter ls q1 H1),
      (searchLessons_filter ls q2 H2).
    apply list_filter_filter_l. intros lesson H.
    apply Is_true_true. apply Is_true_true in H.
    apply (matches_search_narrow _ _ _ Hinc H). }
  split; [exact E |].
  rewrite <- E. rewrite (searchLessons_filter _ q2 H2). apply sublist_filter.
Qed.

(** *** Selected tags *)

Lemma array_includes_spec l x : array_includes l x = true <-> x ∈ l.
Proof.
  unfold array_includes. rewrite existsb_exists. split.
  - intros (y & Hy & E). apply String.eqb_eq in E. subst y. apply list_elem_of_In, Hy.
  - intros H. exists x. split; [apply list_elem_of_In, H | apply String.eqb_refl].
Qed.

Lemma has_selected_tag_spec sel lesson :
  has_selected_tag sel lesson = true
  <-> exists ts tag, tags lesson = Some ts /\ tag ∈ ts /\ tag ∈ sel.
Proof.
  unfold has_selected_tag. destruct (tags lesson) as [ts|].
  - rewrite existsb_exists. split.
    + intros (tag & Ht & Hs). exists ts, tag.
      split; [reflexivity |]. split; [apply list_elem_of_In, Ht | apply array_includes_spec, Hs].
    + intros (ts' & tag & E & Ht & Hs). inversion E; subst ts'.
      exists tag. split; [apply list_elem_of_In, Ht | apply array_includes_spec, Hs].
  - split; [discriminate | intros (ts & tag & E & _); discriminate E].
Qed.

Lemma has_selected_tag_mono sel1 sel2 lesson :
  (forall t, t ∈ sel1 -> t ∈ sel2) ->
  has_selected_tag sel1 lesson = true -> has_selected_tag sel2 lesson = true.
Proof.
  intros Hsub. rewrite !has_selected_tag_spec.
  intros (ts & tag & E & Ht & Hs). exists ts, tag. auto.
Qed.

Lemma filterLessonsByTags_filter ls sel :
  sel <> [] ->
  filterLessonsByTags ls sel
  = filter (fun lesson => Is_true (has_selected_tag sel lesson)) ls.
Proof. destruct sel; [done | reflexivity]. Qed.

Lemma filter_bool_ext {A} (f g : A -> bool) (l : list A) :
  (forall x, f x = g x) ->
  filter (fun x => Is_true (f x)) l = filter (fun x => Is_true (g x)) l.
Proof.
  intros H. apply list_filter_iff. intros x. rewrite (H x). reflexivity.
Qed.

Lemma bool_eq_iff (a b : bool) : (a = true <-> b = true) -> a = b.
Proof.
  destruct a, b; intros [H1 H2]; try reflexivity.
  - symmetry. apply H1. reflexivity.
  - apply H2. reflexivity.
Qed.

Lemma filterLessonsByTags_same_set ls sel1 sel2 :
  (forall t, t ∈ sel1 <-> t ∈ sel2) ->
  filterLessonsByTags ls sel1 = filterLessonsByTags ls sel2.
Proof.
  intros H.
  destruct sel1 as [|a1 r1], sel2 as [|a2 r2]; [reflexivity | | |].
  - exfalso. assert (a2 ∈ @nil string) as Hin by (apply H, elem_of_cons; auto). inversion Hin.
  - exfalso. assert (a1 ∈ @nil string) as Hin by (apply H, elem_of_cons; auto). inversion Hin.
  - rewrite !filterLessonsByTags_filter by done.
    apply filter_bool_ext. intros lesson. apply bool_eq_iff.
    split; apply has_selected_tag_mono; intros t; apply H.
Qed.

Lemma filter_sublist_impl {A} (f g : A -> bool) (l : list A) :
  (forall x, f x = true -> g x = true) ->
  filter (fun x => Is_true (f x)) l `sublist_of` filter (fun x => Is_true (g x)) l.
Proof.
  intros H.
  rewrite <- (list_filter_filter_l (fun x => Is_true (f x)) (fun x => Is_true (g x)) l).
  - apply sublist_filter.
  - intros x Hx. apply Is_true_true, H, Is_true_true, Hx.
Qed.

Lemma filterLessonsByTags_widen ls sel1 sel2 :
  sel1 <> [] -> (forall t, t ∈ sel1 -> t ∈ sel2) ->
  filterLessonsByTags ls sel1 `sublist_of` filterLessonsByTags ls sel2.
Proof.
  intros Hne Hsub.
  assert (sel2 <> []) as Hne2.
  { destruct sel1 as [|a r]; [done |]. intros ->.
    assert (a ∈ @nil string) as Hin by (apply Hsub, elem_of_cons; auto). inversion Hin. }
  rewrite !filterLessonsByTags_filter by assumption.
  apply filter_sublist_impl. intros lesson. apply has_selected_tag_mono, Hsub.
Qed.

(** *** The set of tags *)

Lemma set_add_elem s x y : y ∈ set_add s x <-> y ∈ s \/ y = x.
Proof.
  unfold set_add. destruct (array_includes s x) eqn:E.
  - apply array_includes_spec in E. split; [auto | intros [H | ->]; assumption].
  - rewrite elem_of_app, list_elem_of_singleton. reflexivity.
Qed.

Lemma set_add_NoDup s x : NoDup s -> NoDup (set_add s x).
Proof.
  intros H. unfold set_add. destruct (array_includes s x) eqn:E; [exact H |].
  apply NoDup_app. split; [exact H |]. split; [| apply NoDup_singleton].
  intros y Hy Hx. apply list_elem_of_singleton in Hx. subst y.
  apply array_includes_spec in Hy. congruence.
Qed.

Lemma add_all_spec ts : forall s,
  NoDup s ->
  NoDup (foldl set_add s ts) /\ forall y, y ∈ foldl set_add s ts <-> y ∈ s \/ y ∈ ts.
Proof.
  induction ts as [|t ts IH]; intros s Hs; simpl.
  - split; [exact Hs |]. intros y. split; [auto | intros [H | H]; [exact H | inversion H]].
  - destruct (IH (set_add s t) (set_add_NoDup s t Hs)) as [Hn He]. split; [exact Hn |].
    intros y. rewrite He, set_add_elem, elem_of_cons. tauto.
Qed.

Lemma collect_loop_spec ls : forall s,
  NoDup s ->
  NoDup (foldl collect_step s ls)
  /\ forall y, y ∈ foldl collect_step s ls <-> y ∈ s \/ carries ls y.
Proof.
  induction ls as [|l ls IH]; intros s Hs; simpl.
  - split; [exact Hs |]. intros y. split; [auto |].
    intros [H | (lesson & ts & Hl & _)]; [exact H | inversion Hl].
  - assert (NoDup (collect_step s l)
            /\ forall y, y ∈ collect_step s l
                         <-> y ∈ s \/ exists ts, tags l = Some ts /\ y ∈ ts) as [Hn He].
    { unfold collect_step. destruct (tags l) as [ts|].
      - destruct (add_all_spec ts s Hs) as [Hn He]. split; [exact Hn |].
        intros y. rewrite He. split.
        + intros [H | H]; [auto | right; exists ts; auto].
        + intros [H | (ts' & E & H)]; [auto | inversion E; subst; auto].
      - split; [exact Hs |]. intros y. split; [auto |].
        intros [H | (ts & E & _)]; [exact H | discriminate E]. }
    destruct (IH _ Hn) as [Hn' He']. split; [exact Hn' |].
    intros y. rewrite He', He. unfold carries. split.
    + intros [[H | (ts & E & H)] | (lesson & ts & Hl & E & H)].
      * auto.
      * right. exists l, ts. split; [apply elem_of_cons; auto | auto].
      * right. exists lesson, ts. split; [apply elem_of_cons; auto | auto].
    + intros [H | (lesson & ts & Hl & E & H)]; [auto |].
      apply elem_of_cons in Hl as [-> | Hl].
      * left. right. exists ts. auto.
      * right. exists lesson, ts. auto.
Qed.

Lemma collect_tags_spec ls :
  NoDup (collect_tags ls) /\ forall y, y ∈ collect_tags ls <-> carries ls y.
Proof.
  destruct (collect_loop_spec ls [] (NoDup_nil_2)) as [Hn He].
  split; [exact Hn |]. intros y. unfold collect_tags.
  rewrite He. split; [intros [H | H]; [inversion H | exact H] | auto].
Qed.

(** *** The order of [sort] *)

Lemma leb_trans a : forall b c,
  String.leb a b = true -> String.leb b c = true -> String.leb a c = true.
Proof.
  unfold String.leb.
  induction a as [|x a IH]; intros [|y b] [|z c]; simpl; try reflexivity; try discriminate.
  unfold Ascii.compare.
  destruct (N.compare_spec (N_of_ascii x) (N_of_ascii y)) as [Exy|Hxy|Hxy];
    destruct (N.compare_spec (N_of_ascii y) (N_of_ascii z)) as [Eyz|Hyz|Hyz];
    destruct (N.compare_spec (N_of_ascii x) (N_of_ascii z)) as [Exz|Hxz|Hxz];
    try reflexivity; try discriminate; try lia; try (intros; discriminate).
  apply IH.
Qed.

#[export] Instance code_unit_le_trans : Transitive code_unit_le.
Proof.
  intros a b c Hab Hbc. unfold code_unit_le in *.
  apply Is_true_true. apply Is_true_true in Hab, Hbc. apply (leb_trans a b c Hab Hbc).
Qed.

#[export] Instance code_unit_le_total : Total code_unit_le.
Proof.
  intros a b. unfold code_unit_le.
  destruct (String.leb_total a b) as [H | H]; [left | right]; apply Is_true_true, H.
Qed.

#[export] Instance code_unit_le_antisym : AntiSymm eq code_unit_le.
Proof.
  intros a b Hab Hba. unfold code_unit_le in *.
  apply Is_true_true in Hab, Hba. apply (String.leb_antisym a b Hab Hba).
Qed.

Lemma strongly_sorted_strict l :
  NoDup l -> StronglySorted code_unit_le l -> StronglySorted code_unit_lt l.
Proof.
  induction 2 as [|x l Hs IH Hall]; [constructor |].
  apply NoDup_cons in H as [Hx Hl]. constructor; [apply IH, Hl |].
  apply Forall_forall. intros y Hy. rewrite Forall_forall in Hall.
  split; [apply Hall, Hy | intros ->; contradiction].
Qed.

Lemma getAllTags_sorted ls : StronglySorted code_unit_lt (getAllTags ls).
Proof.
  unfold getAllTags. apply strongly_sorted_strict.
  - rewrite merge_sort_Permutation. apply collect_tags_spec.
  - apply StronglySorted_merge_sort; apply _.
Qed.

Lemma getAllTags_elem ls t : t ∈ getAllTags ls <-> carries ls t.
Proof.
  unfold getAllTags. rewrite merge_sort_Permutation. apply collect_tags_spec.
Qed.

Lemma getAllTags_same_tags ls1 ls2 :
  (forall t, carries ls1 t <-> carries ls2 t) -> getAllTags ls1 = getAllTags ls2.
Proof.
  intros H. unfold getAllTags.
  apply (StronglySorted_unique code_unit_le).
  - apply StronglySorted_merge_sort; apply _.
  - apply StronglySorted_merge_sort; apply _.
  - rewrite !merge_sort_Permutation.
    apply NoDup_Permutation; [apply collect_tags_spec | apply collect_tags_spec |].
    intros t. destruct (collect_tags_spec ls1) as [_ H1].
    destruct (collect_tags_spec ls2) as [_ H2]. rewrite H1, H2. apply H.
Qed.

Lemma filter_bool_ext_in {A} (f g : A -> bool) (l : list A) :
  (forall x, x ∈ l -> f x = g x) ->
  filter (fun x => Is_true (f x)) l = filter (fun x => Is_true (g x)) l.
Proof.
  induction l as [|a l IH]; intros H; [reflexivity |].
  assert (f a = g a) as Ha by (apply H, elem_of_cons; auto).
  assert (filter (fun x => Is_true (f x)) l = filter (fun x => Is_true (g x)) l) as Hl.
  { apply IH. intros x Hx. apply H, elem_of_cons. auto. }
  destruct (g a) eqn:Eg.
  - rewrite !filter_cons_True by (rewrite ?Ha, ?Eg; exact I). rewrite Hl. reflexivity.
  - rewrite !filter_cons_False by (rewrite ?Ha, ?Eg; exact id). exact Hl.
Qed.

Lemma filterLessonsByTags_all ls :
  getAllTags ls <> [] ->
  filterLessonsByTags ls (getAllTags ls) = filter (fun lesson => Is_true (tagged lesson)) ls.
Proof.
  intros Hne. rewrite filterLessonsByTags_filter by exact Hne.
  apply filter_bool_ext_in. intros lesson Hin. apply bool_eq_iff.
  rewrite has_selected_tag_spec. unfold tagged. split.
  - intros (ts & tag & -> & Ht & _). destruct ts; [inversion Ht | reflexivity].
  - destruct (tags lesson) as [[|tag ts]|] eqn:E; try discriminate. intros _.
    exists (tag :: ts), tag. split; [reflexivity |].
    split; [apply elem_of_cons; auto |].
    apply getAllTags_elem. exists lesson, (tag :: ts).
    split; [exact Hin |]. split; [exact E | apply elem_of_cons; auto].
Qed.

End CatalogFacts.

Module CacheFacts.
Import Content Storage Loader CacheControl LoaderFacts.
Local Open Scope Z_scope.

Lemma prefix_append p s : String.prefix p (p ++ s) = true.
Proof.
  induction p as [|c p IH]; [destruct s; reflexivity |].
  change (String.prefix (String c p) (String c (p ++ s)) = true)%string.
  simpl. destruct (ascii_dec c c) as [_|Hne]; [exact IH | contradiction].
Qed.

Lemma append_assoc (a b c : string) : ((a ++ b) ++ c = a ++ (b ++ c))%string.
Proof.
  induction a as [|x a IH]; [reflexivity |].
  change (String x ((a ++ b) ++ c) = String x (a ++ (b ++ c)))%string.
  rewrite IH. reflexivity.
Qed.

Lemma cacheKey_is_cache_key lesson : is_cache_key (cacheKey lesson) = true.
Proof.
  unfold is_cache_key, cacheKey. rewrite prefix_append. apply orb_true_r.
Qed.

Lemma manifest_key_is_cache_key : is_cache_key MANIFEST_CACHE_KEY = true.
Proof. reflexivity. Qed.

Lemma cacheKey_not_manifest lesson : cacheKey lesson <> MANIFEST_CACHE_KEY.
Proof. unfold cacheKey. discriminate. Qed.

Lemma append_inj_l (p a b : string) : (p ++ a = p ++ b)%string -> a = b.
Proof.
  induction p as [|c p IH]; [auto |].
  change (String c (p ++ a) = String c (p ++ b) -> a = b)%string.
  intros H. inversion H. auto.
Qed.

Lemma cacheKey_inj l1 l2 : cacheKey l1 = cacheKey l2 -> slug l1 = slug l2.
Proof. unfold cacheKey. apply append_inj_l. Qed.

(** *** [clearContentCache] *)

Lemma clear_loop_errors ks : forall s,
  getItem_error (foldl clear_key s ks) = getItem_error s
  /\ setItem_error (foldl clear_key s ks) = setItem_error s.
Proof.
  induction ks as [|key ks IH]; intros s; simpl; [split; reflexivity |].
  destruct (IH (clear_key s key)) as [H1 H2]. rewrite H1, H2.
  unfold clear_key. destruct (is_cache_key key); split; reflexivity.
Qed.

Lemma clear_loop_other ks k : forall s,
  is_cache_key k = false -> items (foldl clear_key s ks) !! k = items s !! k.
Proof.
  induction ks as [|key ks IH]; intros s Hk; simpl; [reflexivity |].
  rewrite (IH _ Hk). unfold clear_key.
  destruct (is_cache_key key) eqn:E; [| reflexivity].
  simpl. apply lookup_delete_ne. intros ->. congruence.
Qed.

Lemma clear_loop_cache_key ks k : forall s,
  is_cache_key k = true -> k ∈ ks \/ items s !! k = None ->
  items (foldl clear_key s ks) !! k = None.
Proof.
  induction ks as [|key ks IH]; intros s Hk Hin; simpl.
  - destruct Hin as [Hin | Hin]; [inversion Hin | exact Hin].
  - apply (IH _ Hk).
    destruct (decide (k = key)) as [->|Hne].
    + right. unfold clear_key. rewrite Hk. simpl. apply lookup_delete_eq.
    + destruct Hin as [Hin | Hin].
      * left. apply elem_of_cons in Hin as [? | ?]; [contradiction | assumption].
      * right. unfold clear_key. destruct (is_cache_key key); [| exact Hin].
        simpl. rewrite lookup_delete_ne by congruence. exact Hin.
Qed.

Lemma keys_spec s k : k ∈ keys s \/ items s !! k = None.
Proof.
  destruct (items s !! k) as [v|] eqn:E; [left | right; reflexivity].
  unfold keys. apply list_elem_of_fmap. exists (k, v).
  split; [reflexivity | apply elem_of_map_to_list, E].
Qed.

Lemma clearContentCache_spec s s' :
  clearContentCache s = Ok s' ->
  getItem_error s' = None
  /\ setItem_error s' = setItem_error s
  /\ forall k, items s' !! k = if is_cache_key k then None else items s !! k.
Proof.
  unfold clearContentCache. destruct (getItem_error s) eqn:Hget; [discriminate |].
  intros H. inversion H; subst s'. clear H.
  destruct (clear_loop_errors (keys s) s) as [H1 H2].
  split; [congruence |]. split; [exact H2 |].
  intros k. destruct (is_cache_key k) eqn:E.
  - apply clear_loop_cache_key; [exact E | apply keys_spec].
  - apply clear_loop_other, E.
Qed.

(** *** What the [catch] clause lets through *)

Lemma catch_clause_loader_error what t : loader_error what (catch_clause what t).
Proof.
  unfold catch_clause, loader_error. destruct t as [e | v].
  - destruct (String.eqb_spec (name e) "AbortError") as [E | _].
    + exists e. auto.
    + eexists. split; [reflexivity |]. right. split; [reflexivity |]. cbn [message].
      rewrite <- append_assoc. apply prefix_append.
  - eexists. split; [reflexivity |]. right. split; [reflexivity |]. cbn [message].
    change (what ++ ": Unknown error")%string
      with (what ++ (": " ++ "Unknown error"))%string.
    rewrite <- append_assoc. apply prefix_append.
Qed.

Lemma fetchLessonContent_outcome lesson net t0 t1 w :
  match fetchLessonContent lesson net t0 t1 w with
  | (w1, Settled (Rejected t)) =>
      storage w1 = storage w /\ writes w1 = writes w
      /\ (requests w1 = requests w \/ requests w1 = requests w ++ [mdPath lesson])
      /\ loader_error (lesson_what lesson) t
  | (w1, Settled (Resolved c)) =>
      w1 = w
      \/ (requests w1 = requests w ++ [mdPath lesson]
          /\ writes w1 = writes w ++ [cacheKey lesson])
  | (_, Suspended _) => False
  end.
Proof.
  unfold fetchLessonContent, fetchLessonContent_start, getItem.
  destruct (getItem_error (storage w)) as [e|].
  { repeat split; auto using catch_clause_loader_error. }
  destruct (read_cache t0 (items (storage w) !! cacheKey lesson)).
  - left. reflexivity.
  - unfold fetchLessonContent_on_fetch.
    destruct (fetch_settles net) as [response | t].
    + destruct (ok response).
      * unfold fetchLessonContent_on_body.
        destruct (body_settles net) as [md | t].
        -- destruct (Toc.extractHeadings md).
           ++ unfold setItem. cbn [storage log_request].
              destruct (setItem_error (storage w)).
              ** repeat split; auto using catch_clause_loader_error.
              ** right. split; reflexivity.
           ++ repeat split; auto using catch_clause_loader_error.
        -- repeat split; auto using catch_clause_loader_error.
      * repeat split; auto using catch_clause_loader_error.
    + repeat split; auto using catch_clause_loader_error.
  - repeat split; auto using catch_clause_loader_error.
Qed.

Lemma fetchContentManifest_outcome net t0 t1 w :
  match fetchContentManifest net t0 t1 w with
  | (w1, Settled (Rejected t)) =>
      storage w1 = storage w /\ writes w1 = writes w
      /\ (requests w1 = requests w \/ requests w1 = requests w ++ ["/content-manifest.json"])
      /\ loader_error manifest_what t
  | (w1, Settled (Resolved c)) =>
      w1 = w
      \/ (requests w1 = requests w ++ ["/content-manifest.json"]
          /\ writes w1 = writes w ++ [MANIFEST_CACHE_KEY])
  | (_, Suspended _) => False
  end.
Proof.
  unfold fetchContentManifest, fetchContentManifest_start, getItem.
  destruct (getItem_error (storage w)) as [e|].
  { repeat split; auto using catch_clause_loader_error. }
  destruct (read_cache t0 (items (storage w) !! MANIFEST_CACHE_KEY)).
  - left. reflexivity.
  - unfold fetchContentManifest_on_fetch.
    destruct (fetch_settles net) as [response | t].
    + destruct (ok response).
      * unfold fetchContentManifest_on_body.
        destruct (body_settles net) as [m | t].
        -- unfold setItem. cbn [storage log_request].
           destruct (setItem_error (storage w)).
           ++ repeat split; auto using catch_clause_loader_error.
           ++ right. split; reflexivity.
        -- repeat split; auto using catch_clause_loader_error.
      * repeat split; auto using catch_clause_loader_error.
    + repeat split; auto using catch_clause_loader_error.
  - repeat split; auto using catch_clause_loader_error.
Qed.

End CacheFacts.

Module RouteAccountFacts.
Import Content Storage Loader LessonRoute RouteAccount.

Lemma sum_list_insert (l : list nat) i x y :
  l !! i = Some x -> sum_list (<[i := y]> l) + x = sum_list l + y.
Proof.
  revert i. induction l as [|a l IH]; intros [|i] H; simpl in *; try discriminate.
  - inversion H; subst. lia.
  - specialize (IH i H). lia.
Qed.

Lemma on_fetch_one_write lesson r w :
  one_write w (fetchLessonContent_on_fetch lesson r w).
Proof.
  unfold fetchLessonContent_on_fetch, one_write.
  destruct r as [response | t]; [destruct (ok response) |]; left; simpl; auto.
Qed.

Lemma on_body_one_write lesson b now w :
  one_write w (fetchLessonContent_on_body lesson b now w).
Proof.
  unfold fetchLessonContent_on_body, one_write.
  destruct b as [md | t]; [| left; simpl; auto].
  destruct (Toc.extractHeadings md); [| left; simpl; auto].
  destruct (setItem _ _ _); [| left; simpl; auto].
  right. simpl. eauto.
Qed.

Lemma resume_accounted n0 sys i c r :
  calls sys !! i = Some c -> cache_writes c = 0 ->
  one_write (world sys) r ->
  Forall accounted (calls sys) ->
  length (writes (world sys)) = n0 + total_writes sys ->
  Forall accounted (calls (resume sys i c r))
  /\ length (writes (world (resume sys i c r))) = n0 + total_writes (resume sys i c r).
Proof.
  intros Hi Hc Hone Hall Hlen. destruct r as [w st]. unfold resume, total_writes in *.
  cbn [calls world]. rewrite list_fmap_insert. cbn [cache_writes].
  pose proof (sum_list_insert (cache_writes <$> calls sys) i (cache_writes c)
                (cache_writes c + (length (writes w) - length (writes (world sys)))))
    as Hsum.
  rewrite list_lookup_fmap, Hi in Hsum. specialize (Hsum eq_refl).
  destruct Hone as [[Hw Hst] | (key & Hw & v & Hst)]; simpl in Hw, Hst.
  - rewrite Hw, Nat.sub_diag in *. split; [| lia].
    apply Forall_insert; [exact Hall |]. unfold accounted. cbn [call_state cache_writes].
    destruct st as [p | [v | t]]; try lia; try contradiction.
  - rewrite Hw, length_app in *. simpl in *. split; [| lia].
    apply Forall_insert; [exact Hall |]. unfold accounted. cbn [call_state cache_writes].
    rewrite Hst. lia.
Qed.

Lemma pending_accounted sys i c p :
  Forall accounted (calls sys) -> calls sys !! i = Some c ->
  call_state c = Suspended p -> cache_writes c = 0.
Proof.
  intros Hall Hi Hp. pose proof (Forall_lookup_1 _ _ _ _ Hall Hi) as H.
  unfold accounted in H. rewrite Hp in H. exact H.
Qed.

Lemma start_keeps_writes lesson signal now w :
  writes (fst (fetchLessonContent_start lesson signal now w)) = writes w.
Proof.
  unfold fetchLessonContent_start.
  destruct (getItem _ _); [| reflexivity].
  destruct (read_cache _ _); try reflexivity.
  destruct signal; reflexivity.
Qed.

Lemma step_accounted n0 sys e :
  Forall accounted (calls sys) ->
  length (writes (world sys)) = n0 + total_writes sys ->
  Forall accounted (calls (step sys e))
  /\ length (writes (world (step sys e))) = n0 + total_writes (step sys e).
Proof.
  intros Hall Hlen. destruct e as [lesson now | i r | i b now | i reason]; unfold step.
  - pose proof (start_keeps_writes lesson None now (world sys)) as Hw.
    destruct (fetchLessonContent_start lesson None now (world sys)) as [w st].
    simpl in Hw. cbn [calls world]. unfold total_writes in *. cbn [calls].
    rewrite fmap_app, sum_list_with_app. simpl. split; [| rewrite Hw; lia].
    apply Forall_app. split; [exact Hall |]. constructor; [| constructor].
    unfold accounted. simpl. destruct st as [p | [v | t]]; lia.
  - destruct (calls sys !! i) as [c|] eqn:Hi; [| auto].
    destruct (call_state c) as [[|] | o] eqn:Hc; auto.
    apply resume_accounted; auto using on_fetch_one_write.
    apply (pending_accounted sys i c _ Hall Hi Hc).
  - destruct (calls sys !! i) as [c|] eqn:Hi; [| auto].
    destruct (call_state c) as [[|] | o] eqn:Hc; auto.
    apply resume_accounted; auto using on_body_one_write.
    apply (pending_accounted sys i c _ Hall Hi Hc).
  - destruct (calls sys !! i) as [c|] eqn:Hi; [| auto].
    destruct (call_state c) as [[|] | o] eqn:Hc; auto.
    + apply resume_accounted; auto using on_fetch_one_write.
      apply (pending_accounted sys i c _ Hall Hi Hc).
    + apply resume_accounted; auto using on_body_one_write.
      apply (pending_accounted sys i c _ Hall Hi Hc).
Qed.

Lemma run_accounted n0 es : forall sys,
  Forall accounted (calls sys) ->
  length (writes (world sys)) = n0 + total_writes sys ->
  Forall accounted (calls (run sys es))
  /\ length (writes (world (run sys es))) = n0 + total_writes (run sys es).
Proof.
  induction es as [|e es IH]; intros sys Hall Hlen; [auto |].
  change (run sys (e :: es)) with (run (step sys e) es).
  destruct (step_accounted n0 sys e Hall Hlen) as [H1 H2]. apply IH; assumption.
Qed.

End RouteAccountFacts.

Module ShownFacts.
Import Content Storage Loader LessonRoute CacheControl CacheFacts Shown.

Lemma what_colon_cons lesson :
  exists s, (lesson_what lesson ++ ": ")%string = String "F"%char s.
Proof. eexists. reflexivity. Qed.

Lemma start_rejects lesson signal now w t :
  snd (fetchLessonContent_start lesson signal now w) = Settled (Rejected t) ->
  loader_error (lesson_what lesson) t.
Proof.
  unfold fetchLessonContent_start.
  destruct (getItem _ _).
  - destruct (read_cache _ _); simpl.
    + discriminate.
    + destruct signal; simpl; [| discriminate].
      intros H. inversion H. apply catch_clause_loader_error.
    + intros H. inversion H. apply catch_clause_loader_error.
  - simpl. intros H. inversion H. apply catch_clause_loader_error.
Qed.

Lemma on_fetch_rejects lesson r w t :
  snd (fetchLessonContent_on_fetch lesson r w) = Settled (Rejected t) ->
  loader_error (lesson_what lesson) t.
Proof.
  unfold fetchLessonContent_on_fetch.
  destruct r as [response | t0]; [destruct (ok response) |]; simpl;
    try discriminate; intros H; inversion H; apply catch_clause_loader_error.
Qed.

Lemma on_body_rejects lesson b now w t :
  snd (fetchLessonContent_on_body lesson b now w) = Settled (Rejected t) ->
  loader_error (lesson_what lesson) t.
Proof.
  unfold fetchLessonContent_on_body.
  destruct b as [md | t0].
  - destruct (Toc.extractHeadings md).
    + destruct (setItem _ _ _); simpl; [discriminate |].
      intros H; inversion H; apply catch_clause_loader_error.
    + simpl. intros H; inversion H; apply catch_clause_loader_error.
  - simpl. intros H; inversion H; apply catch_clause_loader_error.
Qed.

(** What [loadContent] shows after its call has settled. *)
Lemma notify_error lesson st u :
  (forall t, st = Settled (Rejected t) -> loader_error (lesson_what lesson) t) ->
  contentError (notify st u) = contentError u
  \/ exists msg,
      contentError (notify st u) = Some msg
      /\ String.prefix (lesson_what lesson ++ ": ") msg = true.
Proof.
  intros H. destruct st as [p | [v | t]]; simpl; [left; reflexivity | left; reflexivity |].
  destruct (H t eq_refl) as (e & -> & [Hname | [Hname Hprefix]]).
  - rewrite Hname. left. reflexivity.
  - rewrite Hname. change (String.eqb "Error" "AbortError") with false. cbv iota.
    right. exists (message e). split; [| exact Hprefix]. simpl. f_equal.
    destruct (what_colon_cons lesson) as [s Hs]. rewrite Hs in Hprefix.
    destruct (message e); [discriminate Hprefix | reflexivity].
Qed.

Lemma error_of_a_call_resume sys i c r :
  calls sys !! i = Some c ->
  (forall t, snd r = Settled (Rejected t) -> loader_error (lesson_what (call_lesson c)) t) ->
  error_of_a_call sys -> error_of_a_call (resume sys i c r).
Proof.
  intros Hi Hr Hinv. destruct r as [w st]. unfold error_of_a_call, resume in *.
  cbn [ui calls]. simpl in Hr.
  destruct (notify_error (call_lesson c) st (ui sys) Hr) as [E | (msg & E & Hp)]; rewrite E.
  - destruct (contentError (ui sys)) as [msg|]; [| exact I].
    destruct Hinv as (j & c' & Hj & Hp).
    destruct (decide (j = i)) as [-> | Hne].
    + rewrite Hi in Hj. inversion Hj; subst c'.
      eexists i, _. split; [apply list_lookup_insert_eq, (lookup_lt_Some _ _ _ Hi) |].
      exact Hp.
    + exists j, c'. split; [| exact Hp].
      rewrite list_lookup_insert_ne by congruence. exact Hj.
  - eexists i, _. split; [apply list_lookup_insert_eq, (lookup_lt_Some _ _ _ Hi) |].
    exact Hp.
Qed.

Lemma step_error_of_a_call sys e : error_of_a_call sys -> error_of_a_call (step sys e).
Proof.
  intros Hinv. destruct e as [lesson now | i r | i b now | i reason]; unfold step.
  - pose proof (start_rejects lesson None now (world sys)) as Hr.
    destruct (fetchLessonContent_start lesson None now (world sys)) as [w st].
    simpl in Hr. unfold error_of_a_call. cbn [ui calls].
    destruct (notify_error lesson st (loadContent_begin (ui sys)) Hr)
      as [E | (msg & E & Hp)]; rewrite E.
    + exact I.
    + eexists (length (calls sys)), _. split.
      * rewrite lookup_app_r by lia. rewrite Nat.sub_diag. reflexivity.
      * exact Hp.
  - destruct (calls sys !! i) as [c|] eqn:Hi; [| exact Hinv].
    destruct (call_state c) as [[|] | o]; try exact Hinv.
    apply error_of_a_call_resume; [exact Hi | apply on_fetch_rejects | exact Hinv].
  - destruct (calls sys !! i) as [c|] eqn:Hi; [| exact Hinv].
    destruct (call_state c) as [[|] | o]; try exact Hinv.
    apply error_of_a_call_resume; [exact Hi | apply on_body_rejects | exact Hinv].
  - destruct (calls sys !! i) as [c|] eqn:Hi; [| exact Hinv].
    destruct (call_state c) as [[|] | o]; try exact Hinv.
    + apply error_of_a_call_resume; [exact Hi | apply on_fetch_rejects | exact Hinv].
    + apply error_of_a_call_resume; [exact Hi | apply on_body_rejects | exact Hinv].
Qed.

Lemma run_error_of_a_call es : forall sys,
  error_of_a_call sys -> error_of_a_call (run sys es).
Proof.
  induction es as [|e es IH]; intros sys H; [exact H |].
  change (run sys (e :: es)) with (run (step sys e) es).
  apply IH, step_error_of_a_call, H.
Qed.

(** The text of the loader differs from the fallback text of [loadContent]
    at the quotation mark before the title. *)
Lemma lesson_what_not_fallback lesson :
  String.prefix (lesson_what lesson ++ ": ") "Failed to load lesson content" = false.
Proof. reflexivity. Qed.

Lemma loader_error_not_fallback sys :
  error_of_a_call sys -> contentError (ui sys) <> Some "Failed to load lesson content".
Proof.
  unfold error_of_a_call. intros H E. rewrite E in H.
  destruct H as (i & c & _ & Hp). rewrite lesson_what_not_fallback in Hp.
  discriminate Hp.
Qed.

End ShownFacts.

Module NavigationRoundTrip.
Import Content Navigation.

Lemma getLessonNavigation_at m s k l :
  first_with_slug m s k l ->
  getLessonNavigation m s
  = Ok {| previous := match k with
                      | 0 => None
                      | S k' => link <$> lessons m !! k'
                      end;
          next := link <$> lessons m !! S k |}.
Proof.
  intros (Hk & Hs & Hbefore).
  pose proof (lookup_lt_Some _ _ _ Hk) as Hlen.
  unfold getLessonNavigation, findIndex.
  rewrite (NavigationFacts.findIndex_from_first _ _ 0%Z k l Hk).
  2: { apply String.eqb_eq, Hs. }
  2: { intros j y Hj Hy. apply String.eqb_neq. eapply Hbefore; eauto. }
  destruct (Z.eqb_spec (0 + Z.of_nat k) (-1)) as [Heq|_]; [lia |].
  unfold link_at.
  replace (0 + Z.of_nat k + 1)%Z with (Z.of_nat (S k)) by lia.
  rewrite NavigationFacts.at_index_nat.
  destruct k as [|k'].
  - change (0 + Z.of_nat 0 >? 0)%Z with false. cbv iota.
    destruct (Z.ltb_spec (0 + Z.of_nat 0) (Z.of_nat (length (lessons m)) - 1)) as [Hlt|Hge].
    + destruct (lookup_lt_is_Some_2 (lessons m) 1) as [n Hn]; [lia |].
      rewrite Hn. reflexivity.
    + rewrite (lookup_ge_None_2 (lessons m) 1) by lia. reflexivity.
  - replace (0 + Z.of_nat (S k') - 1)%Z with (Z.of_nat k') by lia.
    rewrite NavigationFacts.at_index_nat.
    destruct (Z.gtb_spec (0 + Z.of_nat (S k')) 0) as [_|Hle]; [| lia].
    destruct (lookup_lt_is_Some_2 (lessons m) k') as [p Hp]; [lia |].
    rewrite Hp.
    destruct (Z.ltb_spec (0 + Z.of_nat (S k')) (Z.of_nat (length (lessons m)) - 1))
      as [Hlt|Hge].
    + destruct (lookup_lt_is_Some_2 (lessons m) (S (S k'))) as [n Hn]; [lia |].
      rewrite Hn. reflexivity.
    + rewrite (lookup_ge_None_2 (lessons m) (S (S k'))) by lia. reflexivity.
Qed.

Lemma unique_first m k l :
  NoDup (slug <$> lessons m) -> lessons m !! k = Some l ->
  first_with_slug m (slug l) k l.
Proof.
  intros Hnd Hk. split; [exact Hk |]. split; [reflexivity |].
  intros j l' Hj Hl' Hs.
  assert (j = k) as ->; [| lia].
  apply (NoDup_lookup _ _ _ (slug l) Hnd); rewrite list_lookup_fmap.
  - rewrite Hl'. simpl. rewrite Hs. reflexivity.
  - rewrite Hk. reflexivity.
Qed.

End NavigationRoundTrip.

Module StaleFacts.
Import Content Loader LessonRoute.

Lemma notify_keeps_content st u :
  is_Some (lessonContent u) -> is_Some (lessonContent (notify st u)).
Proof.
  intros H. destruct st as [p | [v | [e | v]]]; simpl; try exact H.
  - eexists. reflexivity.
  - destruct (String.eqb (name e) "AbortError"); exact H.
Qed.

Lemma step_keeps_content sys e :
  is_Some (lessonContent (ui sys)) -> is_Some (lessonContent (ui (step sys e))).
Proof.
  intros H. destruct e as [lesson now | i r | i b now | i reason]; unfold step.
  - destruct (fetchLessonContent_start lesson None now (world sys)) as [w st].
    cbn [ui]. apply notify_keeps_content. exact H.
  - destruct (calls sys !! i) as [c|]; [| exact H].
    destruct (call_state c) as [[|] | o]; try exact H.
    destruct (fetchLessonContent_on_fetch _ _ _) as [w st].
    unfold resume. cbn [ui]. apply notify_keeps_content, H.
  - destruct (calls sys !! i) as [c|]; [| exact H].
    destruct (call_state c) as [[|] | o]; try exact H.
    destruct (fetchLessonContent_on_body _ _ _ _) as [w st].
    unfold resume. cbn [ui]. apply notify_keeps_content, H.
  - destruct (calls sys !! i) as [c|]; [| exact H].
    destruct (call_state c) as [[|] | o]; try exact H.
    + destruct (fetchLessonContent_on_fetch _ _ _) as [w st].
      unfold resume. cbn [ui]. apply notify_keeps_content, H.
    + destruct (fetchLessonContent_on_body _ _ _ _) as [w st].
      unfold resume. cbn [ui]. apply notify_keeps_content, H.
Qed.

Lemma run_keeps_content es : forall sys,
  is_Some (lessonContent (ui sys)) -> is_Some (lessonContent (ui (run sys es))).
Proof.
  induction es as [|e es IH]; intros sys H; [exact H |].
  change (run sys (e :: es)) with (run (step sys e) es).
  apply IH, step_keeps_content, H.
Qed.

End StaleFacts.

(** ** The scan on UTF-16 code units, line by line *)

Module Utf16ScanFacts.
Import Utf16Scan.

Lemma scan_take_while_Forall p s : Forall (fun c => p c = true) (take_while p s).
Proof.
  induction s as [|c s IH]; simpl; [constructor |].
  destruct (p c) eqn:E; constructor; assumption.
Qed.

Lemma scan_take_drop_while p s : take_while p s ++ drop (length (take_while p s)) s = s.
Proof.
  induction s as [|c s IH]; simpl; [reflexivity |].
  destruct (p c); simpl; [f_equal; exact IH | reflexivity].
Qed.

Lemma scan_drop_take_while_starts p s :
  match drop (length (take_while p s)) s with
  | c :: _ => p c = false
  | [] => True
  end.
Proof.
  induction s as [|c s IH]; simpl; [exact I |].
  destruct (p c) eqn:E; simpl; [exact IH | exact E].
Qed.

(** [take_while] stops inside [l], or at its end when what follows does
    not go on. *)
Lemma scan_take_while_app_stop p l suf :
  match suf with c :: _ => p c = false | [] => True end ->
  take_while p (l ++ suf) = take_while p l.
Proof.
  intros Hsuf. induction l as [|a l IH]; simpl.
  - destruct suf as [|c suf]; simpl; [reflexivity | rewrite Hsuf; reflexivity].
  - destruct (p a); [f_equal; exact IH | reflexivity].
Qed.

Lemma hash_not_space c : is_hash c = true -> is_space c = false.
Proof. unfold is_hash. intros ->%N.eqb_eq. reflexivity. Qed.

Lemma match_hashes_more_hashes n s :
  n < length (take_while is_hash s) -> match_hashes n s = None.
Proof.
  induction n as [|n IH]; [reflexivity |].
  destruct n as [|n]; [reflexivity |]. intros Hn.
  cbn [match_hashes].
  assert (take_while is_space (drop (S (S n)) s) = []) as ->.
  { pose proof (scan_take_while_Forall is_hash s) as Hh.
    rewrite <- (scan_take_drop_while is_hash s).
    rewrite drop_app_le by lia.
    destruct (drop (S (S n)) (take_while is_hash s)) as [|c r] eqn:E.
    - apply (f_equal length) in E. rewrite length_drop in E. simpl in E. lia.
    - assert (is_hash c = true) as Hc.
      { rewrite <- (take_drop (S (S n)) (take_while is_hash s)) in Hh.
        rewrite E in Hh. apply Forall_app in Hh as [_ Hh].
        inversion Hh; assumption. }
      simpl. rewrite (hash_not_space c Hc). reflexivity. }
  simpl. apply IH. lia.
Qed.

Lemma terminator_not_hash c : is_line_terminator c = true -> is_hash c = false.
Proof.
  unfold is_hash. destruct (N.eqb_spec c 35) as [->|]; [discriminate | reflexivity].
Qed.

Lemma ends_line_stops (p : N -> bool) suf :
  (forall c, is_line_terminator c = true -> p c = false) ->
  ends_line suf ->
  match suf with c :: _ => p c = false | [] => True end.
Proof. intros Hp. destruct suf as [|c suf]; simpl; [auto | apply Hp]. Qed.

(** [take_while] stops inside [l]. *)
Lemma scan_take_while_app_inside p l suf :
  drop (length (take_while p l)) l <> [] ->
  take_while p (l ++ suf) = take_while p l.
Proof.
  induction l as [|a l IH]; simpl; [done |].
  destruct (p a); simpl; [intros H; f_equal; apply IH, H | reflexivity].
Qed.

Lemma no_terminator_drop n line : no_terminator line -> no_terminator (drop n line).
Proof.
  unfold no_terminator. intros H. rewrite <- (take_drop n line) in H.
  apply Forall_app in H as [_ H]. exact H.
Qed.

Lemma scan_take_while_all p l : Forall (fun c => p c = true) l -> take_while p l = l.
Proof.
  induction 1 as [|c l Hc _ IH]; simpl; [reflexivity |]. rewrite Hc, IH. reflexivity.
Qed.

Lemma match_text_line body suf :
  body <> [] -> no_terminator body -> ends_line suf ->
  match_text (body ++ suf) = Some body.
Proof.
  intros Hne Hbody Hsuf. unfold match_text.
  rewrite scan_take_while_app_stop.
  - rewrite scan_take_while_all.
    + destruct body; [done | reflexivity].
    + eapply Forall_impl; [exact Hbody |]. intros c Hc. simpl in Hc.
      unfold not_terminator. rewrite Hc. reflexivity.
  - apply ends_line_stops; [| exact Hsuf]. intros c Hc. unfold not_terminator.
    rewrite Hc. reflexivity.
Qed.

Lemma match_heading_line line suf :
  no_terminator line -> hashes_only line = false -> ends_line suf ->
  match_heading (line ++ suf)
  = match line_heading line with
    | Some (h, t) => Some (h, length (take_while is_space (drop h line)), t)
    | None => None
    end.
Proof.
  intros Hline Hbare Hsuf. unfold match_heading, line_heading, hashes_only in *.
  assert (take_while is_hash (line ++ suf) = take_while is_hash line) as Hh
    by (apply scan_take_while_app_stop, ends_line_stops; [apply terminator_not_hash | exact Hsuf]).
  assert (forall n, n < length (take_while is_hash line) ->
                    match_hashes n (line ++ suf) = None) as Hmore.
  { intros n Hn. apply match_hashes_more_hashes. rewrite Hh. exact Hn. }
  rewrite Hh. clear Hh.
  assert (length (take_while is_hash line) <= length line) as Hlen.
  { rewrite <- (scan_take_drop_while is_hash line) at 2. rewrite length_app. lia. }
  remember (length (take_while is_hash line)) as h eqn:Eh.
  remember (drop h line) as rest eqn:Erest.
  assert (no_terminator rest) as Hrest by (subst rest; apply no_terminator_drop, Hline).
  pose proof (scan_drop_take_while_starts is_space rest) as Hstart.
  assert (length (take_while is_space rest) <= length rest) as Hk.
  { rewrite <- (scan_take_drop_while is_space rest) at 2. rewrite length_app. lia. }
  pose proof (scan_take_while_app_inside is_space rest suf) as Hws.
  remember (length (take_while is_space rest)) as k eqn:Ek.
  destruct (Nat.leb_spec 2 h) as [H2|H2]; cbn [andb].
  2:{ clear Eh. destruct h as [|[|h']]; [reflexivity | reflexivity | lia]. }
  destruct (Nat.leb_spec h 4) as [H4|H4]; cbn [andb].
  2:{ apply Hmore. lia. }
  rewrite Nat.min_r by lia.
  cbn [andb] in Hbare.
  destruct (drop k rest) as [|c body'] eqn:Ebody; [discriminate Hbare |].
  specialize (Hws ltac:(discriminate)).
  clear Eh. destruct h as [|[|h']]; [lia | lia |].
  cbn [match_hashes].
  rewrite drop_app_le by exact Hlen. rewrite <- Erest, Hws, <- Ek.
  destruct k as [|k0].
  - cbn [match_spaces_text]. apply (Hmore (S h')). lia.
  - cbn [match_spaces_text].
    rewrite drop_app_le by exact Hk. rewrite Ebody.
    rewrite match_text_line; [| discriminate | | exact Hsuf].
    + change (1 <=? S k0) with true. cbv iota beta.
      rewrite <- Erest, <- Ek. reflexivity.
    + rewrite <- Ebody. apply no_terminator_drop, Hrest.
Qed.

Lemma line_heading_length line h t :
  line_heading line = Some (h, t) ->
  h + length (take_while is_space (drop h line)) + length t = length line
  /\ 2 <= h.
Proof.
  unfold line_heading.
  pose proof (scan_take_drop_while is_hash line) as E1.
  pose proof (scan_take_drop_while is_space (drop (length (take_while is_hash line)) line)) as E2.
  destruct (Nat.leb_spec 2 (length (take_while is_hash line))) as [H2|H2];
    cbn [andb]; [| discriminate].
  destruct ((length (take_while is_hash line) <=? 4)
            && (1 <=? length (take_while is_space
                                (drop (length (take_while is_hash line)) line))));
    [| discriminate].
  intros H. inversion H; subst h t. split; [| assumption].
  apply (f_equal length) in E1, E2. rewrite length_app in E1, E2. lia.
Qed.

Lemma exec_all_skip l suf : forall b,
  no_terminator l -> b = false \/ l <> [] ->
  exec_all (length l) b (l ++ suf) = exec_all 0 false suf.
Proof.
  induction l as [|c l IH]; intros b Hl Hb.
  - destruct Hb as [-> | Hb]; [reflexivity | done].
  - inversion Hl as [|? ? Hc Hl']; subst. simpl. rewrite Hc.
    apply IH; [exact Hl' | left; reflexivity].
Qed.

Lemma exec_all_inside l suf :
  no_terminator l -> exec_all 0 false (l ++ suf) = exec_all 0 false suf.
Proof.
  induction 1 as [|c l Hc _ IH]; [reflexivity |].
  simpl. rewrite Hc. exact IH.
Qed.

Lemma exec_all_line_end suf : ends_line suf -> exec_all 0 false suf = exec_rest suf.
Proof. destruct suf as [|c tail]; simpl; [reflexivity |]. intros ->. reflexivity. Qed.

Lemma exec_all_line line suf :
  no_terminator line -> hashes_only line = false -> ends_line suf ->
  exec_all 0 true (line ++ suf)
  = match line_heading line with Some m => [m] | None => [] end ++ exec_rest suf.
Proof.
  intros Hline Hbare Hsuf.
  pose proof (match_heading_line line suf Hline Hbare Hsuf) as Hm.
  destruct line as [|a l].
  - simpl in *. destruct suf as [|c tail]; [reflexivity |].
    cbn [exec_all]. rewrite Hm. simpl in Hsuf. rewrite Hsuf. reflexivity.
  - change ((a :: l) ++ suf) with (a :: (l ++ suf)) in *.
    inversion Hline as [|? ? Ha Hl]; subst.
    cbn [exec_all]. rewrite Hm. rewrite Ha.
    destruct (line_heading (a :: l)) as [[h t]|] eqn:E.
    + destruct (line_heading_length _ _ _ E) as [Hlen H2].
      simpl in Hlen.
      replace (h + length (take_while is_space (drop h (a :: l))) + length t - 1)
        with (length l) by lia.
      rewrite exec_all_skip by (auto). rewrite exec_all_line_end by exact Hsuf.
      reflexivity.
    + rewrite exec_all_inside by exact Hl. rewrite exec_all_line_end by exact Hsuf.
      reflexivity.
Qed.

Lemma exec_all_lines lines :
  Forall no_terminator lines ->
  Forall (fun line => hashes_only line = false) lines ->
  exec_all 0 true (join_lines lines) = omap line_heading lines.
Proof.
  induction lines as [|l ls IH]; intros Hlines Hbare; [reflexivity |].
  inversion Hlines as [|? ? Hl Hls]; subst.
  inversion Hbare as [|? ? Hb Hbs]; subst.
  destruct ls as [|l2 ls].
  - simpl. rewrite <- (app_nil_r l) at 1.
    rewrite (exec_all_line l [] Hl Hb I). simpl.
    destruct (line_heading l); reflexivity.
  - change (join_lines (l :: l2 :: ls)) with (l ++ LF :: join_lines (l2 :: ls)).
    rewrite (exec_all_line l _ Hl Hb) by reflexivity.
    cbn [exec_rest]. rewrite (IH Hls Hbs).
    cbn [omap list_omap]. destruct (line_heading l); reflexivity.
Qed.

(** *** On code units below 256 the scan is that of [HeadingScan] *)

Lemma units_is_hash c : is_hash (JsString.code c) = JsString.is_hash c.
Proof. reflexivity. Qed.

Lemma units_is_space c : is_space (JsString.code c) = JsString.is_space c.
Proof. SlugShape.by_cases_on c. Qed.

Lemma units_is_line_terminator c :
  is_line_terminator (JsString.code c) = JsString.is_line_terminator c.
Proof. SlugShape.by_cases_on c. Qed.

Lemma units_take_while p q s :
  (forall c, p (JsString.code c) = q c) ->
  take_while p (units s) = units (JsString.take_while q s).
Proof.
  intros Hpq. induction s as [|c s IH]; [reflexivity |].
  cbn [units fmap list_fmap take_while JsString.take_while]. rewrite Hpq.
  destruct (q c); [| reflexivity]. cbn [fmap list_fmap]. f_equal. exact IH.
Qed.

Lemma units_drop n s : drop n (units s) = units (drop n s).
Proof. unfold units. symmetry. apply fmap_drop. Qed.

Lemma units_length s : length (units s) = length s.
Proof. apply length_fmap. Qed.

Lemma units_match_text s :
  match_text (units s) = units <$> HeadingScan.match_text s.
Proof.
  unfold match_text, HeadingScan.match_text.
  rewrite (units_take_while _ (fun c => negb (JsString.is_line_terminator c))).
  - destruct (JsString.take_while _ s); reflexivity.
  - intros c. unfold not_terminator. rewrite units_is_line_terminator. reflexivity.
Qed.

Lemma units_match_spaces_text k s :
  match_spaces_text k (units s)
  = (fun m : nat * list ascii => (m.1, units m.2)) <$> HeadingScan.match_spaces_text k s.
Proof.
  induction k as [|k IH]; [reflexivity |].
  cbn [match_spaces_text HeadingScan.match_spaces_text].
  rewrite units_drop, units_match_text.
  destruct (HeadingScan.match_text (drop (S k) s)); [reflexivity | exact IH].
Qed.

Lemma units_match_hashes n s :
  match_hashes n (units s)
  = (fun m : nat * nat * list ascii => (m.1, units m.2)) <$> HeadingScan.match_hashes n s.
Proof.
  induction n as [|n IH]; [reflexivity |].
  destruct n as [|n]; [reflexivity |].
  cbn [match_hashes HeadingScan.match_hashes].
  rewrite units_drop, (units_take_while _ _ _ units_is_space), units_length,
    units_match_spaces_text.
  destruct (HeadingScan.match_spaces_text _ _) as [[k t]|]; [reflexivity | exact IH].
Qed.

Lemma units_match_heading s :
  match_heading (units s)
  = (fun m : nat * nat * list ascii => (m.1, units m.2)) <$> HeadingScan.match_heading s.
Proof.
  unfold match_heading, HeadingScan.match_heading.
  rewrite (units_take_while _ _ _ units_is_hash), units_length.
  apply units_match_hashes.
Qed.

(** On a text of code units below 256 the loop finds the matches that
    [HeadingScan.exec_all] finds. *)
Lemma units_exec_all s : forall skip line_start,
  exec_all skip line_start (units s)
  = units_of_match <$> HeadingScan.exec_all skip line_start s.
Proof.
  induction s as [|c s IH]; intros skip b; [reflexivity |].
  change (units (c :: s)) with (JsString.code c :: units s).
  cbn [exec_all HeadingScan.exec_all].
  destruct skip as [|k]; [| rewrite units_is_line_terminator; apply IH].
  destruct b; [| rewrite units_is_line_terminator; apply IH].
  change (JsString.code c :: units s) with (units (c :: s)).
  rewrite units_match_heading.
  destruct (HeadingScan.match_heading (c :: s)) as [[[level k] t]|]; cbn [fmap option_fmap option_map].
  - cbn [fst snd]. rewrite fmap_cons. unfold units_of_match at 1. cbn [fst snd].
    rewrite units_is_line_terminator, units_length. f_equal. apply IH.
  - rewrite units_is_line_terminator. apply IH.
Qed.

End Utf16ScanFacts.

(** * The table of contents: order, nesting and top level *)

(** X1.  [buildHeadingTree] loses no heading, adds none and keeps the order
    of the document: reading the returned forest node by node, each node
    before its children, gives back the headings it was built from. *)
Theorem buildHeadingTree_keeps_document_order (hs : list Toc.TOCHeading) :
  Forall TocStore.flat_heading hs ->
  exists forest,
    Toc.buildHeadingTree hs = Some forest /\ TocShape.flatten forest = hs.
Proof.
  intros H. exists (Toc.buildTree_spec hs).
  split; [apply TocFacts.buildHeadingTree_refines, H
         | apply TocShapeFacts.buildTree_spec_flatten, H].
Qed.

(** X2.  In the forest of [buildHeadingTree] every child is strictly deeper
    than its parent, at every level. *)
Theorem buildHeadingTree_children_are_deeper (hs : list Toc.TOCHeading) :
  Forall TocStore.flat_heading hs ->
  exists forest,
    Toc.buildHeadingTree hs = Some forest /\ Forall TocShape.Nested forest.
Proof.
  intros H. exists (Toc.buildTree_spec hs).
  split; [apply TocFacts.buildHeadingTree_refines, H
         | apply TocShapeFacts.buildTree_spec_nested].
Qed.

(** X3.  The top level of the forest of [buildHeadingTree] holds exactly the
    headings that are not deeper than any heading before them, in order:
    the first heading is always at the top level, whatever its depth. *)
Theorem buildHeadingTree_top_level (hs : list Toc.TOCHeading) :
  Forall TocStore.flat_heading hs ->
  exists forest,
    Toc.buildHeadingTree hs = Some forest
    /\ TocShape.heading_of <$> forest = TocShape.not_deeper_than_earlier [] hs.
Proof.
  intros H. exists (Toc.buildTree_spec hs).
  split; [apply TocFacts.buildHeadingTree_refines, H
         | apply TocShapeFacts.buildTree_spec_roots, H].
Qed.

(** X4.  Every heading of the table of contents of [extractHeadings], at
    any level, has a depth of 2, 3 or 4, a text without line terminator and
    without white space at either end, and the id that [generateHeadingId]
    gives to that text. *)
Theorem extractHeadings_heading_fields
        (markdown : string) (forest : list Toc.HeadingNode) (h : Toc.TOCHeading) :
  Toc.extractHeadings markdown = Some forest ->
  h ∈ TocShape.flatten forest ->
  2 <= Toc.depth h <= 4
  /\ Forall (fun c => JsString.is_line_terminator c = false) (JsString.chars (Toc.text h))
  /\ JsString.trim (JsString.chars (Toc.text h)) = JsString.chars (Toc.text h)
  /\ Toc.id h = Slug.generateHeadingId (Toc.text h).
Proof.
  rewrite TocFacts.extractHeadings_total. intros Hf Hh. inversion Hf; subst forest.
  rewrite TocShapeFacts.buildTree_spec_flatten in Hh
    by apply TocFacts.matched_headings_flat.
  apply (ScanFacts.matched_headings_fields markdown h Hh).
Qed.

(** X5.  The loop of [extractHeadings] reads a text line by line when its
    lines are separated by LF, hold no CR, no U+2028 and no U+2029, and
    none of them consists of two to four hashes followed by nothing but
    white space.  Its matches are then, in order, the lines that start with
    two to four hashes followed by white space: [match[1]] holds the hashes
    and [match[2]] the rest of the line after the white space.  It makes no
    difference whether a line stands inside a code fence.  The text is a
    sequence of UTF-16 code units; on code units below 256 the loop is that
    of [HeadingScan] ([Utf16ScanFacts.units_exec_all]). *)
Theorem extractHeadings_line_by_line (lines : list (list N)) :
  Forall Utf16Scan.no_terminator lines ->
  Forall (fun line => Utf16Scan.hashes_only line = false) lines ->
  Utf16Scan.exec_all 0 true (Utf16Scan.join_lines lines)
  = omap Utf16Scan.line_heading lines.
Proof. apply Utf16ScanFacts.exec_all_lines. Qed.

(** * Heading ids *)

(** X6.  An id of [generateHeadingId] is made of the code units [a-z], [0-9]
    and the hyphen, and neither starts nor ends with a hyphen. *)
Theorem generateHeadingId_alphabet (t : string) :
  Forall (fun c => SlugShape.id_char c = true) (JsString.chars (Slug.generateHeadingId t))
  /\ SlugShape.starts_outside JsString.is_hyphen (JsString.chars (Slug.generateHeadingId t))
  /\ SlugShape.starts_outside JsString.is_hyphen
       (rev (JsString.chars (Slug.generateHeadingId t))).
Proof.
  unfold Slug.generateHeadingId. rewrite SlugShapeFacts.chars_str.
  split; [apply SlugShapeFacts.generateHeadingId_chars_class |].
  rewrite SlugShapeFacts.generateHeadingId_chars_trimmed.
  split; [apply SlugShapeFacts.strip_starts | apply SlugShapeFacts.strip_ends].
Qed.

(** X7.  [generateHeadingId] changes no id: applied to its own result it
    returns it. *)
Theorem generateHeadingId_idempotent (t : string) :
  Slug.generateHeadingId (Slug.generateHeadingId t) = Slug.generateHeadingId t.
Proof.
  unfold Slug.generateHeadingId. rewrite SlugShapeFacts.chars_str.
  rewrite SlugShapeFacts.generateHeadingId_chars_idempotent. reflexivity.
Qed.

(** X8.  The letters [a-z] and the digits of an id are those of the
    lowercased text, in the same order; and the id is the empty string
    exactly when the lowercased text holds no letter [a-z] and no digit. *)
Theorem generateHeadingId_keeps_letters_and_digits (t : string) :
  SlugShape.cores (JsString.chars (Slug.generateHeadingId t))
  = SlugShape.cores (JsString.toLowerCase (JsString.chars t))
  /\ (Slug.generateHeadingId t = EmptyString
      <-> Forall (fun c => SlugShape.core c = false)
                 (JsString.toLowerCase (JsString.chars t))).
Proof.
  unfold Slug.generateHeadingId. rewrite SlugShapeFacts.chars_str.
  split; [apply SlugShapeFacts.cores_generateHeadingId_chars |].
  rewrite <- SlugShapeFacts.generateHeadingId_chars_nil. split.
  - intros H. apply (f_equal JsString.chars) in H.
    rewrite SlugShapeFacts.chars_str in H. exact H.
  - intros ->. reflexivity.
Qed.

(** * The lesson catalogue *)

(** X9.  [findLessonBySlug] returns the lesson at the index that
    [getLessonNavigation] finds with [findIndex], the first lesson with the
    slug; it returns [undefined] exactly when no lesson has the slug. *)
Theorem findLessonBySlug_is_first_with_slug (m : Content.ContentManifest) (s : string) :
  Catalog.findLessonBySlug m s
  = Navigation.at_index (Content.lessons m)
      (Navigation.findIndex (fun lesson => String.eqb (Content.slug lesson) s)
                            (Content.lessons m))
  /\ (Catalog.findLessonBySlug m s = None
      <-> forall l, l ∈ Content.lessons m -> Content.slug l <> s).
Proof. split; [apply CatalogFacts.find_at_findIndex | apply CatalogFacts.find_none]. Qed.

(** X10.  [searchLessons] does not look at the case of the query: two
    queries with the same lowercase form give the same lessons. *)
Theorem searchLessons_ignores_case (ls : list Content.Lesson) (q1 q2 : string) :
  Catalog.lower q1 = Catalog.lower q2 ->
  Catalog.searchLessons ls q1 = Catalog.searchLessons ls q2.
Proof. apply CatalogFacts.searchLessons_lower. Qed.

(** X11.  Typing more narrows the search: when a query that is not blank
    occurs inside a second query, letter case apart, the lessons found for
    the second are among those found for the first, in the same order, and
    searching the first result for the second query finds them all. *)
Theorem searchLessons_narrows (ls : list Content.Lesson) (q1 q2 : string) :
  ~ Catalog.blank q1 ->
  Catalog.includes (Catalog.lower q2) (Catalog.lower q1) = true ->
  Catalog.searchLessons (Catalog.searchLessons ls q1) q2 = Catalog.searchLessons ls q2
  /\ Catalog.searchLessons ls q2 `sublist_of` Catalog.searchLessons ls q1.
Proof. apply CatalogFacts.searchLessons_narrow. Qed.

(** X12.  [filterLessonsByTags] reads the selection as a set: the order of
    the selected tags and their repetitions do not change the result. *)
Theorem filterLessonsByTags_selection_is_a_set
        (ls : list Content.Lesson) (sel1 sel2 : list string) :
  (forall t, t ∈ sel1 <-> t ∈ sel2) ->
  Catalog.filterLessonsByTags ls sel1 = Catalog.filterLessonsByTags ls sel2.
Proof. apply CatalogFacts.filterLessonsByTags_same_set. Qed.

(** X13.  Adding tags to a selection that is not empty loses no lesson: the
    lessons of the smaller selection are among those of the larger one, in
    the same order.  (The empty selection is the exception of the code: it
    returns every lesson.) *)
Theorem filterLessonsByTags_widening
        (ls : list Content.Lesson) (sel1 sel2 : list string) :
  sel1 <> [] ->
  (forall t, t ∈ sel1 -> t ∈ sel2) ->
  Catalog.filterLessonsByTags ls sel1 `sublist_of` Catalog.filterLessonsByTags ls sel2.
Proof. apply CatalogFacts.filterLessonsByTags_widen. Qed.

(** X14.  [getAllTags] returns the tags that the lessons carry, each once,
    in strictly ascending code-unit order. *)
Theorem getAllTags_sorted_without_duplicates (ls : list Content.Lesson) :
  StronglySorted Catalog.code_unit_lt (Catalog.getAllTags ls)
  /\ forall t, t ∈ Catalog.getAllTags ls <-> Catalog.carries ls t.
Proof.
  split; [apply CatalogFacts.getAllTags_sorted | apply CatalogFacts.getAllTags_elem].
Qed.

(** X15.  [getAllTags] depends on the set of tags only: two lists of
    lessons that carry the same tags, in whatever order and however often,
    give the same array. *)
Theorem getAllTags_depends_on_tags_only (ls1 ls2 : list Content.Lesson) :
  (forall t, Catalog.carries ls1 t <-> Catalog.carries ls2 t) ->
  Catalog.getAllTags ls1 = Catalog.getAllTags ls2.
Proof. apply CatalogFacts.getAllTags_same_tags. Qed.

(** X16.  Selecting every tag is not selecting none: when the lessons carry
    a tag at all, [filterLessonsByTags] with all the tags of [getAllTags]
    keeps the lessons that have a tag and drops the others, whereas the
    empty selection returns every lesson. *)
Theorem filterLessonsByTags_all_tags_drops_untagged (ls : list Content.Lesson) :
  Catalog.getAllTags ls <> [] ->
  Catalog.filterLessonsByTags ls (Catalog.getAllTags ls)
  = filter (fun lesson => Is_true (Catalog.tagged lesson)) ls
  /\ Catalog.filterLessonsByTags ls [] = ls.
Proof.
  intros H. split; [apply CatalogFacts.filterLessonsByTags_all, H | reflexivity].
Qed.

(** * The cache *)

Section CacheTheorems.
Import Content Storage Loader CacheControl CacheFacts.
Local Open Scope Z_scope.

(** X17.  After [clearContentCache] the next call of either loader, for
    whatever lesson, finds no entry and sends its request; the items stored
    under other keys are as they were. *)
Theorem clearContentCache_forces_refetch
        (w : World) (s' : SessionStorage) (lesson : Lesson) (now : Z) :
  clearContentCache (storage w) = Ok s' ->
  fetchContentManifest_start None now (with_storage s' w)
  = (log_request "/content-manifest.json" (with_storage s' w), Suspended AwaitFetch)
  /\ fetchLessonContent_start lesson None now (with_storage s' w)
     = (log_request (mdPath lesson) (with_storage s' w), Suspended AwaitFetch)
  /\ forall k, is_cache_key k = false -> items s' !! k = items (storage w) !! k.
Proof.
  intros H. destruct (clearContentCache_spec _ _ H) as (Hget & _ & Hitems).
  split; [| split].
  - unfold fetchContentManifest_start, getItem. cbn [storage with_storage].
    rewrite Hget, Hitems, manifest_key_is_cache_key. reflexivity.
  - unfold fetchLessonContent_start, getItem. cbn [storage with_storage].
    rewrite Hget, Hitems, cacheKey_is_cache_key. reflexivity.
  - intros k Hk. rewrite Hitems, Hk. reflexivity.
Qed.

(** X18.  What [fetchLessonContent] fetched is served from the cache
    afterwards: when a call that sent a request resolves, with a time of
    writing other than 0, every call for the same lesson made less than
    [CACHE_EXPIRY] later resolves to the same content and changes nothing,
    whatever the network would answer. *)
Theorem fetchLessonContent_cached_after_fetch
        (w w1 : World) (lesson : Lesson) (net net2 : Network string)
        (t0 t1 t2 t3 : Z) (c : LessonContent) :
  fetchLessonContent lesson net t0 t1 w = (w1, Settled (Resolved c)) ->
  requests w1 <> requests w ->
  t1 <> 0 -> t2 - t1 < CACHE_EXPIRY ->
  fetchLessonContent lesson net2 t2 t3 w1 = (w1, Settled (Resolved c)).
Proof.
  unfold fetchLessonContent at 1. unfold fetchLessonContent_start, getItem.
  destruct (getItem_error (storage w)) as [e|] eqn:Hget; [discriminate |].
  destruct (read_cache t0 (items (storage w) !! cacheKey lesson)).
  - intros H. inversion H; subst. contradiction.
  - unfold fetchLessonContent_on_fetch.
    destruct (fetch_settles net) as [response | t]; [| discriminate].
    destruct (ok response); [| discriminate].
    unfold fetchLessonContent_on_body.
    destruct (body_settles net) as [md | t]; [| discriminate].
    destruct (Toc.extractHeadings md) as [hs|]; [| discriminate].
    unfold setItem. cbn [storage log_request].
    destruct (setItem_error (storage w)) as [e|] eqn:Hset; [discriminate |].
    intros H _ Ht1 Ht2. inversion H; subst. clear H.
    unfold fetchLessonContent, fetchLessonContent_start, getItem.
    cbn [storage store items getItem_error]. rewrite Hget, lookup_insert_eq.
    unfold read_cache, fresh. cbn [timestamp].
    destruct (Z.eqb_spec t1 0) as [|_]; [contradiction |].
    destruct (Z.ltb_spec (t2 - t1) CACHE_EXPIRY) as [_|]; [| lia].
    reflexivity.
  - discriminate.
Qed.

(** X19.  The same for the manifest: what [fetchContentManifest] fetched is
    returned from the cache by every call made less than [CACHE_EXPIRY]
    after a writing time other than 0, without a request. *)
Theorem fetchContentManifest_cached_after_fetch
        (w w1 : World) (net net2 : Network Json) (t0 t1 t2 t3 : Z) (m : option Json) :
  fetchContentManifest net t0 t1 w = (w1, Settled (Resolved m)) ->
  requests w1 <> requests w ->
  t1 <> 0 -> t2 - t1 < CACHE_EXPIRY ->
  fetchContentManifest net2 t2 t3 w1 = (w1, Settled (Resolved m)).
Proof.
  unfold fetchContentManifest at 1. unfold fetchContentManifest_start, getItem.
  destruct (getItem_error (storage w)) as [e|] eqn:Hget; [discriminate |].
  destruct (read_cache t0 (items (storage w) !! MANIFEST_CACHE_KEY)).
  - intros H. inversion H; subst. contradiction.
  - unfold fetchContentManifest_on_fetch.
    destruct (fetch_settles net) as [response | t]; [| discriminate].
    destruct (ok response); [| discriminate].
    unfold fetchContentManifest_on_body.
    destruct (body_settles net) as [payload | t]; [| discriminate].
    unfold setItem. cbn [storage log_request].
    destruct (setItem_error (storage w)) as [e|] eqn:Hset; [discriminate |].
    intros H _ Ht1 Ht2. inversion H; subst. clear H.
    unfold fetchContentManifest, fetchContentManifest_start, getItem.
    cbn [storage store items getItem_error]. rewrite Hget, lookup_insert_eq.
    unfold read_cache, fresh. cbn [timestamp].
    destruct (Z.eqb_spec t1 0) as [|_]; [contradiction |].
    destruct (Z.ltb_spec (t2 - t1) CACHE_EXPIRY) as [_|]; [| lia].
    reflexivity.
  - discriminate.
Qed.

(** X20.  A call of a loader, run against a network that answers, always
    settles.  When it rejects, it has stored nothing, has sent at most its
    one request, and rejects with an [Error]: the [AbortError] it received
    or an [Error] whose message starts with the text of the loader.  When
    it resolves, it either changed nothing (a cache hit) or sent exactly
    one request and wrote exactly its own key. *)
Theorem loaders_settle_cleanly
        (lesson : Lesson) (netl : Network string) (netm : Network Json)
        (t0 t1 : Z) (w : World) :
  match fetchLessonContent lesson netl t0 t1 w with
  | (w1, Settled (Rejected t)) =>
      storage w1 = storage w /\ writes w1 = writes w
      /\ (requests w1 = requests w \/ requests w1 = requests w ++ [mdPath lesson])
      /\ loader_error (lesson_what lesson) t
  | (w1, Settled (Resolved c)) =>
      w1 = w
      \/ (requests w1 = requests w ++ [mdPath lesson]
          /\ writes w1 = writes w ++ [cacheKey lesson])
  | (_, Suspended _) => False
  end
  /\ match fetchContentManifest netm t0 t1 w with
     | (w1, Settled (Rejected t)) =>
         storage w1 = storage w /\ writes w1 = writes w
         /\ (requests w1 = requests w
             \/ requests w1 = requests w ++ ["/content-manifest.json"])
         /\ loader_error manifest_what t
     | (w1, Settled (Resolved c)) =>
         w1 = w
         \/ (requests w1 = requests w ++ ["/content-manifest.json"]
             /\ writes w1 = writes w ++ [MANIFEST_CACHE_KEY])
     | (_, Suspended _) => False
     end.
Proof.
  split; [apply fetchLessonContent_outcome | apply fetchContentManifest_outcome].
Qed.

(** X21.  Each loader touches its own cache entry only.  A call of
    [fetchLessonContent] leaves the item of every key other than its
    [cacheKey] as it was, a call of [fetchContentManifest] the item of
    every key other than ['content-manifest']; the key of a lesson is never
    the key of the manifest, and lessons with different slugs have
    different keys. *)
Theorem loaders_write_their_own_key_only
        (lesson : Lesson) (netl : Network string) (netm : Network Json)
        (t0 t1 : Z) (w : World) :
  (forall k, k <> cacheKey lesson ->
             items (storage (fst (fetchLessonContent lesson netl t0 t1 w))) !! k
             = items (storage w) !! k)
  /\ (forall k, k <> MANIFEST_CACHE_KEY ->
                items (storage (fst (fetchContentManifest netm t0 t1 w))) !! k
                = items (storage w) !! k)
  /\ cacheKey lesson <> MANIFEST_CACHE_KEY
  /\ (forall other, slug other <> slug lesson -> cacheKey other <> cacheKey lesson).
Proof.
  split; [| split; [| split]].
  - intros k Hk. unfold fetchLessonContent, fetchLessonContent_start, getItem.
    destruct (getItem_error (storage w)); [reflexivity |].
    destruct (read_cache t0 (items (storage w) !! cacheKey lesson)); try reflexivity.
    unfold fetchLessonContent_on_fetch.
    destruct (fetch_settles netl) as [response | t]; [| reflexivity].
    destruct (ok response); [| reflexivity].
    unfold fetchLessonContent_on_body.
    destruct (body_settles netl) as [md | t]; [| reflexivity].
    destruct (Toc.extractHeadings md); [| reflexivity].
    unfold setItem. cbn [storage log_request].
    destruct (setItem_error (storage w)); [reflexivity |].
    cbn [fst storage store items]. apply lookup_insert_ne. congruence.
  - intros k Hk. unfold fetchContentManifest, fetchContentManifest_start, getItem.
    destruct (getItem_error (storage w)); [reflexivity |].
    destruct (read_cache t0 (items (storage w) !! MANIFEST_CACHE_KEY)); try reflexivity.
    unfold fetchContentManifest_on_fetch.
    destruct (fetch_settles netm) as [response | t]; [| reflexivity].
    destruct (ok response); [| reflexivity].
    unfold fetchContentManifest_on_body.
    destruct (body_settles netm) as [payload | t]; [| reflexivity].
    unfold setItem. cbn [storage log_request].
    destruct (setItem_error (storage w)); [reflexivity |].
    cbn [fst storage store items]. apply lookup_insert_ne. congruence.
  - apply cacheKey_not_manifest.
  - intros other Hs Hk. apply Hs, cacheKey_inj, Hk.
Qed.

(** X22.  A stored string that [JSON.parse] rejects blocks its lesson:
    every call of [fetchLessonContent] rejects with an [Error], at whatever
    time and without a request, since the entry never expires; after
    [clearContentCache] the call sends its request again. *)
Theorem unparsable_entry_blocks_the_lesson
        (w : World) (lesson : Lesson) (text : string) :
  getItem_error (storage w) = None ->
  items (storage w) !! cacheKey lesson = Some (OtherText text) ->
  text <> EmptyString ->
  (forall net t0 t1,
      exists e,
        fetchLessonContent lesson net t0 t1 w = (w, Settled (Rejected (ThrownError e)))
        /\ name e = "Error")
  /\ exists s',
      clearContentCache (storage w) = Ok s'
      /\ forall now,
          fetchLessonContent_start lesson None now (with_storage s' w)
          = (log_request (mdPath lesson) (with_storage s' w), Suspended AwaitFetch).
Proof.
  intros Hget Hitem Htext. split.
  - intros net t0 t1. unfold fetchLessonContent, fetchLessonContent_start, getItem.
    rewrite Hget, Hitem. unfold read_cache.
    destruct text as [|c text]; [contradiction |].
    rewrite LoaderFacts.catch_clause_wraps by discriminate.
    eexists. split; reflexivity.
  - unfold clearContentCache. rewrite Hget. eexists. split; [reflexivity |].
    intros now.
    assert (clearContentCache (storage w) = Ok (foldl clear_key (storage w) (keys (storage w))))
      as Hclear by (unfold clearContentCache; rewrite Hget; reflexivity).
    destruct (clearContentCache_spec _ _ Hclear) as (Hget' & _ & Hitems).
    unfold fetchLessonContent_start, getItem. cbn [storage with_storage].
    rewrite Hget', Hitems, cacheKey_is_cache_key. reflexivity.
Qed.

End CacheTheorems.

(** * The lesson route *)

Section RouteExtraTheorems.
Import Content Storage Loader LessonRoute RouteAccount.

(** X23.  Whatever happens on the lesson route, a call of the loader writes
    the cache at most once, and only when it resolves: a call that is
    pending or was rejected has written nothing, and the writes of the
    calls add up to the writes made to the storage. *)
Theorem each_call_writes_at_most_once (w0 : World) (es : list Event) :
  Forall accounted (calls (run (init w0) es))
  /\ length (writes (world (run (init w0) es)))
     = length (writes w0) + total_writes (run (init w0) es).
Proof.
  apply RouteAccountFacts.run_accounted; [constructor |].
  unfold total_writes. simpl. lia.
Qed.

Lemma shown_message (what rest fallback : string) c s :
  what = String c s ->
  match (what ++ rest)%string with
  | EmptyString => fallback
  | m => m
  end = (what ++ rest)%string.
Proof. intros ->. reflexivity. Qed.

Lemma lesson_what_cons lesson : exists s, lesson_what lesson = String "F"%char s.
Proof. eexists. reflexivity. Qed.

(** X24.  A request that fails for another reason than an abort is shown on
    the lesson page.  When the response of a pending call is not OK, the
    page shows ['Failed to load lesson "<title>": Failed to fetch lesson
    content: <status> <statusText>'], stops loading, and nothing is stored;
    when [fetch] rejects with an [Error] that is not an [AbortError], the
    page shows its message after the same prefix. *)
Theorem failed_request_is_shown (sys : System) (i : nat) (c : Call) :
  calls sys !! i = Some c ->
  call_state c = Suspended AwaitFetch ->
  (forall response,
      ok response = false ->
      ui (step sys (FetchSettles i (Fulfilled response)))
      = {| lessonContent := lessonContent (ui sys);
           contentLoading := false;
           contentError :=
             Some (lesson_what (call_lesson c) ++ ": "
                     ++ ("Failed to fetch lesson content: "
                           ++ pretty (status response) ++ " "
                           ++ statusText response))%string |}
      /\ world (step sys (FetchSettles i (Fulfilled response))) = world sys)
  /\ (forall e,
         name e <> "AbortError" ->
         ui (step sys (FetchSettles i (Failed (ThrownError e))))
         = {| lessonContent := lessonContent (ui sys);
              contentLoading := false;
              contentError :=
                Some (lesson_what (call_lesson c) ++ ": " ++ message e)%string |}
         /\ world (step sys (FetchSettles i (Failed (ThrownError e)))) = world sys).
Proof.
  intros Hi Hc. destruct (lesson_what_cons (call_lesson c)) as [s Hs]. split.
  - intros response Hok. unfold step. rewrite Hi, Hc.
    unfold fetchLessonContent_on_fetch. rewrite Hok.
    rewrite LoaderFacts.catch_clause_wraps by discriminate.
    unfold resume. cbn [ui world notify loadContent_settled name message].
    change (String.eqb "Error" "AbortError") with false. cbv iota.
    rewrite (shown_message _ _ _ _ _ Hs). split; reflexivity.
  - intros e He. unfold step. rewrite Hi, Hc.
    unfold fetchLessonContent_on_fetch.
    rewrite LoaderFacts.catch_clause_wraps by exact He.
    unfold resume. cbn [ui world notify loadContent_settled name message].
    change (String.eqb "Error" "AbortError") with false. cbv iota.
    rewrite (shown_message _ _ _ _ _ Hs). split; reflexivity.
Qed.

(** X25.  The timer of [createAbortController] aborts with the string
    ['Request timeout'], which is no [Error]: a call that is still pending
    after 30 seconds is rejected with ['Failed to load lesson "<title>":
    Unknown error'], the lesson page shows that message, and nothing is
    stored.  On a call that has settled the timer has no effect. *)
Theorem request_timeout_is_shown (sys : System) (i : nat) (c : Call) (p : Await) :
  calls sys !! i = Some c ->
  call_state c = Suspended p ->
  ui (step sys (Abort i timeout_reason))
  = {| lessonContent := lessonContent (ui sys);
       contentLoading := false;
       contentError := Some (lesson_what (call_lesson c) ++ ": Unknown error")%string |}
  /\ world (step sys (Abort i timeout_reason)) = world sys
  /\ (forall sys2 c2 o,
         calls sys2 !! i = Some c2 -> call_state c2 = Settled o ->
         step sys2 (Abort i timeout_reason) = sys2).
Proof.
  intros Hi Hc. destruct (lesson_what_cons (call_lesson c)) as [s Hs].
  assert (step sys (Abort i timeout_reason)
          = resume sys i c
              (world sys,
               Settled (Rejected (ThrownError
                 {| name := "Error";
                    message := (lesson_what (call_lesson c) ++ ": Unknown error")%string |}))))
    as Hstep.
  { unfold step. rewrite Hi, Hc. destruct p; reflexivity. }
  rewrite Hstep. split; [| split].
  - unfold resume. cbn [ui notify loadContent_settled name message].
    change (String.eqb "Error" "AbortError") with false. cbv iota.
    rewrite (shown_message _ _ _ _ _ Hs). reflexivity.
  - reflexivity.
  - intros sys2 c2 o Hi2 Hc2. unfold step. rewrite Hi2, Hc2. reflexivity.
Qed.

End RouteExtraTheorems.

Section ShownTheorems.
Import Content Storage Loader LessonRoute CacheControl Shown ContentProvider.
Local Open Scope Z_scope.

(** X26.  Whatever happens on the lesson route, an error that the page
    shows is the error of one of its calls of the loader: the message
    starts with ['Failed to load lesson "<title>": '] for the lesson of
    that call.  The fallback text of [loadContent],
    ['Failed to load lesson content'], is never shown. *)
Theorem lesson_page_shows_loader_errors_only (w0 : World) (es : list Event) :
  error_of_a_call (run (init w0) es)
  /\ contentError (ui (run (init w0) es)) <> Some "Failed to load lesson content".
Proof.
  assert (error_of_a_call (run (init w0) es)) as H
    by (apply ShownFacts.run_error_of_a_call; exact I).
  split; [exact H | apply ShownFacts.loader_error_not_fallback, H].
Qed.

(** X27.  A load of [ContentProvider], on mount or by [refetch], ends with
    [loading] false.  When the loader resolves, the manifest is set and no
    error is left from before; otherwise the manifest that was there stays,
    and the error is either none (an abort) or a message that starts with
    ['Failed to load content manifest: '], never the fallback text. *)
Theorem ContentProvider_load_outcome
        (net : Network Json) (t0 t1 : Z) (w : World) (st : ProviderState) :
  loading (snd (load net t0 t1 w st)) = false
  /\ match snd (fetchContentManifest net t0 t1 w) with
     | Settled (Resolved m) =>
         manifest (snd (load net t0 t1 w st)) = Some m
         /\ error (snd (load net t0 t1 w st)) = None
     | _ =>
         manifest (snd (load net t0 t1 w st)) = manifest st
         /\ (error (snd (load net t0 t1 w st)) = None
             \/ exists msg,
                 error (snd (load net t0 t1 w st)) = Some msg
                 /\ String.prefix (manifest_what ++ ": ") msg = true)
     end.
Proof.
  unfold load.
  pose proof (CacheFacts.fetchContentManifest_outcome net t0 t1 w) as H.
  destruct (fetchContentManifest net t0 t1 w) as [w1 [p | [m | t]]]; [destruct H | |].
  - simpl. auto.
  - destruct H as (_ & _ & _ & (e & -> & [Hname | [Hname Hprefix]])); simpl.
    + rewrite Hname. simpl. auto.
    + rewrite Hname. change (String.eqb "Error" "AbortError") with false. cbv iota.
      simpl. split; [reflexivity |]. split; [reflexivity |]. right.
      exists (message e). split; [| exact Hprefix]. f_equal.
      destruct (message e); [discriminate Hprefix | reflexivity].
Qed.

End ShownTheorems.

(** X28.  With slugs that are all different, the links of
    [getLessonNavigation] lead there and back: the [next] link of a lesson
    is the lesson after it, and the [previous] link of that lesson is the
    first one again. *)
Theorem next_then_previous_returns
        (m : Content.ContentManifest) (k : nat) (a b : Content.Lesson) :
  NoDup (Content.slug <$> Content.lessons m) ->
  Content.lessons m !! k = Some a ->
  Content.lessons m !! S k = Some b ->
  (exists nav,
      Navigation.getLessonNavigation m (Content.slug a) = Content.Ok nav
      /\ Content.next nav = Some (Navigation.link b))
  /\ (exists nav,
         Navigation.getLessonNavigation m (Content.slug b) = Content.Ok nav
         /\ Content.previous nav = Some (Navigation.link a)).
Proof.
  intros Hnd Ha Hb. split.
  - eexists. split.
    + apply (NavigationRoundTrip.getLessonNavigation_at m _ k a
               (NavigationRoundTrip.unique_first m k a Hnd Ha)).
    + simpl. rewrite Hb. reflexivity.
  - eexists. split.
    + apply (NavigationRoundTrip.getLessonNavigation_at m _ (S k) b
               (NavigationRoundTrip.unique_first m (S k) b Hnd Hb)).
    + simpl. rewrite Ha. reflexivity.
Qed.

(** X29.  The lesson route never clears the content it shows: once a call
    has resolved, [lessonContent] stays set through every later call,
    failure and abort, so the content of an earlier lesson is still there
    while, or after, a later call fails. *)
Theorem lesson_content_is_never_cleared
        (sys : LessonRoute.System) (es : list LessonRoute.Event) :
  is_Some (LessonRoute.lessonContent (LessonRoute.ui sys)) ->
  is_Some (LessonRoute.lessonContent (LessonRoute.ui (LessonRoute.run sys es))).
Proof. apply StaleFacts.run_keeps_content. Qed.

(** * Instances *)

Section ExtraInstances.
Import Content Storage Loader LessonRoute CacheControl Examples Samples.
Local Open Scope Z_scope.

(** X1 (instance).  The headings A, B, C, D, E of depths 2, 3, 3, 2, 4 come
    back in that order. *)
Lemma buildHeadingTree_keeps_document_order_instance :
  exists forest,
    Toc.buildHeadingTree abcde = Some forest /\ TocShape.flatten forest = abcde.
Proof. apply buildHeadingTree_keeps_document_order. repeat constructor. Defined.

(** X2 (instance). *)
Lemma buildHeadingTree_children_are_deeper_instance :
  exists forest,
    Toc.buildHeadingTree abcde = Some forest /\ Forall TocShape.Nested forest.
Proof. apply buildHeadingTree_children_are_deeper. repeat constructor. Defined.

(** X3 (instance).  A and D are the top level. *)
Lemma buildHeadingTree_top_level_instance :
  exists forest,
    Toc.buildHeadingTree abcde = Some forest
    /\ TocShape.heading_of <$> forest = [flat 2 "A"; flat 2 "D"].
Proof.
  destruct (buildHeadingTree_top_level abcde) as (forest & Hf & Htop);
    [repeat constructor |].
  exists forest. split; [exact Hf | rewrite Htop; reflexivity].
Defined.

(** X4 (instance).  The heading of the text "##  Intro  ". *)
Lemma extractHeadings_heading_fields_instance :
  (2 <= Toc.depth (flat 2 "Intro") <= 4)%nat
  /\ Forall (fun c => JsString.is_line_terminator c = false)
            (JsString.chars (Toc.text (flat 2 "Intro")))
  /\ JsString.trim (JsString.chars (Toc.text (flat 2 "Intro")))
     = JsString.chars (Toc.text (flat 2 "Intro"))
  /\ Toc.id (flat 2 "Intro") = Slug.generateHeadingId (Toc.text (flat 2 "Intro")).
Proof.
  apply (extractHeadings_heading_fields "##  Intro  " [Toc.Node "intro" 2 "Intro" []]).
  - vm_compute. reflexivity.
  - vm_compute. constructor.
Defined.

(** X5 (instance).  The fenced line is a heading, the line without white
    space after its hashes is none. *)
Lemma extractHeadings_line_by_line_instance :
  Utf16Scan.exec_all 0 true (Utf16Scan.join_lines sample_lines)
  = [(2%nat, Utf16Scan.units (JsString.chars "not a heading"));
     (4%nat, Utf16Scan.units (JsString.chars "Deep  "));
     (3%nat, [65; 8212; 66]%N)].
Proof.
  etransitivity; [apply (extractHeadings_line_by_line sample_lines) |].
  - vm_compute. repeat constructor.
  - vm_compute. repeat constructor.
  - vm_compute. reflexivity.
Defined.

(** X10 (instance). *)
Lemma searchLessons_ignores_case_instance :
  Catalog.searchLessons tagged_lessons "DATA" = Catalog.searchLessons tagged_lessons "data".
Proof. apply searchLessons_ignores_case. reflexivity. Defined.

(** X11 (instance).  "les" occurs in "d Lesson". *)
Lemma searchLessons_narrows_instance :
  Catalog.searchLessons (Catalog.searchLessons tagged_lessons "LES") "d Lesson"
  = Catalog.searchLessons tagged_lessons "d Lesson"
  /\ Catalog.searchLessons tagged_lessons "d Lesson"
     `sublist_of` Catalog.searchLessons tagged_lessons "LES".
Proof.
  apply searchLessons_narrows.
  - unfold Catalog.blank. vm_compute. discriminate.
  - vm_compute. reflexivity.
Defined.

(** X12 (instance). *)
Lemma filterLessonsByTags_selection_is_a_set_instance :
  Catalog.filterLessonsByTags tagged_lessons ["sql"; "types"]
  = Catalog.filterLessonsByTags tagged_lessons ["types"; "sql"; "sql"].
Proof.
  apply filterLessonsByTags_selection_is_a_set.
  intros t. rewrite !elem_of_cons, !elem_of_nil. tauto.
Defined.

(** X13 (instance). *)
Lemma filterLessonsByTags_widening_instance :
  Catalog.filterLessonsByTags tagged_lessons ["types"]
  `sublist_of` Catalog.filterLessonsByTags tagged_lessons ["types"; "basics"].
Proof.
  apply filterLessonsByTags_widening; [discriminate |].
  intros t. rewrite !elem_of_cons. tauto.
Defined.

(** X15 (instance).  The lessons listed twice carry the same tags. *)
Lemma getAllTags_depends_on_tags_only_instance :
  Catalog.getAllTags (tagged_lessons ++ tagged_lessons) = Catalog.getAllTags tagged_lessons.
Proof.
  apply getAllTags_depends_on_tags_only.
  intros t. unfold Catalog.carries. split.
  - intros (l & ts & Hl & H). exists l, ts. split; [| exact H].
    apply elem_of_app in Hl. tauto.
  - intros (l & ts & Hl & H). exists l, ts. split; [| exact H].
    apply elem_of_app. auto.
Defined.

(** X16 (instance).  With every tag selected the lesson without tags is
    gone. *)
Lemma filterLessonsByTags_all_tags_drops_untagged_instance :
  slug <$> Catalog.filterLessonsByTags tagged_lessons (Catalog.getAllTags tagged_lessons)
  = ["intro"; "types"].
Proof.
  destruct (filterLessonsByTags_all_tags_drops_untagged tagged_lessons) as [H _].
  - vm_compute. discriminate.
  - rewrite H. vm_compute. reflexivity.
Defined.

(** X17 (instance).  A fresh entry of the lesson [intro] is cleared. *)
Lemma clearContentCache_forces_refetch_instance :
  exists s',
    clearContentCache (storage (cached_world 1000)) = Ok s'
    /\ fetchLessonContent_start intro None 1001 (with_storage s' (cached_world 1000))
       = (log_request (mdPath intro) (with_storage s' (cached_world 1000)),
          Suspended AwaitFetch).
Proof.
  eexists. split; [reflexivity |].
  apply (clearContentCache_forces_refetch (cached_world 1000) _ intro 1001 eq_refl).
Defined.

(** X18 (instance).  The lesson fetched at time 1000 is served at time
    2000, whatever the network holds by then. *)
Lemma fetchLessonContent_cached_after_fetch_instance :
  snd (fetchLessonContent intro (lesson_network "changed") 2000 2001
         (fst (fetchLessonContent intro (lesson_network "## A") 1000 1001 empty_world)))
  = Settled (Resolved {| markdown := Some "## A";
                         lesson_headings := Some [Toc.Node "a" 2 "A" []] |}).
Proof.
  rewrite (fetchLessonContent_cached_after_fetch
             empty_world _ intro (lesson_network "## A") (lesson_network "changed")
             1000 1001 2000 2001
             {| markdown := Some "## A"; lesson_headings := Some [Toc.Node "a" 2 "A" []] |}).
  - reflexivity.
  - vm_compute. reflexivity.
  - vm_compute. discriminate.
  - discriminate.
  - vm_compute. reflexivity.
Defined.

(** X19 (instance). *)
Lemma fetchContentManifest_cached_after_fetch_instance :
  snd (fetchContentManifest (manifest_network empty_payload) 2000 2001
         (fst (fetchContentManifest (manifest_network manifest3_payload) 1000 1001
                 empty_world)))
  = Settled (Resolved (Some manifest3_payload)).
Proof.
  rewrite (fetchContentManifest_cached_after_fetch
             empty_world _ (manifest_network manifest3_payload)
             (manifest_network empty_payload) 1000 1001 2000 2001
             (Some manifest3_payload)).
  - reflexivity.
  - vm_compute. reflexivity.
  - vm_compute. discriminate.
  - discriminate.
  - vm_compute. reflexivity.
Defined.

(** X22 (instance). *)
Lemma unparsable_entry_blocks_the_lesson_instance :
  (exists e,
      fetchLessonContent intro (lesson_network "## A") 1000 1001 unparsable_world
      = (unparsable_world, Settled (Rejected (ThrownError e)))
      /\ name e = "Error")
  /\ exists s',
      clearContentCache (storage unparsable_world) = Ok s'
      /\ fetchLessonContent_start intro None 1002 (with_storage s' unparsable_world)
         = (log_request (mdPath intro) (with_storage s' unparsable_world),
            Suspended AwaitFetch).
Proof.
  destruct (unparsable_entry_blocks_the_lesson unparsable_world intro "{oops")
    as [Hblocked (s' & Hclear & Hnext)]; [reflexivity | reflexivity | discriminate |].
  split; [apply Hblocked |].
  exists s'. split; [exact Hclear | apply Hnext].
Defined.

(** X24 (instance).  The response 404 Not Found. *)
Lemma failed_request_is_shown_instance :
  contentError (ui (step pending_system (FetchSettles 0 (Fulfilled not_found))))
  = Some (lesson_what intro ++ ": Failed to fetch lesson content: 404 Not Found")%string
  /\ contentError (ui (step pending_system
                            (FetchSettles 0 (Failed (ThrownError network_error)))))
     = Some (lesson_what intro ++ ": Failed to fetch")%string.
Proof.
  destruct (failed_request_is_shown pending_system 0 pending_call) as [Hresponse Herror];
    [reflexivity | reflexivity |].
  destruct (Hresponse not_found eq_refl) as [-> _].
  destruct (Herror network_error) as [-> _]; [discriminate |].
  split; reflexivity.
Defined.

(** X25 (instance). *)
Lemma request_timeout_is_shown_instance :
  contentError (ui (step pending_system (Abort 0 timeout_reason)))
  = Some (lesson_what intro ++ ": Unknown error")%string
  /\ world (step pending_system (Abort 0 timeout_reason)) = world pending_system.
Proof.
  destruct (request_timeout_is_shown pending_system 0 pending_call AwaitFetch)
    as (-> & Hworld & _); [reflexivity | reflexivity |].
  split; [reflexivity | exact Hworld].
Defined.

End ExtraInstances.

Section MoreInstances.
Import Content Storage Loader LessonRoute Examples Samples.
Local Open Scope Z_scope.

(** X28 (instance).  The first and the second of three lessons. *)
Lemma next_then_previous_returns_instance :
  (exists nav,
      Navigation.getLessonNavigation manifest3 "intro" = Ok nav
      /\ next nav = Some (Navigation.link types))
  /\ (exists nav,
         Navigation.getLessonNavigation manifest3 "types" = Ok nav
         /\ previous nav = Some (Navigation.link intro)).
Proof.
  apply (next_then_previous_returns manifest3 0 intro types);
    [| reflexivity | reflexivity].
  apply (bool_decide_unpack (NoDup (slug <$> lessons manifest3))). vm_compute. exact I.
Defined.

(** X29 (instance).  The lesson [intro] is shown; the call for the lesson
    [types] then gets the response 404: the page shows the error of
    [types] and still the content of [intro]. *)
Lemma lesson_content_is_never_cleared_instance :
  is_Some (lessonContent (ui (run shown_system
                                  [CallLoader types 2000;
                                   FetchSettles 1 (Fulfilled not_found)])))
  /\ contentError (ui (run shown_system
                           [CallLoader types 2000;
                            FetchSettles 1 (Fulfilled not_found)]))
     = Some (lesson_what types ++ ": Failed to fetch lesson content: 404 Not Found")%string.
Proof.
  split; [| vm_compute; reflexivity].
  apply lesson_content_is_never_cleared. vm_compute. eexists. reflexivity.
Defined.

End MoreInstances.
